(** * Crossmint megaverse scripts: execution core

    A shallow embedding of the two TypeScript scripts of the repository
    (phase 1, [src/phase1/polyanets.ts], and the phase-2 goal-map script)
    and the properties of their execution core: the token parser, the
    plan builder, the backoff-retry executor and the concurrency limiter.

    JavaScript values are modelled as far as the code inspects them:
    numbers with NaN and the infinities, [undefined], [null] and booleans
    for the truthiness tests, strings as [string].  Asynchronous code is
    cut at its [await]s into the synchronous segments the event loop
    runs one at a time. *)

From Stdlib Require Import QArith Qround Qpower ZArith Lia Lqa String Ascii DecimalString
  DecimalNat.
From stdpp Require Import base option list strings gmap.

Local Open Scope Z_scope.
Local Open Scope string_scope.

(** ** JavaScript numbers and values *)

Module JS.

(** A [number]: NaN, the two infinities, or a finite value.  Every finite
    double is a rational, and the code only compares numbers and tests
    them for integrality, both of which are exact. *)
Inductive number : Type :=
| NaN
| PosInf
| NegInf
| Fin (q : Q).

Definition of_Z (z : Z) : number := Fin (inject_Z z).
Definition of_nat (n : nat) : number := of_Z (Z.of_nat n).

(** [a < b]; false as soon as one side is NaN. *)
Definition lt (a b : number) : bool :=
  match a, b with
  | NaN, _ | _, NaN => false
  | PosInf, _ | _, NegInf => false
  | NegInf, _ | _, PosInf => true
  | Fin x, Fin y => negb (Qle_bool y x)
  end.

(** [a <= b]; false as soon as one side is NaN. *)
Definition le (a b : number) : bool :=
  match a, b with
  | NaN, _ | _, NaN => false
  | NegInf, _ | _, PosInf => true
  | PosInf, _ | _, NegInf => false
  | Fin x, Fin y => Qle_bool x y
  end.

Definition gt (a b : number) : bool := lt b a.
Definition ge (a b : number) : bool := le b a.

(** [a === b] on numbers: NaN differs from everything, itself included. *)
Definition strict_eq (a b : number) : bool :=
  match a, b with
  | PosInf, PosInf | NegInf, NegInf => true
  | Fin x, Fin y => Qeq_bool x y
  | _, _ => false
  end.

(** [Number.isInteger]. *)
Definition isInteger (a : number) : bool :=
  match a with
  | Fin q => (Qnum q mod Zpos (Qden q) =? 0)%Z
  | _ => false
  end.

(** The values a [status] property can hold. *)
Inductive value : Type :=
| Undefined
| Null
| Bool (b : bool)
| Number (n : number).

(** ToBoolean. *)
Definition truthy (v : value) : bool :=
  match v with
  | Undefined | Null => false
  | Bool b => b
  | Number NaN => false
  | Number (Fin q) => negb (Qeq_bool q 0)
  | Number _ => true
  end.

(** ToNumber. *)
Definition toNumber (v : value) : number :=
  match v with
  | Undefined => NaN
  | Null => of_Z 0
  | Bool b => of_Z (if b then 1 else 0)
  | Number n => n
  end.

(** [a && b] and [a || b] return one of their operands. *)
Definition and (a b : value) : value := if truthy a then b else a.
Definition or (a b : value) : value := if truthy a then a else b.

(** [v === n] for a number literal [n]. *)
Definition strict_eq_number (v : value) (n : number) : bool :=
  match v with
  | Number m => strict_eq m n
  | _ => false
  end.

(** [v === undefined]. *)
Definition is_undefined (v : value) : bool :=
  match v with
  | Undefined => true
  | _ => false
  end.

(** [v != null]: loose inequality, false on both [null] and [undefined]. *)
Definition not_nullish (v : value) : bool :=
  match v with
  | Undefined | Null => false
  | _ => true
  end.

(** [v >= n] for a number literal [n]: the left operand goes through ToNumber. *)
Definition ge_number (v : value) (n : number) : bool := ge (toNumber v) n.

(** The floating-point operations behind the backoff delay.  Their rounding
    is left open: the results below hold for every interpretation.
    [exponentiate] is Number::exponentiate, which both the [**] operator and
    [Math.pow] are defined by. *)
Class Arith : Type := {
  multiply : number -> number -> number;
  exponentiate : number -> number -> number;
  Math_round : number -> number
}.

Definition Math_pow {arith : Arith} (b e : number) : number := exponentiate b e.

(** An exact interpretation on finite values, to run examples with. *)
Definition exact_multiply (a b : number) : number :=
  match a, b with
  | Fin x, Fin y => Fin (x * y)
  | _, _ => NaN
  end.

Definition exact_exponentiate (b e : number) : number :=
  match b, e with
  | Fin x, Fin y => if isInteger e then Fin (x ^ Qfloor y) else NaN
  | _, _ => NaN
  end.

Definition exact_round (a : number) : number :=
  match a with
  | Fin x => of_Z (Qfloor (x + (1 # 2)))
  | other => other
  end.

Definition exact : Arith := {|
  multiply := exact_multiply;
  exponentiate := exact_exponentiate;
  Math_round := exact_round
|}.

(** ASCII case mapping, as [toLowerCase] and [toUpperCase] act on the
    strings of the token grammar. *)
Definition lower_ascii (c : ascii) : ascii :=
  let n := nat_of_ascii c in
  if (65 <=? n)%nat && (n <=? 90)%nat then ascii_of_nat (n + 32) else c.

Definition upper_ascii (c : ascii) : ascii :=
  let n := nat_of_ascii c in
  if (97 <=? n)%nat && (n <=? 122)%nat then ascii_of_nat (n - 32) else c.

Fixpoint map_string (f : ascii -> ascii) (s : string) : string :=
  match s with
  | EmptyString => EmptyString
  | String c rest => String (f c) (map_string f rest)
  end.

Definition toLowerCase (s : string) : string := map_string lower_ascii s.
Definition toUpperCase (s : string) : string := map_string upper_ascii s.

(** A loop counter interpolated into a template literal. *)
Definition show (n : nat) : string := NilEmpty.string_of_uint (Nat.to_uint n).

(** What a [throw] carries. *)
Inductive exn : Type :=
| Error (message : string)
| TypeError (message : string).

Inductive result (A : Type) : Type :=
| Ok (a : A)
| Err (e : exn).
Arguments Ok {A} a.
Arguments Err {A} e.

End JS.

Import JS (Ok, Err, Error, TypeError).

(** ** What both scripts' [withRetry] work on *)

Module Retry.

(** The value a failed attempt throws, as far as [withRetry] looks at it:
    [err?.status] ([Undefined] when the property is absent, or when [err]
    itself is nullish) and the message the caller logs. *)
Record failure : Type := { status : JS.value; message : string }.

(** How one invocation of the operation settles. *)
Inductive settled (T : Type) : Type :=
| Fulfilled (v : T)
| Rejected (err : failure).
Arguments Fulfilled {T} v.
Arguments Rejected {T} err.

(** The [opts] argument.  [onRetry] is an observer of type
    [(err, attempt) => void]; only its invocations are recorded. *)
Record options : Type := {
  retries : option JS.number;
  baseMs : option JS.number;
  onRetry : bool
}.

(** What a call of [withRetry] has done so far. *)
Record trace : Type := {
  invocations : nat;                      (* calls of [fn] *)
  draws : nat;                            (* calls of [Math.random] *)
  onRetry_calls : list (failure * nat);   (* arguments of each [onRetry] call *)
  sleeps : list JS.number                 (* argument of each [sleep] *)
}.

Definition start : trace :=
  {| invocations := 0; draws := 0; onRetry_calls := []; sleeps := [] |}.

(** [fn] was called once more. *)
Definition invoked (t : trace) : trace :=
  {| invocations := S (invocations t); draws := draws t;
     onRetry_calls := onRetry_calls t; sleeps := sleeps t |}.

(** One pass through the retry branch: a draw, the hook when there is one,
    a sleep. *)
Definition retried (hook : bool) (err : failure) (attempt : nat)
    (delay : JS.number) (t : trace) : trace :=
  {| invocations := invocations t; draws := S (draws t);
     onRetry_calls := if hook then onRetry_calls t ++ [(err, S attempt)]
                      else onRetry_calls t;
     sleeps := sleeps t ++ [delay] |}.

(** [opts?.onRetry] is defined. *)
Definition has_hook (opts : option options) : bool :=
  match opts with
  | Some o => onRetry o
  | None => false
  end.

End Retry.

(** ** Phase 2: the goal-map script *)

Module Phase2.

Record Point : Type := { row : JS.number; column : JS.number }.

Inductive CellKind : Type := SPACE | POLYANET | SOLOON | COMETH.

(** [Color] and [Direction] are unions of string literals: strings at run time. *)
Definition Color : Type := string.
Definition Direction : Type := string.

Inductive Cell : Type :=
| CellSpace
| CellPolyanet
| CellSoloon (color : Color)
| CellCometh (direction : Direction).

Definition kind (cell : Cell) : CellKind :=
  match cell with
  | CellSpace => SPACE
  | CellPolyanet => POLYANET
  | CellSoloon _ => SOLOON
  | CellCometh _ => COMETH
  end.

(** *** Grid *)

Record Grid : Type := { height : JS.number; width : JS.number }.

Definition new_Grid (height width : JS.number) : JS.result Grid :=
  if JS.le height (JS.of_Z 0) || JS.le width (JS.of_Z 0)
     || negb (JS.isInteger height) || negb (JS.isInteger width)
  then Err (Error "Grid dimensions must be positive integers")
  else Ok {| height := height; width := width |}.

Definition inBounds (grid : Grid) (p : Point) : bool :=
  JS.ge (row p) (JS.of_Z 0) && JS.lt (row p) (height grid)
  && JS.ge (column p) (JS.of_Z 0) && JS.lt (column p) (width grid).

(** *** Parsing *)

(** [strip_prefix p s] is the rest of [s] after its prefix [p]. *)
Fixpoint strip_prefix (p s : string) : option string :=
  match p, s with
  | EmptyString, _ => Some s
  | String a p', String b s' => if Ascii.eqb a b then strip_prefix p' s' else None
  | String _ _, EmptyString => None
  end.

(** [token.match(/^(a1|a2|...)suffix$/)]: the alternatives are tried in
    order at the start of the token, the suffix must take it to its end;
    the result is capture group 1. *)
Fixpoint match_alternatives (alts : list string) (suffix token : string) : option string :=
  match alts with
  | [] => None
  | a :: alts' =>
      match strip_prefix a token with
      | Some rest =>
          if String.eqb rest suffix then Some a
          else match_alternatives alts' suffix token
      | None => match_alternatives alts' suffix token
      end
  end.

Definition dirMap : gmap string Direction :=
  <["UP" := "up"]> (<["DOWN" := "down"]> (<["LEFT" := "left"]> (<["RIGHT" := "right"]> ∅))).

Definition parseToken (token : string) : JS.result Cell :=
  if String.eqb token "SPACE" then Ok CellSpace
  else if String.eqb token "POLYANET" then Ok CellPolyanet
  else
    match match_alternatives ["BLUE"; "RED"; "PURPLE"; "WHITE"] "_SOLOON" token with
    | Some soloonMatch1 => Ok (CellSoloon (JS.toLowerCase soloonMatch1))
    | None =>
        match match_alternatives ["UP"; "DOWN"; "LEFT"; "RIGHT"] "_COMETH" token with
        | Some comethMatch1 =>
            (* the lookup cannot miss: the capture is one of the four keys *)
            Ok (CellCometh (default "undefined" (dirMap !! comethMatch1)))
        | None => Err (Error ("Unknown token: " ++ token))
        end
    end.

(** *** Plan builder *)

(** The remote call an action's [run] thunk makes when it is invoked. *)
Inductive call : Type :=
| createPolyanet (p : Point)
| createSoloon (p : Point) (color : Color)
| createCometh (p : Point) (direction : Direction).

Inductive ActionKind : Type := create.

Record Action : Type := {
  action_kind : ActionKind;
  run : call;
  describe : string
}.

(** The planner's store: the [actions] array, and (ghost) the points for
    which the bounds guard took its [continue]. *)
Record plan_state : Type := {
  actions : list Action;
  skipped : list Point
}.

Definition plan_init : plan_state := {| actions := []; skipped := [] |}.

(** Planning code: it updates the store and returns or throws. *)
Definition Plan (A : Type) : Type := plan_state -> plan_state * JS.result A.

Definition ret {A} (a : A) : Plan A := fun s => (s, Ok a).
Definition throw {A} (e : JS.exn) : Plan A := fun s => (s, Err e).
Definition lift {A} (r : JS.result A) : Plan A := fun s => (s, r).
Definition bind {A B} (m : Plan A) (k : A -> Plan B) : Plan B :=
  fun s =>
    match m s with
    | (s', Ok a) => k a s'
    | (s', Err e) => (s', Err e)
    end.

Notation "'do' x <- m ; k" := (bind m (fun x => k))
  (at level 10, x name, m at level 100, k at level 200).

(** [actions.push(a)] *)
Definition push (a : Action) : Plan unit :=
  fun s => ({| actions := actions s ++ [a]; skipped := skipped s |}, Ok tt).

(** the [continue] of the bounds guard *)
Definition skip (p : Point) : Plan unit :=
  fun s => ({| actions := actions s; skipped := skipped s ++ [p] |}, Ok tt).

(** [for (let i = 0; i < n; i++) body(i)], over the values [i] takes. *)
Fixpoint for_each (indices : list nat) (body : nat -> Plan unit) : Plan unit :=
  match indices with
  | [] => ret tt
  | i :: rest => do _ <- body i; for_each rest body
  end.

Definition for_upto (n : nat) (body : nat -> Plan unit) : Plan unit :=
  for_each (seq 0 n) body.

(** [goal[r][c]]: [None] stands for [undefined], read past the end of row [r]. *)
Definition index2 (goal : list (list string)) (r c : nat) : option string :=
  row_r ← goal !! r; row_r !! c.

(** The body of the inner loop, for one cell.  A token that is [undefined]
    fails both [===] tests of [parseToken] and then throws on [token.match]. *)
Definition plan_cell (grid : Grid) (goal : list (list string)) (r c : nat) : Plan unit :=
  do cell <- lift (match index2 goal r c with
                   | Some raw => parseToken raw
                   | None => Err (TypeError "Cannot read properties of undefined (reading 'match')")
                   end);
  let p := {| row := JS.of_nat r; column := JS.of_nat c |} in
  if negb (inBounds grid p) then skip p
  else
    match cell with
    | CellSpace => ret tt
    | CellPolyanet =>
        push {| action_kind := create;
                run := createPolyanet p;
                describe := "POLYANET @ (" ++ JS.show r ++ "," ++ JS.show c ++ ")" |}
    | CellSoloon color =>
        push {| action_kind := create;
                run := createSoloon p color;
                describe := JS.toUpperCase color ++ "_SOLOON @ ("
                            ++ JS.show r ++ "," ++ JS.show c ++ ")" |}
    | CellCometh direction =>
        push {| action_kind := create;
                run := createCometh p direction;
                describe := JS.toUpperCase direction ++ "_COMETH @ ("
                            ++ JS.show r ++ "," ++ JS.show c ++ ")" |}
    end.

(** [goal[0]?.length ?? 0] *)
Definition first_row_length (goal : list (list string)) : nat :=
  match goal !! 0%nat with
  | Some row0 => length row0
  | None => 0%nat
  end.

Definition planActions (goal : list (list string)) : Plan Grid :=
  let height := length goal in
  let width := first_row_length goal in
  do grid <- lift (new_Grid (JS.of_nat height) (JS.of_nat width));
  do _ <- for_upto height (fun r =>
            for_upto width (fun c =>
              plan_cell grid goal r c));
  ret grid.

(** A whole run of the planner from an empty [actions] array. *)
Definition plan (goal : list (list string)) : plan_state * JS.result Grid :=
  planActions goal plan_init.

(** *** Backoff-retry executor *)

Section withRetry.
Context {arith : JS.Arith} {T : Type}.

(** [fn k] is how the operation settles the [k]-th time it is invoked,
    [Math_random k] the [k]-th draw. *)
Variable fn : nat -> Retry.settled T.
Variable Math_random : nat -> JS.number.
Variable opts : option Retry.options.

Definition retries : JS.number := default (JS.of_Z 6) (opts ≫= Retry.retries).
Definition baseMs : JS.number := default (JS.of_Z 250) (opts ≫= Retry.baseMs).

Definition transient (status : JS.value) : bool :=
  JS.strict_eq_number status (JS.of_Z 429)
  || (JS.not_nullish status && JS.ge_number status (JS.of_Z 500))
  || JS.is_undefined status.

(** The [while (true)] loop; [fuel] bounds its iterations, [None] says
    the bound was reached. *)
Fixpoint withRetry_loop (fuel attempt : nat) (t : Retry.trace)
    : option (Retry.settled T * Retry.trace) :=
  match fuel with
  | O => None
  | S fuel' =>
      match fn (Retry.invocations t) with
      | Retry.Fulfilled v => Some (Retry.Fulfilled v, Retry.invoked t)
      | Retry.Rejected err =>
          let t := Retry.invoked t in
          let status := Retry.status err in
          if JS.ge (JS.of_nat attempt) retries || negb (transient status)
          then Some (Retry.Rejected err, t)
          else
            let delay :=
              JS.Math_round
                (JS.multiply (JS.multiply (Math_random (Retry.draws t)) baseMs)
                             (JS.exponentiate (JS.of_Z 2) (JS.of_nat attempt))) in
            withRetry_loop fuel' (S attempt)
              (Retry.retried (Retry.has_hook opts) err attempt delay t)
      end
  end.

Definition withRetry (fuel : nat) : option (Retry.settled T * Retry.trace) :=
  withRetry_loop fuel 0 Retry.start.

End withRetry.

End Phase2.

(** ** Phase 1: the polyanet cross *)

Module Phase1.

Section withRetry.
Context {arith : JS.Arith} {T : Type}.
Variable fn : nat -> Retry.settled T.
Variable Math_random : nat -> JS.number.
Variable opts : option Retry.options.

Definition retries : JS.number := default (JS.of_Z 5) (opts ≫= Retry.retries).
Definition baseMs : JS.number := default (JS.of_Z 300) (opts ≫= Retry.baseMs).

(** Here [transient] is the value of the [||] chain, one of its
    operands, and not always a boolean. *)
Definition transient (status : JS.value) : JS.value :=
  JS.or (JS.or (JS.Bool (JS.strict_eq_number status (JS.of_Z 429)))
               (JS.and status (JS.Bool (JS.ge_number status (JS.of_Z 500)))))
        (JS.Bool (JS.is_undefined status)).

Fixpoint withRetry_loop (fuel attempt : nat) (t : Retry.trace)
    : option (Retry.settled T * Retry.trace) :=
  match fuel with
  | O => None
  | S fuel' =>
      match fn (Retry.invocations t) with
      | Retry.Fulfilled v => Some (Retry.Fulfilled v, Retry.invoked t)
      | Retry.Rejected err =>
          let t := Retry.invoked t in
          let status := Retry.status err in
          if JS.ge (JS.of_nat attempt) retries || negb (JS.truthy (transient status))
          then Some (Retry.Rejected err, t)
          else
            let delay :=
              JS.Math_round
                (JS.multiply (JS.multiply (Math_random (Retry.draws t)) baseMs)
                             (JS.Math_pow (JS.of_Z 2) (JS.of_nat attempt))) in
            withRetry_loop fuel' (S attempt)
              (Retry.retried (Retry.has_hook opts) err attempt delay t)
      end
  end.

Definition withRetry (fuel : nat) : option (Retry.settled T * Retry.trace) :=
  withRetry_loop fuel 0 Retry.start.

End withRetry.

End Phase1.

(** ** The concurrency limiter

  [class Limiter] is the same, token for token, in both scripts. *)

Module Limiter.

(** One call of [run], named by whoever makes it.  A suspended call sits in
    [queue] as the [res] callback of the promise it awaits. *)
Definition invocation : Type := nat.

Record Limiter : Type := {
  max : JS.number;
  active : Z;
  queue : list invocation
}.

Definition new (max : JS.number) : JS.result Limiter :=
  if JS.lt max (JS.of_Z 1) then Err (Error "Concurrency must be >= 1")
  else Ok {| max := max; active := 0; queue := [] |}.

(** What an instrumented run records. *)
Inductive observation : Type :=
| Suspended (t : invocation)       (* pushed its [res] on the queue *)
| Entered (t : invocation)        (* passed the test at once, started its task *)
| Reentered (t : invocation).     (* resumed from the queue, started its task *)

(** The limiter in its event loop: [woken] are the calls whose promise has
    been resolved and whose continuation waits in the microtask queue,
    [running] the calls awaiting their task. *)
Record world : Type := {
  limiter : Limiter;
  woken : list invocation;
  running : list invocation;
  history : list observation
}.

Definition boot (l : Limiter) : world :=
  {| limiter := l; woken := []; running := []; history := [] |}.

Fixpoint remove_one (t : invocation) (l : list invocation) : list invocation :=
  match l with
  | [] => []
  | x :: rest => if decide (x = t) then rest else x :: remove_one t rest
  end.

(** [this.active++; ... await task()]: the segment that starts the task. *)
Definition run_enter (o : observation) (t : invocation) (w : world) : world :=
  let l := limiter w in
  {| limiter := {| max := max l; active := active l + 1; queue := queue l |};
     woken := woken w;
     running := running w ++ [t];
     history := history w ++ [o] |}.

(** The first segment of [run]: the admission test.  When it holds the call
    pushes [res] and suspends, otherwise it runs on into [run_enter]. *)
Definition run_call (t : invocation) (w : world) : world :=
  let l := limiter w in
  if JS.ge (JS.of_Z (active l)) (max l)
  then {| limiter := {| max := max l; active := active l; queue := queue l ++ [t] |};
          woken := woken w;
          running := running w;
          history := history w ++ [Suspended t] |}
  else run_enter (Entered t) t w.

(** The [finally] block, run when the task of [t] has settled:
    [this.active--; const next = this.queue.shift(); if (next) next();]
    Calling [next] resolves the waiter's promise: its continuation is
    queued, it does not run yet. *)
Definition run_finally (t : invocation) (w : world) : world :=
  let l := limiter w in
  match queue l with
  | [] =>
      {| limiter := {| max := max l; active := active l - 1; queue := [] |};
         woken := woken w;
         running := remove_one t (running w);
         history := history w |}
  | next :: rest =>
      {| limiter := {| max := max l; active := active l - 1; queue := rest |};
         woken := woken w ++ [next];
         running := remove_one t (running w);
         history := history w |}
  end.

(** What the event loop can run next. *)
Inductive event : Type :=
| Call (t : invocation)      (* somebody calls [limiter.run] *)
| Resume                     (* the oldest queued continuation runs *)
| Settle (t : invocation).   (* the task of a running call settles *)
Arguments Call t%_nat.
Arguments Settle t%_nat.

Definition step (w : world) (e : event) : option world :=
  match e with
  | Call t => Some (run_call t w)
  | Resume =>
      match woken w with
      | [] => None
      | t :: rest =>
          Some (run_enter (Reentered t) t
                  {| limiter := limiter w; woken := rest;
                     running := running w; history := history w |})
      end
  | Settle t =>
      if decide (t ∈ running w) then Some (run_finally t w) else None
  end.

Fixpoint exec (w : world) (evs : list event) : option world :=
  match evs with
  | [] => Some w
  | e :: rest => w' ← step w e; exec w' rest
  end.

Definition is_call (e : event) : bool :=
  match e with
  | Call _ => true
  | _ => false
  end.

(** No call of [run] arrives while a woken waiter has yet to resume. *)
Fixpoint calls_meet_no_wakeup (w : world) (evs : list event) : bool :=
  match evs with
  | [] => true
  | e :: rest =>
      (negb (is_call e) || bool_decide (woken w = []))
      && match step w e with
         | Some w' => calls_meet_no_wakeup w' rest
         | None => true
         end
  end.

(** The order in which calls were suspended, were admitted after a
    suspension, and were admitted at all. *)
Definition suspended_of (o : observation) : option invocation :=
  match o with
  | Suspended t => Some t
  | _ => None
  end.

Definition readmitted_of (o : observation) : option invocation :=
  match o with
  | Reentered t => Some t
  | _ => None
  end.

Definition admitted_of (o : observation) : option invocation :=
  match o with
  | Entered t | Reentered t => Some t
  | Suspended _ => None
  end.

Definition enqueue_order (w : world) : list invocation := omap suspended_of (history w).
Definition wakeup_order (w : world) : list invocation := omap readmitted_of (history w).
Definition admission_order (w : world) : list invocation := omap admitted_of (history w).

End Limiter.

(** ** Configuration read by [main] *)

Module Config.

(** The ASCII members of StrWhiteSpaceChar. *)
Definition is_space (c : ascii) : bool :=
  let n := nat_of_ascii c in
  ((9 <=? n)%nat && (n <=? 13)%nat) || (n =? 32)%nat.

Fixpoint trim_start (s : string) : string :=
  match s with
  | String c rest => if is_space c then trim_start rest else s
  | EmptyString => EmptyString
  end.

Definition digit (c : ascii) : option Z :=
  let n := nat_of_ascii c in
  if (48 <=? n)%nat && (n <=? 57)%nat then Some (Z.of_nat (n - 48)) else None.

(** The value of the longest prefix of decimal digits, if there is one. *)
Fixpoint digits (s : string) (acc : option Z) : option Z :=
  match s with
  | String c rest =>
      match digit c with
      | Some d => digits rest (Some (10 * default 0 acc + d))
      | None => acc
      end
  | EmptyString => acc
  end.

(** [parseInt(s, 10)]. *)
Definition parseInt (s : string) : JS.number :=
  let s := trim_start s in
  let '(sign, s) :=
    match s with
    | String "-" rest => (-1, rest)
    | String "+" rest => (1, rest)
    | _ => (1, s)
    end in
  match digits s None with
  | Some n => JS.of_Z (sign * n)
  | None => JS.NaN
  end.

(** [parseInt(process.env.CONCURRENCY || fallback, 10)] *)
Definition concurrency (env_CONCURRENCY : option string) (fallback : string) : JS.number :=
  match env_CONCURRENCY with
  | Some s => parseInt (if String.eqb s "" then fallback else s)
  | None => parseInt fallback
  end.

End Config.

(** ** Phase 1: grid and X shape ([src/phase1/polyanets.ts]) *)

Module Polyanets.

Record Point : Type := { row : JS.number; column : JS.number }.

(** Unary minus. *)
Definition neg (a : JS.number) : JS.number :=
  match a with
  | JS.NaN => JS.NaN
  | JS.PosInf => JS.NegInf
  | JS.NegInf => JS.PosInf
  | JS.Fin x => JS.Fin (- x)
  end.

(** Sums and quotients are doubles: the exact result rounded to the
    nearest number of 53 significant bits (of the spacing [2^-1074] below
    [2^-1022]), a tie going to the even one, and to an infinity from
    [2^1024] on.  Zero has no sign here. *)
Definition pow2 (e : Z) : Q := (2 ^ e)%Q.

(** The [e] with [2^e <= q < 2^(e+1)], for a positive [q]. *)
Definition ilog2 (q : Q) : Z :=
  let e := Z.log2 (Qnum q) - Z.log2 (Zpos (Qden q)) in
  if Qle_bool (pow2 e) q then e else e - 1.

Definition round_half_even (x : Q) : Z :=
  let f := Qfloor x in
  match (x - inject_Z f ?= 1 # 2)%Q with
  | Lt => f
  | Gt => f + 1
  | Eq => if Z.even f then f else f + 1
  end.

Definition round_positive (q : Q) : JS.number :=
  let ulp := pow2 (Z.max (ilog2 q) (-1022) - 52) in
  let r := (inject_Z (round_half_even (q / ulp)) * ulp)%Q in
  if Qle_bool (pow2 1024) r then JS.PosInf else JS.Fin r.

Definition to_double (q : Q) : JS.number :=
  match (q ?= 0)%Q with
  | Eq => JS.Fin 0
  | Gt => round_positive q
  | Lt => neg (round_positive (- q))
  end.

(** [a + b] and [a - b] *)
Definition add (a b : JS.number) : JS.number :=
  match a, b with
  | JS.NaN, _ | _, JS.NaN => JS.NaN
  | JS.PosInf, JS.NegInf | JS.NegInf, JS.PosInf => JS.NaN
  | JS.PosInf, _ | _, JS.PosInf => JS.PosInf
  | JS.NegInf, _ | _, JS.NegInf => JS.NegInf
  | JS.Fin x, JS.Fin y => to_double (x + y)
  end.

Definition sub (a b : JS.number) : JS.number := add a (neg b).

(** [a / 2] *)
Definition halve (a : JS.number) : JS.number :=
  match a with
  | JS.Fin x => to_double (x / 2)
  | other => other
  end.

Definition Math_floor (a : JS.number) : JS.number :=
  match a with
  | JS.Fin x => JS.of_Z (Qfloor x)
  | other => other
  end.

(** [a % 2 === 0]: the remainder is zero on the even integers only. *)
Definition remainder_by_2_is_0 (a : JS.number) : bool :=
  match a with
  | JS.Fin x => JS.isInteger a && Z.even (Qfloor x)
  | _ => false
  end.

Record Grid : Type := { size : JS.number }.

Definition new_Grid (size : JS.number) : JS.result Grid :=
  if negb (JS.isInteger size) || JS.le size (JS.of_Z 0)
  then Err (Error "Grid size must be a positive integer")
  else Ok {| size := size |}.

(** Returns true if the point falls within [0..size-1] for row/column. *)
Definition inBounds (grid : Grid) (p : Point) : bool :=
  JS.isInteger (row p)
  && JS.isInteger (column p)
  && JS.ge (row p) (JS.of_Z 0)
  && JS.lt (row p) (size grid)
  && JS.ge (column p) (JS.of_Z 0)
  && JS.lt (column p) (size grid).

Record XShape : Type := { boxSize : JS.number; center : Point }.

Definition new_XShape (boxSize : JS.number) (center : Point) : JS.result XShape :=
  if negb (JS.isInteger boxSize) || JS.le boxSize (JS.of_Z 0) || remainder_by_2_is_0 boxSize
  then Err (Error "XShape.boxSize must be a positive odd integer")
  else Ok {| boxSize := boxSize; center := center |}.

(** A number in a template literal.  Integers print in decimal, which is
    all [key] is ever given: the points it is applied to have passed
    [inBounds].  (A finite non-integer is shown as its fraction, which is
    not what JavaScript prints; integers from 1e21 on print in exponent
    notation there.) *)
Definition to_string (a : JS.number) : string :=
  match a with
  | JS.NaN => "NaN"
  | JS.PosInf => "Infinity"
  | JS.NegInf => "-Infinity"
  | JS.Fin x =>
      if JS.isInteger a
      then if (0 <=? Qfloor x)%Z then JS.show (Z.to_nat (Qfloor x))
           else "-" ++ JS.show (Z.to_nat (- Qfloor x))
      else JS.show (Z.to_nat (Z.abs (Qnum x))) ++ "/" ++ JS.show (Pos.to_nat (Qden x))
  end.

Definition key (p : Point) : string :=
  to_string (row p) ++ "," ++ to_string (column p).

(** [pts.filter((p) => (seen.has(key(p)) ? false : (seen.add(key(p)), true)))] *)
Fixpoint filter_unseen (seen : gset string) (pts : list Point) : list Point :=
  match pts with
  | [] => []
  | p :: rest =>
      if decide (key p ∈ seen) then filter_unseen seen rest
      else p :: filter_unseen ({[ key p ]} ∪ seen) rest
  end.

(** One pass of the loop body: the two diagonal points at offset [d], each
    pushed when it is in bounds. *)
Definition push_pair (grid : Grid) (center : Point) (d : JS.number) (pts : list Point)
    : list Point :=
  let a := {| row := add (row center) d; column := add (column center) d |} in
  let b := {| row := add (row center) d; column := sub (column center) d |} in
  let pts := if inBounds grid a then (pts ++ [a])%list else pts in
  if inBounds grid b then (pts ++ [b])%list else pts.

(** [for (let d = -half; d <= half; d++)]; [fuel] bounds the iterations. *)
Fixpoint points_loop (fuel : nat) (grid : Grid) (center : Point) (half d : JS.number)
    (pts : list Point) : option (list Point) :=
  match fuel with
  | O => None
  | S fuel' =>
      if JS.le d half
      then points_loop fuel' grid center half (add d (JS.of_Z 1))
             (push_pair grid center d pts)
      else Some pts
  end.

Definition points (fuel : nat) (shape : XShape) (grid : Grid) : option (list Point) :=
  let half := Math_floor (halve (boxSize shape)) in
  pts ← points_loop fuel grid (center shape) half (neg half) [];
  Some (filter_unseen ∅ pts).

Definition GRID_SIZE : JS.number := JS.of_Z 11.
Definition X_SIZE : JS.number := JS.of_Z 7.
Definition CENTER : Point := {| row := JS.of_Z 5; column := JS.of_Z 5 |}.

End Polyanets.

(** ** Phase 2: the API client *)

Module Client.

(** [s.replace(/\/$/, '')]: the pattern can only match a slash that ends
    the string. *)
Fixpoint strip_trailing_slash (s : string) : string :=
  match s with
  | EmptyString => EmptyString
  | String c rest =>
      match rest with
      | EmptyString => if Ascii.eqb c "/" then EmptyString else s
      | String _ _ => String c (strip_trailing_slash rest)
      end
  end.

(** [process.env.NAME || fallback]: an unset variable and an empty one both
    give way. *)
Definition env_or (env : option string) (fallback : string) : string :=
  match env with
  | Some s => if String.eqb s "" then fallback else s
  | None => fallback
  end.

Record CrossmintClient : Type := { candidateId : string; baseUrl : string }.

(** The constructor; [baseUrl = None] is the argument left out. *)
Definition new (candidateId : string) (baseUrl : option string)
    (env_BASE_URL : option string) : JS.result CrossmintClient :=
  let baseUrl :=
    match baseUrl with
    | Some given => given
    | None => env_or env_BASE_URL "https://challenge.crossmint.io/api"
    end in
  if String.eqb candidateId "" then Err (Error "CANDIDATE_ID env var is required")
  else Ok {| candidateId := candidateId; baseUrl := strip_trailing_slash baseUrl |}.

(** What [res.json()] makes of a body, as far as [getGoal] looks: it
    throws, or [data?.goal] is not an array, or it is one. *)
Inductive payload : Type :=
| NotJson (message : string)
| NoGoalArray
| Goal (goal : list (list string)).

Record Response : Type := {
  status : nat;
  statusText : string;
  text : option string;       (* [None]: reading the body as text fails *)
  json : payload
}.

(** [res.ok]: the status is in the range 200-299. *)
Definition ok (res : Response) : bool :=
  (200 <=? status res)%nat && (status res <=? 299)%nat.

(** How a [fetch] ends: it rejects (no response at all), or responds. *)
Inductive fetched : Type :=
| Failed (message : string)
| Responded (res : Response).

Definition safeText (res : Response) : string :=
  match text res with
  | Some body => body
  | None => "<no-body>"
  end.

(** [post] and [del], given how their one [fetch] ends.  A rejected
    [fetch] goes through as it is, with no [status] on it. *)
Definition send (method path : string) (f : fetched) : Retry.settled unit :=
  match f with
  | Failed message =>
      Retry.Rejected {| Retry.status := JS.Undefined; Retry.message := message |}
  | Responded res =>
      if negb (ok res)
      then Retry.Rejected
             {| Retry.status := JS.Number (JS.of_nat (status res));
                Retry.message :=
                  method ++ " " ++ path ++ " failed: " ++ JS.show (status res) ++ " "
                  ++ statusText res ++ " → " ++ safeText res |}
      else Retry.Fulfilled tt
  end.

Definition post (path : string) (f : fetched) : Retry.settled unit := send "POST" path f.
Definition del (path : string) (f : fetched) : Retry.settled unit := send "DELETE" path f.

(** The request URL of [post] and [del]. *)
Definition url (client : CrossmintClient) (path : string) : string :=
  baseUrl client ++ path.

Definition goal_url (client : CrossmintClient) : string :=
  baseUrl client ++ "/map/" ++ candidateId client ++ "/goal".

Definition getGoal (f : fetched) : Retry.settled (list (list string)) :=
  match f with
  | Failed message =>
      Retry.Rejected {| Retry.status := JS.Undefined; Retry.message := message |}
  | Responded res =>
      if negb (ok res)
      then Retry.Rejected
             {| Retry.status := JS.Undefined;
                Retry.message :=
                  "GET /map/{id}/goal failed: " ++ JS.show (status res) ++ " "
                  ++ statusText res |}
      else
        match json res with
        | NotJson message =>
            Retry.Rejected {| Retry.status := JS.Undefined; Retry.message := message |}
        | NoGoalArray =>
            Retry.Rejected {| Retry.status := JS.Undefined;
                              Retry.message := "Goal payload malformed: missing goal[]" |}
        | Goal goal => Retry.Fulfilled goal
        end
  end.

(** The path an action's call posts to. *)
Definition path_of (c : Phase2.call) : string :=
  match c with
  | Phase2.createPolyanet _ => "/polyanets"
  | Phase2.createSoloon _ _ => "/soloons"
  | Phase2.createCometh _ _ => "/comeths"
  end.

(** An action's [run], given how its [fetch] ends. *)
Definition perform (c : Phase2.call) (f : fetched) : Retry.settled unit :=
  post (path_of c) f.

(** The options [main] gives [withRetry] for the goal map and for each
    action. *)
Definition goal_retry : Retry.options :=
  {| Retry.retries := Some (JS.of_nat 4); Retry.baseMs := Some (JS.of_Z 800);
     Retry.onRetry := true |}.

Definition action_retry : Retry.options :=
  {| Retry.retries := Some (JS.of_nat 6); Retry.baseMs := Some (JS.of_Z 900);
     Retry.onRetry := true |}.

End Client.

(** ** The batch runner in [main]

    [await Promise.all(actions.map((a) => limiter.run(() =>
       withRetry(a.run, ...).then(() => { ok++ }).catch((err) => { fail++ }))))],
    the same in both scripts ([points.map] in phase 1). *)

Module Runner.

(** The limiter in its event loop, the two counters, and the calls whose
    [then] or [catch] callback has run while their [run] has yet to go
    through its [finally]; (ghost) every call tallied so far. *)
Record state : Type := {
  world : Limiter.world;
  ok : Z;
  fail : Z;
  counted : list Limiter.invocation;
  tallied : list Limiter.invocation
}.

Definition start (l : Limiter.Limiter) : state :=
  {| world := Limiter.boot l; ok := 0; fail := 0; counted := []; tallied := [] |}.

Definition with_world (s : state) (w : Limiter.world) : state :=
  {| world := w; ok := ok s; fail := fail s; counted := counted s; tallied := tallied s |}.

Inductive event : Type :=
| Submit (i : Limiter.invocation)   (* [limiter.run] is called for action [i] *)
| Resume                            (* the oldest woken waiter resumes *)
| Tally (i : Limiter.invocation)    (* [withRetry] of action [i] settles: a callback runs *)
| Leave (i : Limiter.invocation).   (* the task's promise has resolved: [finally] runs *)
Arguments Submit i%_nat.
Arguments Tally i%_nat.
Arguments Leave i%_nat.

Section step.
(** How the [withRetry] call of each action settles. *)
Variable outcome : Limiter.invocation -> Retry.settled unit.

Definition tally (i : Limiter.invocation) (s : state) : state :=
  match outcome i with
  | Retry.Fulfilled _ =>
      {| world := world s; ok := ok s + 1; fail := fail s;
         counted := i :: counted s; tallied := i :: tallied s |}
  | Retry.Rejected _ =>
      {| world := world s; ok := ok s; fail := fail s + 1;
         counted := i :: counted s; tallied := i :: tallied s |}
  end.

Definition step (s : state) (e : event) : option state :=
  match e with
  | Submit i => with_world s <$> Limiter.step (world s) (Limiter.Call i)
  | Resume => with_world s <$> Limiter.step (world s) Limiter.Resume
  | Tally i =>
      if decide (i ∈ Limiter.running (world s) /\ i ∉ counted s)
      then Some (tally i s)
      else None
  | Leave i =>
      if decide (i ∈ counted s)
      then w ← Limiter.step (world s) (Limiter.Settle i);
           Some {| world := w; ok := ok s; fail := fail s;
                   counted := Limiter.remove_one i (counted s);
                   tallied := tallied s |}
      else None
  end.

Fixpoint exec (s : state) (evs : list event) : option state :=
  match evs with
  | [] => Some s
  | e :: rest => s' ← step s e; exec s' rest
  end.

End step.

Definition is_submit (e : event) : bool :=
  match e with
  | Submit _ => true
  | _ => false
  end.

(** [Promise.all] has resolved: every call has left the limiter. *)
Definition all_settled (s : state) : Prop :=
  Limiter.running (world s) = []
  /\ Limiter.woken (world s) = []
  /\ Limiter.queue (Limiter.limiter (world s)) = [].

End Runner.

(** ** The start of [main], up to the batch

    What either script does before it sends the first [create] request:
    the environment is read, the client and the shapes are built, the work
    is planned, and a dry run returns.  [src/phase1/polyanets.ts] builds
    its [Limiter] before it looks at [dryRun]; the phase-2 script after. *)

Module Main.

Record env : Type := {
  CANDIDATE_ID : option string;
  BASE_URL : option string;
  CONCURRENCY : option string;
  DRY_RUN : option string
}.

(** [/^true$/i.test(process.env.DRY_RUN || 'false')] *)
Definition dryRun (e : env) : bool :=
  String.eqb (JS.toLowerCase (Client.env_or (DRY_RUN e) "false")) "true".

(** How the start ends: [main] rejects, with an exception thrown on the
    way or with the failure [withRetry] gave up on; or it returns from the
    dry run; or it goes on to the batch with its limiter. *)
Inductive outcome (W : Type) : Type :=
| Threw (e : JS.exn)
| Failed (err : Retry.failure)
| DryRun (work : W)
| Launch (limiter : Limiter.Limiter) (work : W).
Arguments Threw {W} e.
Arguments Failed {W} err.
Arguments DryRun {W} work.
Arguments Launch {W} limiter work.

(** [main] of [src/phase1/polyanets.ts]; [fuel] bounds the loop of
    [shape.points]. *)
Definition phase1 (fuel : nat) (e : env) : option (outcome (list Polyanets.Point)) :=
  match Client.new (Client.env_or (CANDIDATE_ID e) "") None (BASE_URL e) with
  | Err x => Some (Threw x)
  | Ok client =>
      match Polyanets.new_Grid Polyanets.GRID_SIZE with
      | Err x => Some (Threw x)
      | Ok grid =>
          match Polyanets.new_XShape Polyanets.X_SIZE Polyanets.CENTER with
          | Err x => Some (Threw x)
          | Ok shape =>
              match Polyanets.points fuel shape grid with
              | None => None
              | Some points =>
                  match Limiter.new (Config.concurrency (CONCURRENCY e) "6") with
                  | Err x => Some (Threw x)
                  | Ok limiter =>
                      Some (if dryRun e then DryRun points else Launch limiter points)
                  end
              end
          end
      end
  end.

(** [main] of the phase-2 script; [goal] is how
    [await withRetry(() => client.getGoal(), ...)] settles. *)
Definition phase2 (e : env) (goal : Retry.settled (list (list string)))
    : outcome (list Phase2.Action) :=
  match Client.new (Client.env_or (CANDIDATE_ID e) "") None (BASE_URL e) with
  | Err x => Threw x
  | Ok client =>
      match goal with
      | Retry.Rejected err => Failed err
      | Retry.Fulfilled goal =>
          match Phase2.plan goal with
          | (_, Err x) => Threw x
          | (s, Ok grid) =>
              if dryRun e then DryRun (Phase2.actions s)
              else
                match Limiter.new (Config.concurrency (CONCURRENCY e) "8") with
                | Err x => Threw x
                | Ok limiter => Launch limiter (Phase2.actions s)
                end
          end
      end
  end.

End Main.

(** * Specification vocabulary

    What the specification says, in its own terms, for the properties
    below to compare the code with. *)

Local Open Scope list_scope.

Section PlanVocabulary.
Import Phase2.

(** The spec's "positive integer": a finite number equal to some [z > 0]. *)
Definition positive_integer (n : JS.number) : Prop :=
  exists (q : Q) (z : Z), n = JS.Fin q /\ q == inject_Z z /\ (0 < z)%Z.

(** The token grammar, as the specification lists it. *)
Definition grammar : list (string * Cell) :=
  [ ("SPACE", CellSpace);
    ("POLYANET", CellPolyanet);
    ("BLUE_SOLOON", CellSoloon "blue");
    ("RED_SOLOON", CellSoloon "red");
    ("PURPLE_SOLOON", CellSoloon "purple");
    ("WHITE_SOLOON", CellSoloon "white");
    ("UP_COMETH", CellCometh "up");
    ("DOWN_COMETH", CellCometh "down");
    ("LEFT_COMETH", CellCometh "left");
    ("RIGHT_COMETH", CellCometh "right") ].

Definition tokens : list string := grammar.*1.

(** The planner's loops only ever append to the [actions] array. *)
Definition emit (acts : list Action) (s : plan_state) : plan_state :=
  {| actions := actions s ++ acts; skipped := skipped s |}.

(** The cells of a matrix with their positions, row by row. *)
Fixpoint row_from (r c : nat) (row : list string) : list (nat * nat * string) :=
  match row with
  | [] => []
  | tok :: rest => (r, c, tok) :: row_from r (S c) rest
  end.

Fixpoint rows_from (r : nat) (m : list (list string)) : list (nat * nat * string) :=
  match m with
  | [] => []
  | row :: rest => row_from r 0 row ++ rows_from (S r) rest
  end.

Definition row_major (goal : list (list string)) : list (nat * nat * string) :=
  rows_from 0 goal.

Fixpoint grammar_cell (g : list (string * Cell)) (tok : string) : option Cell :=
  match g with
  | [] => None
  | (t, cell) :: rest => if String.eqb t tok then Some cell else grammar_cell rest tok
  end.

(** The action the specification asks for at one position: none for an
    empty cell, otherwise the matching creation call at that point, under
    the label ["<TOKEN> @ (row,column)"]. *)
Definition expected_action (at_ : nat * nat * string) : option Action :=
  let '(r, c, tok) := at_ in
  let p := {| row := JS.of_nat r; column := JS.of_nat c |} in
  let label := (tok ++ " @ (" ++ JS.show r ++ "," ++ JS.show c ++ ")")%string in
  match grammar_cell grammar tok with
  | Some CellPolyanet =>
      Some {| action_kind := create; run := createPolyanet p; describe := label |}
  | Some (CellSoloon color) =>
      Some {| action_kind := create; run := createSoloon p color; describe := label |}
  | Some (CellCometh direction) =>
      Some {| action_kind := create; run := createCometh p direction; describe := label |}
  | Some CellSpace | None => None
  end.

(** A goal the planner is meant for: at least one row, rows of one
    positive length, tokens of the grammar. *)
Definition well_formed (goal : list (list string)) : Prop :=
  (0 < length goal)%nat
  /\ (0 < first_row_length goal)%nat
  /\ Forall (fun row => length row = first_row_length goal /\ Forall (.∈ tokens) row) goal.

End PlanVocabulary.

Section RetryVocabulary.
Import Retry.

(** The specification's reading of "status >= z". *)
Definition at_least (n : JS.number) (z : Z) : Prop :=
  match n with
  | JS.Fin q => (inject_Z z <= q)%Q
  | JS.PosInf => True
  | JS.NaN | JS.NegInf => False
  end.

(** The specification's classification of a failure by its status. *)
Definition transient_failure (status : JS.value) : Prop :=
  status = JS.Undefined
  \/ (exists q, status = JS.Number (JS.Fin q) /\ (q == 429)%Q)
  \/ (exists n, status = JS.Number n /\ at_least n 500).

(** [opts] with the defaults of a script written in. *)
Definition with_defaults (retries0 baseMs0 : JS.number) (opts : option options) : option options :=
  Some {| retries := Some (default retries0 (opts ≫= retries));
          baseMs := Some (default baseMs0 (opts ≫= baseMs));
          onRetry := has_hook opts |}.

End RetryVocabulary.

Section LimiterVocabulary.
Import Limiter.

(** [active] counts the calls that are running their task. *)
Definition counts_running (w : world) : Prop :=
  active (limiter w) = Z.of_nat (length (running w)).

(** Waiters leave the queue, and resume, in the order they entered it. *)
Definition fifo (w : world) : Prop :=
  wakeup_order w ++ woken w ++ queue (limiter w) = enqueue_order w.

(** With an integer [max = m], while no call races a wake-up: the running
    calls and the woken ones together fill at most [m] slots, and somebody
    waits in the queue only when all [m] are taken. *)
Definition slots_respected (m : Z) (w : world) : Prop :=
  active (limiter w) + Z.of_nat (length (woken w)) <= m
  /\ (active (limiter w) + Z.of_nat (length (woken w)) < m -> queue (limiter w) = []).

(** The invariant as the specification words it. *)
Definition specified_invariant (m : Z) (w : world) : Prop :=
  0 <= active (limiter w) <= m
  /\ (active (limiter w) < m -> queue (limiter w) = []).

(** A batch: every call is made before anything else happens, as [main]
    does with [actions.map] (phase 2) and [points.map] (phase 1). *)
Definition batch (ts : list invocation) (rest : list event) : list event :=
  (Call <$> ts) ++ rest.

Definition no_calls (evs : list event) : Prop :=
  Forall (fun e => is_call e = false) evs.

(** The specification's reading of "max < 1". *)
Definition below_one (n : JS.number) : Prop :=
  match n with
  | JS.Fin q => (q < 1)%Q
  | JS.NegInf => True
  | JS.NaN | JS.PosInf => False
  end.

End LimiterVocabulary.

Section BackoffVocabulary.
Import Retry.
Context {arith : JS.Arith}.

(** The delay before retry number [j + 1]: the [j]-th draw, scaled by
    [baseMs] and by two to the [j], rounded. *)
Definition backoff_delay (Math_random : nat -> JS.number) (baseMs : JS.number) (j : nat)
    : JS.number :=
  JS.Math_round
    (JS.multiply (JS.multiply (Math_random j) baseMs)
                 (JS.exponentiate (JS.of_Z 2) (JS.of_nat j))).

(** The trace of a call that has retried [n] times and is about to invoke
    the operation again, when failure [j] was [errs j]. *)
Definition after_retries (hook : bool) (errs : nat -> failure)
    (Math_random : nat -> JS.number) (baseMs : JS.number) (n : nat) : trace :=
  {| invocations := n;
     draws := n;
     onRetry_calls := if hook then (fun j => (errs j, S j)) <$> seq 0 n else [];
     sleeps := backoff_delay Math_random baseMs <$> seq 0 n |}.

End BackoffVocabulary.

Section LimiterProgressVocabulary.
Import Limiter.

(** Somebody waits in the queue only while a task runs or a waiter has been
    woken: there is always a step that will serve the queue. *)
Definition served (w : world) : Prop :=
  JS.lt (max (limiter w)) (JS.of_Z 1) = false
  /\ counts_running w
  /\ (queue (limiter w) <> [] -> running w <> [] \/ woken w <> []).

(** What is left to do before the limiter is idle; every step without a
    call lowers it. *)
Definition backlog (w : world) : nat :=
  3 * length (queue (limiter w)) + 2 * length (woken w) + length (running w).

End LimiterProgressVocabulary.

Section PlanErrorVocabulary.
Import Phase2.

(** A goal with at least one row and rows of one positive length, whatever
    the tokens. *)
Definition rectangular (goal : list (list string)) : Prop :=
  (0 < length goal)%nat
  /\ (0 < first_row_length goal)%nat
  /\ Forall (fun row => length row = first_row_length goal) goal.

(** What one positioned token does to the plan: a token of the grammar
    adds its action, if it has one; any other token ends the planning. *)
Definition token_step (at_ : nat * nat * string) : Plan unit :=
  fun s =>
    if decide (at_.2 ∈ tokens)
    then (emit (option_list (expected_action at_)) s, Ok tt)
    else (s, Err (Error ("Unknown token: " ++ at_.2)%string)).

Fixpoint run_tokens (cells : list (nat * nat * string)) : Plan unit :=
  match cells with
  | [] => ret tt
  | at_ :: rest => bind (token_step at_) (fun _ => run_tokens rest)
  end.

End PlanErrorVocabulary.

Section CrossVocabulary.
Import Polyanets.

(** A number that stands for the integer [z]. *)
Definition has_value (a : JS.number) (z : Z) : Prop :=
  exists x : Q, a = JS.Fin x /\ x == inject_Z z.

(** A point that stands for the cell [(r, c)]. *)
Definition at_cell (p : Point) (cell : Z * Z) : Prop :=
  has_value (row p) cell.1 /\ has_value (column p) cell.2.

(** An integer of the range in which every integer is a double, and sums
    are exact. *)
Definition safe_integer (z : Z) : Prop := - 2 ^ 53 <= z <= 2 ^ 53.

(** A number that is no integer, and to which integers up to [h] either way
    can be added without rounding to one: NaN, an infinity, or an odd
    multiple [M] of [2^-k] with [|M| + h * 2^k] within 53 bits (5.5 is
    [11 * 2^-1]). *)
Definition off_lattice (h : Z) (a : JS.number) : Prop :=
  a = JS.NaN \/ a = JS.PosInf \/ a = JS.NegInf
  \/ exists (x : Q) (M k : Z),
       a = JS.Fin x /\ 1 <= k <= 1022 /\ Z.odd M = true
       /\ x == inject_Z M * pow2 (- k)
       /\ Z.abs M + h * 2 ^ k <= 2 ^ 53.

Definition in_grid (sz : Z) (cell : Z * Z) : bool :=
  (0 <=? cell.1)%Z && (cell.1 <? sz)%Z && (0 <=? cell.2)%Z && (cell.2 <? sz)%Z.

(** [k] consecutive integers from [z] on. *)
Fixpoint zrange (z : Z) (k : nat) : list Z :=
  match k with
  | O => []
  | S k' => z :: zrange (z + 1) k'
  end.

(** The cells of the two diagonals at offset [d] from the centre; at the
    centre itself the diagonals meet. *)
Definition diagonal_cells (cr cc d : Z) : list (Z * Z) :=
  if decide (d = 0) then [(cr, cc)] else [(cr + d, cc + d); (cr + d, cc - d)].

(** The X of box size [n] around [(cr, cc)], cut to a grid of size [sz]:
    row by row, the cell of the falling diagonal before that of the rising
    one. *)
Definition cross_cells (sz n cr cc : Z) : list (Z * Z) :=
  List.filter (in_grid sz)
    (List.flat_map (diagonal_cells cr cc) (zrange (- (n / 2)) (Z.to_nat n))).

(** The two points the loop body builds at offset [d], as cells. *)
Definition pair_cells (cr cc d : Z) : list (Z * Z) :=
  [(cr + d, cc + d); (cr + d, cc - d)].

(** The key the script gives a cell of non-negative coordinates. *)
Definition key_of (cell : Z * Z) : string :=
  (JS.show (Z.to_nat cell.1) ++ "," ++ JS.show (Z.to_nat cell.2))%string.

(** The first occurrence of each cell that is not in [seen]. *)
Fixpoint first_seen (seen : list (Z * Z)) (cells : list (Z * Z)) : list (Z * Z) :=
  match cells with
  | [] => []
  | cell :: rest =>
      if decide (cell ∈ seen) then first_seen seen rest
      else cell :: first_seen (cell :: seen) rest
  end.

End CrossVocabulary.

Section KeyVocabulary.

(** A string with no comma in it. *)
Fixpoint comma_free (s : string) : Prop :=
  match s with
  | EmptyString => True
  | String c rest => c <> ","%char /\ comma_free rest
  end.

Definition non_negative (cell : Z * Z) : Prop := (0 <= cell.1)%Z /\ (0 <= cell.2)%Z.

End KeyVocabulary.

Section ClientVocabulary.

Definition ends_with_slash (s : string) : Prop := exists b : string, s = (b ++ "/")%string.

End ClientVocabulary.

Section RunnerVocabulary.
Import Limiter.

Definition is_fulfilled {T : Type} (o : Retry.settled T) : bool :=
  match o with
  | Retry.Fulfilled _ => true
  | Retry.Rejected _ => false
  end.

(** How many of the calls [l] end well, and how many do not. *)
Definition successes (outcome : invocation -> Retry.settled unit) (l : list invocation) : Z :=
  Z.of_nat (length (List.filter (fun i => is_fulfilled (outcome i)) l)).

Definition failures (outcome : invocation -> Retry.settled unit) (l : list invocation) : Z :=
  Z.of_nat (length (List.filter (fun i => negb (is_fulfilled (outcome i))) l)).

(** What a step of the runner is to the limiter. *)
Definition limiter_event (e : Runner.event) : option event :=
  match e with
  | Runner.Submit i => Some (Call i)
  | Runner.Resume => Some Resume
  | Runner.Tally _ => None
  | Runner.Leave i => Some (Settle i)
  end.

Definition no_submits (evs : list Runner.event) : Prop :=
  Forall (fun e => Runner.is_submit e = false) evs.

(** The books of the runner: the counters count the calls tallied; the
    calls tallied are those gone through [finally] and those counted but
    still inside; the calls admitted are those gone and those running. *)
Definition accounted (outcome : invocation -> Retry.settled unit) (s : Runner.state) : Prop :=
  exists gone : list invocation,
    Runner.tallied s ≡ₚ gone ++ Runner.counted s
    /\ admission_order (Runner.world s) ≡ₚ gone ++ running (Runner.world s)
    /\ NoDup (Runner.counted s)
    /\ (forall x, x ∈ Runner.counted s -> x ∈ running (Runner.world s))
    /\ Runner.ok s = successes outcome (Runner.tallied s)
    /\ Runner.fail s = failures outcome (Runner.tallied s).

End RunnerVocabulary.

Section ConfigVocabulary.

(** Where a run of decimal digits ends: at the end of the string, or before
    a character that is no digit. *)
Definition ends_digits (tail : string) : Prop :=
  match tail with
  | EmptyString => True
  | String c _ => Config.digit c = None
  end.

End ConfigVocabulary.

(** * Properties *)

(** ** Numbers *)

Section NumberFacts.

Lemma Qle_bool_inject_Z (a b : Z) : Qle_bool (inject_Z a) (inject_Z b) = (a <=? b)%Z.
Proof. unfold Qle_bool; simpl. by rewrite !Z.mul_1_r. Qed.

Lemma le_of_Z (a b : Z) : JS.le (JS.of_Z a) (JS.of_Z b) = (a <=? b)%Z.
Proof. apply Qle_bool_inject_Z. Qed.

Lemma ge_of_Z (a b : Z) : JS.ge (JS.of_Z a) (JS.of_Z b) = (b <=? a)%Z.
Proof. apply Qle_bool_inject_Z. Qed.

Lemma lt_of_Z (a b : Z) : JS.lt (JS.of_Z a) (JS.of_Z b) = (a <? b)%Z.
Proof.
  unfold JS.lt, JS.of_Z. rewrite Qle_bool_inject_Z.
  destruct (Z.leb_spec b a), (Z.ltb_spec a b); simpl; lia || reflexivity.
Qed.

Lemma isInteger_of_Z (z : Z) : JS.isInteger (JS.of_Z z) = true.
Proof. simpl. rewrite Z.mod_1_r. reflexivity. Qed.

(** [Number.isInteger] holds of the finite values that equal an integer. *)
Lemma isInteger_spec (n : JS.number) :
  JS.isInteger n = true <-> exists (q : Q) (z : Z), n = JS.Fin q /\ q == inject_Z z.
Proof.
  split.
  - destruct n as [| | |q]; simpl; try discriminate.
    intros Hm%Z.eqb_eq. exists q, (Qnum q / Zpos (Qden q)). split; [reflexivity|].
    unfold Qeq; simpl. rewrite Z.mul_1_r.
    rewrite (Z.div_mod (Qnum q) (Zpos (Qden q))) at 1 by lia. lia.
  - intros (q & z & -> & Hq). simpl. apply Z.eqb_eq.
    unfold Qeq in Hq; simpl in Hq. rewrite Z.mul_1_r in Hq. rewrite Hq.
    apply Z.mod_mul. lia.
Qed.

End NumberFacts.

(** ** Grid and token parser *)

Section GridFacts.
Import Phase2.

Lemma positive_integer_test (n : JS.number) :
  positive_integer n <-> JS.le n (JS.of_Z 0) = false /\ JS.isInteger n = true.
Proof.
  split.
  - intros (q & z & -> & Hq & Hz). split.
    + simpl. apply not_true_is_false. intros Hle%Qle_bool_iff.
      rewrite Hq in Hle. apply Qle_bool_iff in Hle.
      rewrite Qle_bool_inject_Z in Hle. apply Z.leb_le in Hle. lia.
    + apply isInteger_spec. eauto.
  - intros [Hle (q & z & -> & Hq)%isInteger_spec].
    exists q, z. split_and!; [reflexivity|assumption|].
    simpl in Hle. destruct (Z.lt_ge_cases 0 z) as [|Hz]; [assumption|exfalso].
    apply not_true_iff_false in Hle. apply Hle, Qle_bool_iff.
    rewrite Hq. apply Qle_bool_iff. rewrite Qle_bool_inject_Z. by apply Z.leb_le.
Qed.

Lemma positive_integer_of_nat (n : nat) : positive_integer (JS.of_nat n) <-> (0 < n)%nat.
Proof.
  rewrite positive_integer_test. unfold JS.of_nat.
  rewrite le_of_Z, isInteger_of_Z. rewrite Z.leb_gt. lia.
Qed.

Lemma new_Grid_Ok (h w : JS.number) (grid : Grid) :
  new_Grid h w = Ok grid ->
  grid = {| height := h; width := w |} /\ positive_integer h /\ positive_integer w.
Proof.
  unfold new_Grid. rewrite !positive_integer_test.
  destruct (JS.le h _), (JS.le w _), (JS.isInteger h), (JS.isInteger w);
    simpl; intros [= <-]; auto.
Qed.

Lemma new_Grid_Err (h w : JS.number) (e : JS.exn) :
  new_Grid h w = Err e ->
  e = Error "Grid dimensions must be positive integers"
  /\ (~ positive_integer h \/ ~ positive_integer w).
Proof.
  unfold new_Grid. rewrite !positive_integer_test.
  destruct (JS.le h _), (JS.le w _), (JS.isInteger h), (JS.isInteger w);
    simpl; intros [= <-]; split; try reflexivity;
    ((left; intros [? ?]; discriminate) || (right; intros [? ?]; discriminate)).
Qed.

Lemma plan_bad_dimensions (goal : list (list string)) (e : JS.exn) :
  new_Grid (JS.of_nat (length goal)) (JS.of_nat (first_row_length goal)) = Err e ->
  plan goal = (plan_init, Err e).
Proof.
  intros He. unfold plan, planActions, bind, lift. rewrite He. reflexivity.
Qed.

Lemma for_each_Err (l : list nat) (body : nat -> Plan unit) (s s' : plan_state) (e : JS.exn) :
  for_each l body s = (s', Err e) ->
  exists i s0, i ∈ l /\ body i s0 = (s', Err e).
Proof.
  revert s. induction l as [|i l IH]; intros s; simpl.
  - unfold ret. intros [=].
  - unfold bind at 1. destruct (body i s) as [s1 [[]|e1]] eqn:Ei.
    + intros (j & s0 & Hj & Hb)%IH. exists j, s0. split; [by apply list_elem_of_further|done].
    + intros [= <- <-]. exists i, s. split; [by apply list_elem_of_here|done].
Qed.

(** What a cell can throw: the parser's error, or the [TypeError] of an
    [undefined] token. *)
Lemma plan_cell_Err (grid : Grid) (goal : list (list string)) (r c : nat)
    (s s' : plan_state) (e : JS.exn) :
  plan_cell grid goal r c s = (s', Err e) ->
  (exists tok, e = Error ("Unknown token: " ++ tok)%string) \/ (exists m, e = TypeError m).
Proof.
  unfold plan_cell, bind, lift.
  destruct (index2 goal r c) as [raw|].
  - unfold parseToken.
    repeat match goal with
           | |- context [if ?b then _ else _] => destruct b
           | |- context [match ?o with Some _ => _ | None => _ end] => destruct o
           | |- context [match ?cell with CellSpace => _ | _ => _ end] => destruct cell
           end;
      unfold skip, push, ret; intros [=]; subst; eauto.
  - intros [= <- <-]. eauto.
Qed.

(** C8.  Constructing a [Grid] throws exactly when the height or the width
    is not a positive integer.  The constructor runs first in
    [planActions]: a goal with no row or with an empty first row makes the
    planner throw that error with the [actions] array still empty, so no
    action, and no remote call an action would carry, exists yet. *)
Theorem Grid_construction_validates :
  (forall h w : JS.number,
      new_Grid h w = Err (Error "Grid dimensions must be positive integers")
      <-> (~ positive_integer h \/ ~ positive_integer w))
  /\ (forall h w : JS.number,
      new_Grid h w = Ok {| height := h; width := w |}
      <-> (positive_integer h /\ positive_integer w))
  /\ (forall goal : list (list string),
      (goal = [] \/ goal !! 0%nat = Some [])
      <-> plan goal = (plan_init, Err (Error "Grid dimensions must be positive integers"))).
Proof.
  split_and!.
  - intros h w. split.
    + intros He. by apply new_Grid_Err in He as [_ ?].
    + intros Hbad. destruct (new_Grid h w) as [g|e] eqn:E.
      * apply new_Grid_Ok in E as (_ & ? & ?). tauto.
      * apply new_Grid_Err in E as [-> _]. reflexivity.
  - intros h w. split.
    + intros E. by apply new_Grid_Ok in E as (_ & ? & ?).
    + intros [Hh Hw]. destruct (new_Grid h w) as [g|e] eqn:E.
      * apply new_Grid_Ok in E as (-> & _). reflexivity.
      * apply new_Grid_Err in E as [_ ?]. tauto.
  - intros goal.
    destruct (new_Grid (JS.of_nat (length goal)) (JS.of_nat (first_row_length goal)))
      as [g|e] eqn:E.
    + pose proof E as (-> & Hh%positive_integer_of_nat & Hw%positive_integer_of_nat)%new_Grid_Ok.
      split.
      * intros [-> | H0]; [simpl in Hh; lia|].
        unfold first_row_length in Hw. rewrite H0 in Hw. simpl in Hw. lia.
      * unfold plan, planActions, bind, lift. rewrite E.
        destruct (for_upto _ _ _) as [s [[]|e]] eqn:Eloop; [intros [=]|].
        intros [= -> ->]. exfalso.
        apply for_each_Err in Eloop as (r & s0 & _ & Erow).
        apply for_each_Err in Erow as (c & s1 & _ & Ecell).
        apply plan_cell_Err in Ecell as [[tok [=]]|[m [=]]].
    + pose proof E as [-> Hbad]%new_Grid_Err.
      rewrite !positive_integer_of_nat in Hbad. split.
      * intros _. by apply plan_bad_dimensions.
      * intros _. destruct goal as [|[|tok row] goal]; auto.
        unfold first_row_length in Hbad. simpl in Hbad. lia.
Qed.

End GridFacts.

Section ParserFacts.
Import Phase2.

Lemma strip_prefix_Some (p s rest : string) :
  strip_prefix p s = Some rest -> s = (p ++ rest)%string.
Proof.
  revert s. induction p as [|a p IH]; intros s; simpl.
  - intros [= ->]. reflexivity.
  - destruct s as [|b s]; [discriminate|].
    destruct (Ascii.eqb_spec a b) as [->|]; [|discriminate].
    intros ->%IH. reflexivity.
Qed.

Lemma match_alternatives_Some (alts : list string) (suffix token a : string) :
  match_alternatives alts suffix token = Some a ->
  a ∈ alts /\ token = (a ++ suffix)%string.
Proof.
  induction alts as [|x alts IH]; simpl; [discriminate|].
  destruct (strip_prefix x token) as [rest|] eqn:E.
  - destruct (String.eqb_spec rest suffix) as [->|].
    + intros [= <-]. split; [apply list_elem_of_here|by apply strip_prefix_Some].
    + intros [? ?]%IH. split; [by apply list_elem_of_further|done].
  - intros [? ?]%IH. split; [by apply list_elem_of_further|done].
Qed.

Lemma parseToken_in_grammar (tok : string) (cell : Cell) :
  (tok, cell) ∈ grammar -> parseToken tok = Ok cell.
Proof.
  intros H. unfold grammar in H.
  repeat (apply elem_of_cons in H as [[= -> ->]|H]; [reflexivity|]).
  by apply elem_of_nil in H.
Qed.

Lemma parseToken_outside_grammar (tok : string) :
  tok ∉ tokens -> parseToken tok = Err (Error ("Unknown token: " ++ tok)%string).
Proof.
  intros H. unfold parseToken.
  destruct (String.eqb_spec tok "SPACE") as [->|_];
    [exfalso; apply H; repeat constructor|].
  destruct (String.eqb_spec tok "POLYANET") as [->|_];
    [exfalso; apply H; repeat constructor|].
  destruct (match_alternatives _ "_SOLOON" tok) as [a|] eqn:Es.
  { exfalso. apply match_alternatives_Some in Es as [Ha ->]. apply H.
    repeat (apply elem_of_cons in Ha as [->|Ha]; [repeat constructor|]).
    by apply elem_of_nil in Ha. }
  destruct (match_alternatives _ "_COMETH" tok) as [a|] eqn:Ec; [|reflexivity].
  exfalso. apply match_alternatives_Some in Ec as [Ha ->]. apply H.
  repeat (apply elem_of_cons in Ha as [->|Ha]; [repeat constructor|]).
  by apply elem_of_nil in Ha.
Qed.

(** C6.  [parseToken] maps each token of the grammar to its cell (the
    color and the direction in lower case), and throws the unknown-token
    error on every other string, ["GREEN_SOLOON"] among them. *)
Theorem parseToken_total_on_grammar :
  (forall tok cell, (tok, cell) ∈ grammar -> parseToken tok = Ok cell)
  /\ (forall tok, tok ∉ tokens -> parseToken tok = Err (Error ("Unknown token: " ++ tok)%string))
  /\ parseToken "GREEN_SOLOON" = Err (Error "Unknown token: GREEN_SOLOON").
Proof.
  split_and!.
  - apply parseToken_in_grammar.
  - apply parseToken_outside_grammar.
  - reflexivity.
Qed.

End ParserFacts.

(** ** Plan builder *)

Section PlannerFacts.
Import Phase2.

Lemma emit_nil (s : plan_state) : emit [] s = s.
Proof. destruct s. unfold emit; simpl. by rewrite app_nil_r. Qed.

Lemma emit_emit (a b : list Action) (s : plan_state) : emit b (emit a s) = emit (a ++ b) s.
Proof. unfold emit; simpl. by rewrite app_assoc. Qed.

Lemma inBounds_loop (h w r c : nat) :
  (r < h)%nat -> (c < w)%nat ->
  inBounds {| height := JS.of_nat h; width := JS.of_nat w |}
           {| row := JS.of_nat r; column := JS.of_nat c |} = true.
Proof.
  intros Hr Hc. unfold inBounds, JS.of_nat; simpl row; simpl column; simpl height; simpl width.
  rewrite !ge_of_Z, !lt_of_Z.
  repeat (apply andb_true_intro; split); (apply Z.leb_le || apply Z.ltb_lt); lia.
Qed.

Lemma for_each_preserves (P : plan_state -> Prop) (l : list nat) (body : nat -> Plan unit) :
  (forall i s, i ∈ l -> P s -> P (body i s).1) ->
  forall s, P s -> P (for_each l body s).1.
Proof.
  induction l as [|i l IH]; intros Hbody s Hs; simpl; [assumption|].
  unfold bind at 1.
  pose proof (Hbody i s (list_elem_of_here _ _) Hs) as Hi.
  destruct (body i s) as [s1 [[]|e]]; simpl in *; [|assumption].
  apply IH; [|assumption].
  intros j s0 Hj. apply Hbody. by apply list_elem_of_further.
Qed.

Lemma plan_cell_never_skips (h w r c : nat) (goal : list (list string)) (s : plan_state) :
  (r < h)%nat -> (c < w)%nat ->
  skipped s = [] ->
  skipped (plan_cell {| height := JS.of_nat h; width := JS.of_nat w |} goal r c s).1 = [].
Proof.
  intros Hr Hc Hs. unfold plan_cell, bind, lift.
  destruct (match index2 goal r c with Some raw => parseToken raw | None => _ end)
    as [cell|e]; [|assumption].
  rewrite inBounds_loop by assumption. simpl negb. cbv iota.
  destruct cell; assumption.
Qed.

(** C7.  Once the [Grid] is constructed, every point the two loops build
    is in bounds, and the guard's [continue] is never taken: no cell is
    skipped, whether the planner goes on to return or to throw. *)
Theorem bounds_guard_never_fires (goal : list (list string)) (grid : Grid) :
  new_Grid (JS.of_nat (length goal)) (JS.of_nat (first_row_length goal)) = Ok grid ->
  (forall r c : nat,
      (r < length goal)%nat -> (c < first_row_length goal)%nat ->
      inBounds grid {| row := JS.of_nat r; column := JS.of_nat c |} = true)
  /\ skipped (plan goal).1 = [].
Proof.
  intros E. pose proof E as (-> & _)%new_Grid_Ok. split.
  - intros r c. apply inBounds_loop.
  - unfold plan, planActions, bind, lift. rewrite E.
    set (loops := for_upto _ _).
    assert (skipped (loops plan_init).1 = []) as Hloops.
    { apply (for_each_preserves (fun s => skipped s = [])); [|reflexivity].
      intros r s Hr%elem_of_seq Hs.
      apply (for_each_preserves (fun s => skipped s = [])); [|assumption].
      intros c s' Hc%elem_of_seq Hs'.
      apply plan_cell_never_skips; [lia|lia|assumption]. }
    destruct (loops plan_init) as [s [[]|e]]; assumption.
Qed.

Lemma bounds_guard_never_fires_witness :
  let goal := [["POLYANET"; "SPACE"]; ["BLUE_SOLOON"; "RIGHT_COMETH"]] in
  let grid := {| height := JS.of_nat 2; width := JS.of_nat 2 |} in
  new_Grid (JS.of_nat (length goal)) (JS.of_nat (first_row_length goal)) = Ok grid
  /\ (forall r c : nat,
        (r < length goal)%nat -> (c < first_row_length goal)%nat ->
        inBounds grid {| row := JS.of_nat r; column := JS.of_nat c |} = true)
  /\ skipped (plan goal).1 = [].
Proof.
  split; [reflexivity|].
  apply (bounds_guard_never_fires
           [["POLYANET"; "SPACE"]; ["BLUE_SOLOON"; "RIGHT_COMETH"]]
           {| height := JS.of_nat 2; width := JS.of_nat 2 |}).
  reflexivity.
Defined.

(** *** Row-major order *)

Lemma new_Grid_positive (h w : JS.number) :
  positive_integer h -> positive_integer w ->
  new_Grid h w = Ok {| height := h; width := w |}.
Proof.
  intros Hh Hw. destruct (new_Grid h w) as [g|e] eqn:E.
  - apply new_Grid_Ok in E as (-> & _). reflexivity.
  - apply new_Grid_Err in E as [_ ?]. tauto.
Qed.

Lemma plan_cell_in_grammar (h w r c : nat) (goal : list (list string))
    (tok : string) (s : plan_state) :
  (r < h)%nat -> (c < w)%nat ->
  index2 goal r c = Some tok ->
  tok ∈ tokens ->
  plan_cell {| height := JS.of_nat h; width := JS.of_nat w |} goal r c s
  = (emit (option_list (expected_action (r, c, tok))) s, Ok tt).
Proof.
  intros Hr Hc Hidx Htok. unfold plan_cell, bind, lift. rewrite Hidx.
  apply list_elem_of_fmap in Htok as ([tok' cell] & -> & Hin). simpl fst.
  rewrite (parseToken_in_grammar _ _ Hin).
  rewrite inBounds_loop by assumption. simpl negb. cbv iota.
  unfold grammar in Hin.
  repeat (apply elem_of_cons in Hin as [[= -> ->]|Hin];
          [first [ by rewrite <- (emit_nil s) at 1 | reflexivity ]|]).
  by apply elem_of_nil in Hin.
Qed.

Lemma omap_cons_option_list {A B} (f : A -> option B) (x : A) (l : list A) :
  omap f (x :: l) = option_list (f x) ++ omap f l.
Proof. simpl. by destruct (f x). Qed.

Lemma plan_row (h w r : nat) (goal : list (list string)) (row : list string) :
  (r < h)%nat ->
  goal !! r = Some row ->
  length row = w ->
  forall (suf pre : list string) (s : plan_state),
    row = pre ++ suf ->
    Forall (.∈ tokens) suf ->
    for_each (seq (length pre) (length suf))
             (plan_cell {| height := JS.of_nat h; width := JS.of_nat w |} goal r) s
    = (emit (omap expected_action (row_from r (length pre) suf)) s, Ok tt).
Proof.
  intros Hr Hrow Hlen. induction suf as [|tok suf IH]; intros pre s Hsplit Htoks.
  - simpl. by rewrite emit_nil.
  - apply Forall_cons in Htoks as [Htok Htoks].
    cbn [length seq for_each row_from]. unfold bind at 1.
    rewrite (plan_cell_in_grammar h w r (length pre) goal tok s); try assumption.
    + specialize (IH (pre ++ [tok])). rewrite length_app, Nat.add_1_r in IH.
      rewrite IH; [|by rewrite <- app_assoc|assumption].
      by rewrite emit_emit, omap_cons_option_list.
    + subst w row. rewrite length_app. simpl. lia.
    + unfold index2. rewrite Hrow. simpl. subst row. by apply list_lookup_middle.
Qed.

Lemma plan_rows (h w : nat) (goal : list (list string)) :
  length goal = h ->
  forall (suf pre : list (list string)) (s : plan_state),
    goal = pre ++ suf ->
    Forall (fun row => length row = w /\ Forall (.∈ tokens) row) suf ->
    for_each (seq (length pre) (length suf))
             (fun r => for_upto w
                (plan_cell {| height := JS.of_nat h; width := JS.of_nat w |} goal r)) s
    = (emit (omap expected_action (rows_from (length pre) suf)) s, Ok tt).
Proof.
  intros Hlen. induction suf as [|row suf IH]; intros pre s Hsplit Hrows.
  - simpl. by rewrite emit_nil.
  - apply Forall_cons in Hrows as [[Hw Htoks] Hrows].
    cbn [length seq for_each rows_from]. unfold bind at 1. unfold for_upto at 1.
    rewrite <- Hw at 1.
    rewrite (plan_row h w (length pre) goal row) with (pre := []);
      [ |subst h goal; rewrite length_app; simpl; lia
        |subst goal; by apply list_lookup_middle
        |assumption|reflexivity|assumption].
    specialize (IH (pre ++ [row])). rewrite length_app, Nat.add_1_r in IH.
    rewrite IH; [|by rewrite <- app_assoc|assumption].
    by rewrite emit_emit, omap_app.
Qed.

(** C5.  On the 2x2 goal of the specification the planner builds three
    actions with the labels listed there, in that order; and on every
    well-formed goal it builds, in row-major order, one action for each
    cell that is not [SPACE] and none for a [SPACE]. *)
Theorem planActions_row_major :
  describe <$> actions (plan [["POLYANET"; "SPACE"]; ["BLUE_SOLOON"; "RIGHT_COMETH"]]).1
  = ["POLYANET @ (0,0)"; "BLUE_SOLOON @ (1,0)"; "RIGHT_COMETH @ (1,1)"]
  /\ forall goal : list (list string),
      well_formed goal ->
      plan goal
      = ({| actions := omap expected_action (row_major goal); skipped := [] |},
         Ok {| height := JS.of_nat (length goal);
               width := JS.of_nat (first_row_length goal) |}).
Proof.
  split; [reflexivity|].
  intros goal (Hh & Hw & Hrows).
  unfold plan, planActions, bind, lift.
  rewrite new_Grid_positive by by apply positive_integer_of_nat.
  unfold for_upto at 1.
  pose proof (plan_rows (length goal) (first_row_length goal) goal eq_refl
                goal [] plan_init eq_refl Hrows) as Hloops.
  cbn [length] in Hloops.
  match type of Hloops with
  | ?lhs = _ =>
      match goal with
      | |- context [for_each ?l ?b plan_init] => change (for_each l b plan_init) with lhs
      end
  end.
  rewrite Hloops. reflexivity.
Qed.

End PlannerFacts.

(** ** Backoff-retry executor *)

Section RetryFacts.
Import Retry.
Context {A : JS.Arith} {T : Type}.

Lemma ge_of_Z_at_least (n : JS.number) (z : Z) :
  JS.ge n (JS.of_Z z) = true <-> at_least n z.
Proof.
  destruct n as [| | |q]; simpl; try (split; [discriminate|tauto]); try tauto.
  apply Qle_bool_iff.
Qed.

Lemma transient_spec (status : JS.value) :
  Phase2.transient status = true <-> transient_failure status.
Proof.
  unfold Phase2.transient, transient_failure, JS.ge_number.
  rewrite !orb_true_iff, andb_true_iff. split.
  - intros [[H429|[_ H500]]|HU].
    + destruct status as [| | |[| | |q]]; try discriminate.
      right; left. exists q. split; [reflexivity|]. by apply Qeq_bool_iff.
    + destruct status as [| | b |n]; simpl in H500; try discriminate.
      * by destruct b.
      * right; right. exists n. split; [reflexivity|]. by apply ge_of_Z_at_least.
    + destruct status; try discriminate. by left.
  - intros [->|[(q & -> & Hq)|(n & -> & Hn)]].
    + by right.
    + left; left. simpl. by apply Qeq_bool_iff.
    + left; right. split; [reflexivity|]. by apply ge_of_Z_at_least.
Qed.

(** The two scripts classify every status alike, although phase 1 tests
    the status for truthiness and phase 2 for nullishness. *)
Lemma transient_agree (status : JS.value) :
  JS.truthy (Phase1.transient status) = Phase2.transient status.
Proof.
  unfold Phase1.transient, Phase2.transient, JS.or, JS.and, JS.ge_number.
  destruct status as [| | [|] |[| | |q]]; try reflexivity.
  assert (Qeq_bool q 0 = true -> Qle_bool (inject_Z 500) q = false) as Hzero.
  { intros E0%Qeq_bool_iff. apply not_true_is_false.
    intros Hle%Qle_bool_iff. rewrite E0 in Hle.
    apply Qle_bool_iff in Hle. discriminate. }
  cbn [JS.strict_eq_number JS.strict_eq JS.of_Z JS.toNumber JS.not_nullish
       JS.is_undefined JS.ge JS.le].
  destruct (Qeq_bool q (inject_Z 429)); [reflexivity|].
  cbn [JS.truthy]. destruct (Qeq_bool q 0) eqn:E0; cbn [negb]; cbv iota; cbn [JS.truthy].
  - rewrite E0, Hzero by reflexivity. reflexivity.
  - by destruct (Qle_bool _ q).
Qed.

Variable fn : nat -> settled T.
Variable Math_random : nat -> JS.number.

(** One iteration of the loop on a failed attempt. *)
Lemma withRetry_loop_rejected (opts : option options) (fuel attempt : nat)
    (t : trace) (err : failure) :
  fn (invocations t) = Rejected err ->
  Phase2.withRetry_loop fn Math_random opts (S fuel) attempt t
  = if JS.ge (JS.of_nat attempt) (Phase2.retries opts)
       || negb (Phase2.transient (status err))
    then Some (Rejected err, invoked t)
    else Phase2.withRetry_loop fn Math_random opts fuel (S attempt)
           (retried (has_hook opts) err attempt
              (JS.Math_round
                 (JS.multiply (JS.multiply (Math_random (draws t)) (Phase2.baseMs opts))
                              (JS.exponentiate (JS.of_Z 2) (JS.of_nat attempt))))
              (invoked t)).
Proof. intros E. simpl. rewrite E. reflexivity. Qed.

(** From [attempt <= r] on, transient failures use up the budget [r]. *)
Lemma withRetry_loop_exhausts (opts : options) (r : nat) :
  retries opts = Some (JS.of_nat r) ->
  (forall k, (k <= r)%nat ->
      exists err, fn k = Rejected err /\ Phase2.transient (status err) = true) ->
  forall (fuel attempt : nat) (t : trace),
    invocations t = attempt ->
    (attempt <= r)%nat ->
    (r - attempt < fuel)%nat ->
    exists err t',
      fn r = Rejected err
      /\ Phase2.withRetry_loop fn Math_random (Some opts) fuel attempt t
         = Some (Rejected err, t')
      /\ invocations t' = S r
      /\ length (sleeps t') = (length (sleeps t) + (r - attempt))%nat
      /\ length (onRetry_calls t')
         = (length (onRetry_calls t) + if onRetry opts then r - attempt else 0)%nat.
Proof.
  intros Hr Hfn. induction fuel as [|fuel IH]; intros attempt t Hinv Hle Hfuel; [lia|].
  destruct (Hfn attempt Hle) as (err & Herr & Htr).
  rewrite (withRetry_loop_rejected _ _ _ _ err) by by rewrite Hinv.
  unfold Phase2.retries; simpl; rewrite Hr; simpl default.
  unfold JS.of_nat. rewrite ge_of_Z, Htr. simpl negb. rewrite orb_false_r.
  destruct (Z.leb_spec (Z.of_nat r) (Z.of_nat attempt)) as [Hge|Hlt].
  - assert (attempt = r) as -> by lia.
    exists err, (invoked t). split_and!; try done; simpl.
    + by rewrite Hinv.
    + lia.
    + destruct (onRetry opts); lia.
  - match goal with
    | |- context [Phase2.withRetry_loop _ _ _ fuel (S attempt) ?t1] =>
        destruct (IH (S attempt) t1) as (err' & t' & Hfr & Hloop & Hi & Hs & Hh)
    end; [simpl; by rewrite Hinv|lia|lia|].
    exists err', t'. split_and!; try done.
    + rewrite Hs. simpl. rewrite length_app. simpl. lia.
    + rewrite Hh. simpl. destruct (onRetry opts); [rewrite length_app; simpl|]; lia.
Qed.

(** A finite budget [q] is spent once [attempt] reaches its ceiling. *)
Lemma budget_left_below_ceiling (q : Q) (attempt : nat) :
  JS.ge (JS.of_nat attempt) (JS.Fin q) = false ->
  (attempt < Z.to_nat (Qceiling q))%nat.
Proof.
  simpl. intros Hge.
  assert (~ (q <= inject_Z (Z.of_nat attempt))%Q) as Hlt
    by (rewrite <- Qle_bool_iff; congruence).
  apply Qnot_le_lt in Hlt.
  pose proof (Qle_ceiling q) as Hceil.
  assert (inject_Z (Z.of_nat attempt) < inject_Z (Qceiling q))%Q as Hz
    by (eapply Qlt_le_trans; eassumption).
  rewrite <- Zlt_Qlt in Hz. lia.
Qed.

Lemma withRetry_loop_settles (opts : option options) (q : Q) :
  Phase2.retries opts = JS.Fin q ->
  forall (fuel attempt : nat) (t : trace),
    (Z.to_nat (Qceiling q) - attempt < fuel)%nat ->
    exists out t',
      Phase2.withRetry_loop fn Math_random opts fuel attempt t = Some (out, t')
      /\ (invocations t < invocations t')%nat
      /\ (invocations t' <= invocations t + S (Z.to_nat (Qceiling q) - attempt))%nat.
Proof.
  intros Hq. induction fuel as [|fuel IH]; intros attempt t Hfuel; [lia|].
  destruct (fn (invocations t)) as [v|err] eqn:E.
  - exists (Fulfilled v), (invoked t). simpl. rewrite E. split_and!; [reflexivity|lia|lia].
  - rewrite (withRetry_loop_rejected opts fuel attempt t err E). rewrite Hq.
    destruct (JS.ge (JS.of_nat attempt) (JS.Fin q)) eqn:Hge; simpl orb.
    + exists (Rejected err), (invoked t). split_and!; [reflexivity|simpl; lia|simpl; lia].
    + apply budget_left_below_ceiling in Hge.
      destruct (negb _).
      * exists (Rejected err), (invoked t). split_and!; [reflexivity|simpl; lia|simpl; lia].
      * match goal with
        | |- context [Phase2.withRetry_loop _ _ _ fuel (S attempt) ?t1] =>
            destruct (IH (S attempt) t1) as (out & t' & Hloop & Hlo & Hhi); [lia|];
            exists out, t'
        end.
        simpl in Hlo, Hhi. split_and!; [assumption|lia|lia].
Qed.

End RetryFacts.

Section RetryTheorems.
Import Retry.


(** C3.  With [retries = r], an operation whose first [r + 1] invocations
    all fail transiently is invoked exactly [r + 1] times, with [r] sleeps
    in between, and the failure of the last invocation is what
    [withRetry] throws.  With [retries = 0] the operation is invoked
    exactly once, however it settles, and nothing is retried. *)
Theorem withRetry_uses_whole_budget {A : JS.Arith} {T : Type}
    (fn : nat -> settled T) (Math_random : nat -> JS.number)
    (opts : options) (r fuel : nat) :
  retries opts = Some (JS.of_nat r) ->
  (r < fuel)%nat ->
  ((forall k, (k <= r)%nat ->
       exists err, fn k = Rejected err /\ transient_failure (status err)) ->
   exists err t,
     fn r = Rejected err
     /\ Phase2.withRetry fn Math_random (Some opts) fuel = Some (Rejected err, t)
     /\ invocations t = S r
     /\ length (sleeps t) = r
     /\ length (onRetry_calls t) = if onRetry opts then r else 0%nat)
  /\ (r = 0%nat ->
      Phase2.withRetry fn Math_random (Some opts) fuel
      = Some (fn 0%nat, {| invocations := 1; draws := 0; onRetry_calls := []; sleeps := [] |})).
Proof.
  intros Hr Hfuel. split.
  - intros Hfn.
    destruct (withRetry_loop_exhausts fn Math_random opts r Hr) with
      (fuel := fuel) (attempt := 0%nat) (t := start)
      as (err & t & Hlast & Hrun & Hi & Hs & Hh); [|reflexivity|lia|lia|].
    { intros k Hk. destruct (Hfn k Hk) as (err & ? & ?%transient_spec). eauto. }
    exists err, t. split_and!; try done.
    + rewrite Hs. simpl. lia.
    + rewrite Hh. simpl. destruct (onRetry opts); lia.
  - intros ->. destruct fuel as [|fuel]; [lia|].
    unfold Phase2.withRetry. simpl. destruct (fn 0%nat) as [v|err]; [reflexivity|].
    unfold Phase2.retries. simpl. rewrite Hr. reflexivity.
Qed.

(** An operation that answers 503 every time, run with [retries = 2]:
    three invocations. *)
Lemma withRetry_uses_whole_budget_witness :
  let fn : nat -> settled unit :=
    fun _ => Rejected {| status := JS.Number (JS.of_Z 503); message := "unavailable" |} in
  let opts := {| retries := Some (JS.of_nat 2); baseMs := Some (JS.of_Z 100); onRetry := true |} in
  exists err t,
    fn 2%nat = Rejected err
    /\ Phase2.withRetry (arith := JS.exact) fn (fun _ => JS.Fin (1 # 2)) (Some opts) 3
       = Some (Rejected err, t)
    /\ invocations t = 3%nat
    /\ length (sleeps t) = 2%nat
    /\ length (onRetry_calls t) = 2%nat.
Proof.
  intros fn opts.
  apply (proj1 (withRetry_uses_whole_budget (A := JS.exact) fn (fun _ => JS.Fin (1 # 2))
                  opts 2 3 eq_refl (le_n 3))).
  intros k _. eexists. split; [reflexivity|].
  right; right. eexists. split; [reflexivity|]. simpl. unfold Qle. simpl. lia.
Defined.

End RetryTheorems.

Section RetryClassification.
Import Retry.



Lemma withRetry_loops_agree {A : JS.Arith} {T : Type} (fn : nat -> settled T)
    (Math_random : nat -> JS.number) (opts1 opts2 : option options) :
  Phase1.retries opts1 = Phase2.retries opts2 ->
  Phase1.baseMs opts1 = Phase2.baseMs opts2 ->
  has_hook opts1 = has_hook opts2 ->
  forall (fuel attempt : nat) (t : trace),
    Phase1.withRetry_loop fn Math_random opts1 fuel attempt t
    = Phase2.withRetry_loop fn Math_random opts2 fuel attempt t.
Proof.
  intros Hr Hb Hh. induction fuel as [|fuel IH]; intros attempt t; simpl; [reflexivity|].
  destruct (fn (invocations t)) as [v|err]; [reflexivity|].
  rewrite transient_agree, Hr, Hb, Hh. unfold JS.Math_pow.
  destruct (_ || _); [reflexivity|]. apply IH.
Qed.

(** C9.  Given the same operation, the same random draws and options that
    set both [retries] and [baseMs], the two scripts' [withRetry] agree on
    everything they do: the invocations, the delays slept, the [onRetry]
    calls and the outcome (and both run out of any given bound on the
    iterations together).  With options left out they differ only by
    their defaults: phase 1 behaves as phase 2 does under [retries = 5]
    and [baseMs = 300], where phase 2 itself defaults to 6 and 250. *)
Theorem withRetry_phases_agree {A : JS.Arith} {T : Type}
    (fn : nat -> settled T) (Math_random : nat -> JS.number) :
  (forall (opts : options) (r b : JS.number) (fuel : nat),
      retries opts = Some r -> baseMs opts = Some b ->
      Phase1.withRetry fn Math_random (Some opts) fuel
      = Phase2.withRetry fn Math_random (Some opts) fuel)
  /\ (forall (opts : option options) (fuel : nat),
      Phase1.withRetry fn Math_random opts fuel
      = Phase2.withRetry fn Math_random (with_defaults (JS.of_Z 5) (JS.of_Z 300) opts) fuel)
  /\ (Phase1.retries None = JS.of_Z 5 /\ Phase1.baseMs None = JS.of_Z 300)
  /\ (Phase2.retries None = JS.of_Z 6 /\ Phase2.baseMs None = JS.of_Z 250).
Proof.
  split_and!; try reflexivity.
  - intros opts r b fuel Hr Hb. apply withRetry_loops_agree; try reflexivity.
    + unfold Phase1.retries, Phase2.retries. simpl. by rewrite Hr.
    + unfold Phase1.baseMs, Phase2.baseMs. simpl. by rewrite Hb.
  - intros opts fuel. apply withRetry_loops_agree; reflexivity.
Qed.

(** Two 500s and then a success, six retries allowed and a hook set:
    both scripts make three invocations and sleep twice. *)
Lemma withRetry_phases_agree_witness :
  let fn : nat -> settled nat :=
    fun k => if (k <? 2)%nat
             then Rejected {| status := JS.Number (JS.of_Z 500); message := "boom" |}
             else Fulfilled k in
  let opts := {| retries := Some (JS.of_Z 6); baseMs := Some (JS.of_Z 900); onRetry := true |} in
  Phase1.withRetry (arith := JS.exact) fn (fun _ => JS.Fin (1 # 2)) (Some opts) 10
  = Phase2.withRetry (arith := JS.exact) fn (fun _ => JS.Fin (1 # 2)) (Some opts) 10.
Proof.
  intros fn opts.
  apply (proj1 (withRetry_phases_agree (A := JS.exact) fn (fun _ => JS.Fin (1 # 2)))
           opts (JS.of_Z 6) (JS.of_Z 900) 10%nat eq_refl eq_refl).
Defined.

End RetryClassification.

(** ** Concurrency limiter *)

Section LimiterFacts.
Import Limiter.

Lemma new_Ok (maxv : JS.number) (l : Limiter) :
  new maxv = Ok l ->
  l = {| max := maxv; active := 0; queue := [] |} /\ JS.lt maxv (JS.of_Z 1) = false.
Proof. unfold new. destruct (JS.lt maxv _); intros [= <-]; auto. Qed.

Lemma exec_app (w : world) (evs1 evs2 : list event) :
  exec w (evs1 ++ evs2) = w' ← exec w evs1; exec w' evs2.
Proof.
  revert w. induction evs1 as [|e evs1 IH]; intros w; simpl; [reflexivity|].
  destruct (step w e) as [w1|]; simpl; [apply IH|reflexivity].
Qed.

(** What every step keeps true is true all along a run. *)
Lemma exec_invariant (P : world -> Prop) :
  (forall w e w', P w -> step w e = Some w' -> P w') ->
  forall evs w w', P w -> exec w evs = Some w' -> P w'.
Proof.
  intros Hstep. induction evs as [|e evs IH]; intros w w' Hw; simpl.
  - by intros [= <-].
  - destruct (step w e) as [w1|] eqn:E; simpl; [|discriminate]. eauto.
Qed.

Lemma length_remove_one (t : invocation) (l : list invocation) :
  t ∈ l -> S (length (remove_one t l)) = length l.
Proof.
  induction l as [|x l IH]; simpl.
  - by intros ?%elem_of_nil.
  - destruct (decide (x = t)) as [->|Hne]; [reflexivity|].
    intros [->|Hin]%elem_of_cons; [done|]. simpl. by rewrite IH.
Qed.

(** The limiter never changes its [max]. *)
Lemma step_max (w w' : world) (e : event) :
  step w e = Some w' -> max (limiter w') = max (limiter w).
Proof.
  destruct e as [t| |t]; simpl.
  - intros [= <-]. unfold run_call. by destruct (JS.ge _ _).
  - destruct (woken w); [discriminate|]. by intros [= <-].
  - destruct (decide _); [|discriminate]. intros [= <-].
    unfold run_finally. by destruct (queue _).
Qed.

Lemma exec_max (evs : list event) (w w' : world) :
  exec w evs = Some w' -> max (limiter w') = max (limiter w).
Proof.
  intros H. apply (exec_invariant (fun w0 => max (limiter w0) = max (limiter w)) )
    with (evs := evs) (w := w); [|reflexivity|assumption].
  intros w0 e w1 <- Hs. by apply step_max in Hs.
Qed.

Lemma step_counts_running (w : world) (e : event) (w' : world) :
  counts_running w -> step w e = Some w' -> counts_running w'.
Proof.
  unfold counts_running. intros Hw. destruct e as [t| |t]; simpl.
  - intros [= <-]. unfold run_call. destruct (JS.ge _ _); simpl; [assumption|].
    rewrite length_app. simpl. lia.
  - destruct (woken w); [discriminate|]. intros [= <-]. simpl.
    rewrite length_app. simpl. lia.
  - destruct (decide _) as [Hin|]; [|discriminate]. intros [= <-].
    apply length_remove_one in Hin.
    unfold run_finally. destruct (queue _); simpl; lia.
Qed.

Lemma step_fifo (w : world) (e : event) (w' : world) :
  fifo w -> step w e = Some w' -> fifo w'.
Proof.
  unfold fifo, wakeup_order, enqueue_order. intros Hw. destruct e as [t| |t]; simpl.
  - intros [= <-]. unfold run_call. destruct (JS.ge _ _); simpl.
    + rewrite !omap_app. simpl. rewrite app_nil_r, <- Hw. by rewrite !app_assoc.
    + rewrite !omap_app. simpl. by rewrite !app_nil_r.
  - destruct (woken w) as [|t rest] eqn:E; [discriminate|]. intros [= <-]. simpl.
    rewrite !omap_app. simpl. rewrite app_nil_r, <- Hw. by rewrite <- !app_assoc.
  - destruct (decide _); [|discriminate]. intros [= <-].
    unfold run_finally. destruct (queue (limiter w)) as [|next rest] eqn:E; simpl.
    + assumption.
    + rewrite <- Hw. by rewrite <- !app_assoc.
Qed.

Lemma step_slots_respected (m : Z) (w w' : world) (e : event) :
  max (limiter w) = JS.of_Z m ->
  (is_call e = true -> woken w = []) ->
  slots_respected m w -> step w e = Some w' -> slots_respected m w'.
Proof.
  unfold slots_respected. intros Hm Hquiet [Hle Hq]. destruct e as [t| |t]; simpl.
  - intros [= <-]. pose proof (Hquiet eq_refl) as Hnone.
    unfold run_call, run_enter. rewrite Hm, ge_of_Z.
    destruct (Z.leb_spec m (active (limiter w))); simpl;
      rewrite Hnone in *; simpl in *.
    + split; [lia|intros; lia].
    + split; [lia|intros _; apply Hq; lia].
  - destruct (woken w) as [|t rest]; [discriminate|]. intros [= <-]. simpl in *.
    split; [lia|intros ?; apply Hq; lia].
  - destruct (decide _); [|discriminate]. intros [= <-].
    unfold run_finally. destruct (queue (limiter w)) as [|next rest]; simpl.
    + split; [lia|done].
    + rewrite length_app. simpl.
      split; [lia|]. intros Hlt. exfalso. enough (next :: rest = []) by discriminate.
      apply Hq. lia.
Qed.

Lemma exec_slots_respected (m : Z) (evs : list event) (w w' : world) :
  max (limiter w) = JS.of_Z m ->
  calls_meet_no_wakeup w evs = true ->
  slots_respected m w -> exec w evs = Some w' -> slots_respected m w'.
Proof.
  revert w. induction evs as [|e evs IH]; intros w Hm; simpl.
  - by intros _ ? [= <-].
  - destruct (step w e) as [w1|] eqn:E; simpl; [|discriminate].
    intros [Hquiet Hrest]%andb_true_iff Hw. apply IH; try assumption.
    + by rewrite (step_max _ _ _ E).
    + apply (step_slots_respected m w w1 e); try assumption.
      intros Hc. rewrite Hc in Hquiet. simpl in Hquiet. by apply bool_decide_eq_true in Hquiet.
Qed.

End LimiterFacts.

Section LimiterTheorems.
Import Limiter.

(** It fails with [max = 1], in two ways.  Three calls up front and the
    first task settling: the second call is woken but has not resumed,
    [active] is 0 and the third call still waits.  And a call that arrives
    between a wake-up and the resumption is admitted at once, so that the
    resumption brings [active] to 2. *)
Lemma specified_invariant_fails :
  (exists l w,
      new (JS.of_Z 1) = Ok l
      /\ exec (boot l) [Call 0; Call 1; Call 2; Settle 0] = Some w
      /\ active (limiter w) = 0 /\ queue (limiter w) = [2%nat] /\ woken w = [1%nat]
      /\ ~ specified_invariant 1 w)
  /\ (exists l w,
      new (JS.of_Z 1) = Ok l
      /\ exec (boot l) [Call 0; Call 1; Settle 0; Call 2; Resume] = Some w
      /\ active (limiter w) = 2 /\ running w = [2%nat; 1%nat]
      /\ ~ specified_invariant 1 w).
Proof.
  split.
  - eexists _, _. split_and!; try reflexivity.
    intros [_ Hq]. simpl in Hq. discriminate Hq. lia.
  - eexists _, _. split_and!; try reflexivity.
    intros [[_ Hle] _]. simpl in Hle. lia.
Qed.

(** C1 (amended).  For an integer [max = m >= 1] and a run in which no
    call of [run] arrives while a woken waiter has yet to resume, at every
    moment [0 <= active <= m], [active] plus the number of woken waiters
    is at most [m], and the queue is empty whenever that sum is below [m]. *)
Theorem Limiter_respects_max (m : Z) (l : Limiter) (evs : list event) (w : world) :
  1 <= m ->
  new (JS.of_Z m) = Ok l ->
  calls_meet_no_wakeup (boot l) evs = true ->
  exec (boot l) evs = Some w ->
  0 <= active (limiter w) <= m
  /\ active (limiter w) + Z.of_nat (length (woken w)) <= m
  /\ (active (limiter w) + Z.of_nat (length (woken w)) < m -> queue (limiter w) = []).
Proof.
  intros Hm [-> _]%new_Ok Hquiet Hexec.
  assert (counts_running w) as Hcount.
  { apply (exec_invariant counts_running step_counts_running evs _ w) in Hexec;
      [assumption|reflexivity]. }
  destruct (exec_slots_respected m evs
              (boot {| max := JS.of_Z m; active := 0; queue := [] |}) w
              eq_refl Hquiet) as [Hle Hq];
    [split; simpl; [lia|done]|assumption|].
  unfold counts_running in Hcount. split_and!; [lia|lia|assumption|assumption].
Qed.

Lemma Limiter_respects_max_witness :
  exists w,
    exec (boot {| max := JS.of_Z 1; active := 0; queue := [] |})
         [Call 0; Call 1; Call 2; Settle 0; Resume; Settle 1] = Some w
    /\ 0 <= active (limiter w) <= 1
    /\ active (limiter w) + Z.of_nat (length (woken w)) <= 1
    /\ (active (limiter w) + Z.of_nat (length (woken w)) < 1 -> queue (limiter w) = []).
Proof.
  eexists. split; [reflexivity|].
  apply (Limiter_respects_max 1 {| max := JS.of_Z 1; active := 0; queue := [] |}
           [Call 0; Call 1; Call 2; Settle 0; Resume; Settle 1]);
    [lia|reflexivity|reflexivity|reflexivity].
Defined.

Lemma no_calls_meet_no_wakeup (rest : list event) (w : world) :
  no_calls rest -> calls_meet_no_wakeup w rest = true.
Proof.
  intros H. revert w. induction H as [|e rest He _ IH]; intros w; simpl; [reflexivity|].
  rewrite He. simpl. destruct (step w e); auto.
Qed.

Lemma run_call_woken (t : invocation) (w : world) : woken (run_call t w) = woken w.
Proof. unfold run_call. by destruct (JS.ge _ _). Qed.

Lemma batch_calls_meet_no_wakeup (ts : list invocation) (rest : list event) (w : world) :
  no_calls rest -> woken w = [] -> calls_meet_no_wakeup w (batch ts rest) = true.
Proof.
  intros Hrest. unfold batch. revert w. induction ts as [|t ts IH]; intros w Hw; simpl.
  - by apply no_calls_meet_no_wakeup.
  - rewrite Hw. simpl. apply IH. by rewrite run_call_woken.
Qed.

(** The batch runner's use of the limiter keeps within [max]. *)
Lemma batch_respects_max (m : Z) (l : Limiter) (ts : list invocation)
    (rest : list event) (w : world) :
  new (JS.of_Z m) = Ok l ->
  no_calls rest ->
  exec (boot l) (batch ts rest) = Some w ->
  0 <= active (limiter w) <= m.
Proof.
  intros Hnew Hrest Hexec. pose proof Hnew as [-> Hlt]%new_Ok.
  rewrite lt_of_Z in Hlt. apply Z.ltb_ge in Hlt.
  assert (counts_running w) as Hcount.
  { apply (exec_invariant counts_running step_counts_running _ _ w) in Hexec;
      [assumption|reflexivity]. }
  destruct (exec_slots_respected m (batch ts rest)
              (boot {| max := JS.of_Z m; active := 0; queue := [] |}) w
              eq_refl) as [Hle _];
    [by apply batch_calls_meet_no_wakeup|split; simpl; [lia|done]|assumption|].
  unfold counts_running in Hcount. lia.
Qed.

End LimiterTheorems.

Section LimiterOrder.
Import Limiter.

(** While the batch is being submitted nobody has been woken, and once a
    call has had to queue every later one queues behind it. *)
Lemma batch_submitted (ts : list invocation) (w : world) :
  woken w = [] ->
  (queue (limiter w) <> [] -> JS.ge (JS.of_Z (active (limiter w))) (max (limiter w)) = true) ->
  exists w',
    exec w (Call <$> ts) = Some w'
    /\ woken w' = []
    /\ admission_order w' ++ queue (limiter w')
       = admission_order w ++ queue (limiter w) ++ ts.
Proof.
  revert w. induction ts as [|t ts IH]; intros w Hwoken Hfull; simpl.
  - exists w. by rewrite app_nil_r.
  - destruct (IH (run_call t w)) as (w' & Hexec & Hw' & Horder).
    + by rewrite run_call_woken.
    + unfold run_call. destruct (JS.ge _ _) eqn:E; simpl; [done|].
      intros Hq. apply Hfull in Hq. congruence.
    + exists w'. split_and!; [assumption|assumption|]. rewrite Horder.
      unfold run_call, admission_order. destruct (JS.ge _ _) eqn:E; simpl.
      * by rewrite omap_app, app_nil_r, <- !app_assoc.
      * destruct (queue (limiter w)) as [|q0 qs] eqn:Eq;
          [|discriminate Hfull; done].
        rewrite omap_app. simpl. by rewrite <- !app_assoc.
Qed.

Lemma step_keeps_line (w : world) (e : event) (w' : world) :
  is_call e = false ->
  step w e = Some w' ->
  admission_order w' ++ woken w' ++ queue (limiter w')
  = admission_order w ++ woken w ++ queue (limiter w).
Proof.
  unfold admission_order. destruct e as [t| |t]; simpl; [discriminate| |]; intros _.
  - destruct (woken w) as [|t rest]; [discriminate|]. intros [= <-]. simpl.
    rewrite omap_app. simpl. by rewrite <- !app_assoc.
  - destruct (decide _); [|discriminate]. intros [= <-].
    unfold run_finally. destruct (queue (limiter w)) as [|next rest]; simpl.
    + reflexivity.
    + by rewrite <- !app_assoc.
Qed.

Lemma exec_keeps_line (rest : list event) (w w' : world) :
  no_calls rest ->
  exec w rest = Some w' ->
  admission_order w' ++ woken w' ++ queue (limiter w')
  = admission_order w ++ woken w ++ queue (limiter w).
Proof.
  intros H. revert w. induction H as [|e rest He _ IH]; intros w; simpl.
  - by intros [= <-].
  - destruct (step w e) as [w1|] eqn:E; simpl; [|discriminate].
    intros ->%IH. by apply (step_keeps_line w e w1).
Qed.

(** C2.  Whatever [max] and whatever the run, the calls that had to
    suspend are readmitted in the order they queued: those readmitted so
    far, then those woken, then those still queued, are the suspended
    calls in arrival order.  And when the calls are made as one batch,
    with [max = 1] as with any other [max], the order of admission is the
    order of the calls. *)
Theorem Limiter_admits_in_arrival_order (maxv : JS.number) (l : Limiter)
    (evs : list event) (w : world) :
  new maxv = Ok l ->
  exec (boot l) evs = Some w ->
  wakeup_order w ++ woken w ++ queue (limiter w) = enqueue_order w
  /\ (forall (ts : list invocation) (rest : list event),
        evs = batch ts rest -> no_calls rest ->
        admission_order w ++ woken w ++ queue (limiter w) = ts).
Proof.
  intros [-> _]%new_Ok Hexec. split.
  - apply (exec_invariant fifo step_fifo evs _ w) in Hexec; [assumption|reflexivity].
  - intros ts rest -> Hrest. unfold batch in Hexec. rewrite exec_app in Hexec.
    destruct (batch_submitted ts (boot {| max := maxv; active := 0; queue := [] |}))
      as (w1 & Hcalls & Hwoken & Horder); [reflexivity|done|].
    rewrite Hcalls in Hexec. simpl in Hexec.
    rewrite (exec_keeps_line rest w1 w Hrest Hexec), Hwoken. simpl.
    exact Horder.
Qed.

(** [max = 1], three calls in one batch, run to completion. *)
Lemma Limiter_admits_in_arrival_order_witness :
  exists w,
    exec (boot {| max := JS.of_Z 1; active := 0; queue := [] |})
         (batch [7; 8; 9]%nat [Settle 7; Resume; Settle 8; Resume; Settle 9]) = Some w
    /\ wakeup_order w = [8; 9]%nat
    /\ admission_order w = [7; 8; 9]%nat
    /\ wakeup_order w ++ woken w ++ queue (limiter w) = enqueue_order w.
Proof.
  eexists. split; [reflexivity|]. split; [reflexivity|]. split; [reflexivity|].
  apply (Limiter_admits_in_arrival_order (JS.of_Z 1)
           {| max := JS.of_Z 1; active := 0; queue := [] |}
           (batch [7; 8; 9]%nat [Settle 7; Resume; Settle 8; Resume; Settle 9]));
    reflexivity.
Defined.

Lemma lt_one_below_one (n : JS.number) : JS.lt n (JS.of_Z 1) = true <-> below_one n.
Proof.
  destruct n as [| | |q]; simpl; try (split; [discriminate|tauto]); try tauto.
  rewrite negb_true_iff. rewrite <- not_true_iff_false, Qle_bool_iff.
  split; [apply Qnot_le_lt|apply Qlt_not_le].
Qed.

(** With [max = NaN] the admission test never holds. *)
Lemma step_unlimited (w : world) (e : event) (w' : world) :
  max (limiter w) = JS.NaN ->
  queue (limiter w) = [] /\ woken w = [] /\ enqueue_order w = [] ->
  step w e = Some w' ->
  queue (limiter w') = [] /\ woken w' = [] /\ enqueue_order w' = [].
Proof.
  unfold enqueue_order. intros Hmax (Hq & Hw & Hs). destruct e as [t| |t]; simpl.
  - intros [= <-]. unfold run_call. rewrite Hmax. simpl.
    by rewrite omap_app, Hs.
  - rewrite Hw. discriminate.
  - destruct (decide _); [|discriminate]. intros [= <-].
    unfold run_finally. rewrite Hq. simpl. done.
Qed.

Lemma exec_unlimited_calls (n : nat) (w : world) :
  max (limiter w) = JS.NaN ->
  exists w',
    exec w (Call <$> seq 0 n) = Some w'
    /\ active (limiter w') = active (limiter w) + Z.of_nat n
    /\ max (limiter w') = JS.NaN.
Proof.
  generalize 0%nat as k. revert w.
  induction n as [|n IH]; intros w k Hmax; simpl.
  - exists w. split_and!; [reflexivity|lia|assumption].
  - destruct (IH (run_call k w) (S k)) as (w' & Hexec & Hact & Hmax').
    + unfold run_call. by rewrite Hmax.
    + exists w'. split_and!; [assumption| |assumption].
      rewrite Hact. unfold run_call. rewrite Hmax. simpl. lia.
Qed.

(** C10.  The constructor throws exactly when [max < 1] holds, so it
    accepts a non-integer such as 1.5 and it accepts NaN, which is what
    [parseInt] makes of a CONCURRENCY that is not a number.  Under
    [max = NaN] no call ever suspends: every call is admitted at once, and
    [n] calls bring [active] to [n], for every [n]. *)
Theorem Limiter_accepts_NaN :
  (forall maxv : JS.number,
      new maxv = Err (Error "Concurrency must be >= 1") <-> below_one maxv)
  /\ (forall maxv : JS.number,
      new maxv = Ok {| max := maxv; active := 0; queue := [] |} <-> ~ below_one maxv)
  /\ ~ below_one (JS.Fin (3 # 2))
  /\ ~ below_one JS.NaN
  /\ Config.concurrency (Some "many") "8" = JS.NaN
  /\ (forall (l : Limiter) (evs : list event) (w : world),
        new JS.NaN = Ok l -> exec (boot l) evs = Some w ->
        queue (limiter w) = [] /\ woken w = [] /\ enqueue_order w = []
        /\ active (limiter w) = Z.of_nat (length (running w)))
  /\ (forall (l : Limiter) (n : nat),
        new JS.NaN = Ok l ->
        exists w, exec (boot l) (Call <$> seq 0 n) = Some w
                  /\ active (limiter w) = Z.of_nat n).
Proof.
  split_and!.
  - intros maxv. rewrite <- lt_one_below_one. unfold new.
    destruct (JS.lt maxv _); split; (reflexivity || discriminate).
  - intros maxv. rewrite <- lt_one_below_one. unfold new.
    destruct (JS.lt maxv _); split; try reflexivity; try discriminate; tauto.
  - simpl. apply Qle_not_lt. discriminate.
  - simpl. tauto.
  - reflexivity.
  - intros l evs w [-> _]%new_Ok Hexec.
    pose proof (exec_max _ _ _ Hexec) as Hmax. simpl in Hmax.
    assert (max (limiter w) = JS.NaN
            /\ queue (limiter w) = [] /\ woken w = [] /\ enqueue_order w = []) as (_ & H).
    { apply (exec_invariant
               (fun w0 => max (limiter w0) = JS.NaN
                          /\ queue (limiter w0) = [] /\ woken w0 = []
                          /\ enqueue_order w0 = [])) in Hexec;
        [assumption| |by split_and!].
      intros w0 e w1 [Hm H0] Hstep. split.
      - by rewrite (step_max _ _ _ Hstep).
      - by apply (step_unlimited w0 e w1). }
    apply (exec_invariant counts_running step_counts_running evs _ w) in Hexec;
      [|reflexivity].
    destruct H as (? & ? & ?). by split_and!.
  - intros l n [-> _]%new_Ok.
    destruct (exec_unlimited_calls n (boot {| max := JS.NaN; active := 0; queue := [] |}))
      as (w & Hexec & Hact & _); [reflexivity|].
    exists w. split; [assumption|]. rewrite Hact. simpl. lia.
Qed.

End LimiterOrder.

(** ** Backoff-retry executor: recovery, termination, unbounded budgets *)

Lemma ge_of_nat (a b : nat) : JS.ge (JS.of_nat a) (JS.of_nat b) = (b <=? a)%nat.
Proof.
  unfold JS.of_nat. rewrite ge_of_Z.
  destruct (Z.leb_spec (Z.of_nat b) (Z.of_nat a)), (Nat.leb_spec b a); lia || reflexivity.
Qed.

Section RetryRecovery.
Import Retry.
Context {A : JS.Arith} {T : Type}.
Variable fn : nat -> settled T.
Variable Math_random : nat -> JS.number.

Lemma after_retries_step (hook : bool) (errs : nat -> failure) (baseMs : JS.number) (n : nat) :
  retried hook (errs n) n (backoff_delay Math_random baseMs n)
    (invoked (after_retries hook errs Math_random baseMs n))
  = after_retries hook errs Math_random baseMs (S n).
Proof.
  unfold retried, invoked, after_retries.
  cbn [invocations draws onRetry_calls sleeps].
  rewrite !seq_S, !fmap_app. by destruct hook.
Qed.

Lemma withRetry_loop_recovers (opts : options) (r k : nat) (errs : nat -> failure) (v : T) :
  retries opts = Some (JS.of_nat r) ->
  (k <= r)%nat ->
  (forall j, (j < k)%nat -> fn j = Rejected (errs j) /\ transient_failure (status (errs j))) ->
  fn k = Fulfilled v ->
  forall (fuel attempt : nat),
    (attempt <= k)%nat ->
    (k - attempt < fuel)%nat ->
    Phase2.withRetry_loop fn Math_random (Some opts) fuel attempt
      (after_retries (onRetry opts) errs Math_random (Phase2.baseMs (Some opts)) attempt)
    = Some (Fulfilled v,
            invoked (after_retries (onRetry opts) errs Math_random
                       (Phase2.baseMs (Some opts)) k)).
Proof.
  intros Hr Hk Hfail Hok. induction fuel as [|fuel IH]; intros attempt Hle Hfuel; [lia|].
  destruct (decide (attempt = k)) as [->|Hne].
  - simpl. rewrite Hok. reflexivity.
  - destruct (Hfail attempt) as [Herr Htr%transient_spec]; [lia|].
    rewrite (withRetry_loop_rejected fn Math_random (Some opts) fuel attempt _ (errs attempt))
      by exact Herr.
    unfold Phase2.retries at 1. cbn [mbind option_bind]. rewrite Hr.
    cbn [default from_option id].
    rewrite ge_of_nat, Htr.
    destruct (Nat.leb_spec r attempt); [lia|]. simpl orb. cbv iota.
    change (JS.Math_round _) with
      (backoff_delay Math_random (Phase2.baseMs (Some opts)) attempt).
    change (has_hook (Some opts)) with (onRetry opts).
    rewrite after_retries_step. apply IH; lia.
Qed.

End RetryRecovery.

(** X1.  When the first [k] invocations fail transiently ([k] within the
    budget) and the next one succeeds, [withRetry] returns that value after
    [k + 1] invocations; it has slept [k] times, the [j]-th time for the
    delay computed from the [j]-th draw, and has called [onRetry], when
    there is one, with each failure in turn and the numbers 1 to [k]. *)
Theorem withRetry_recovers {A : JS.Arith} {T : Type}
    (fn : nat -> Retry.settled T) (Math_random : nat -> JS.number)
    (opts : Retry.options) (r k fuel : nat) (errs : nat -> Retry.failure) (v : T) :
  Retry.retries opts = Some (JS.of_nat r) ->
  (k <= r)%nat ->
  (k < fuel)%nat ->
  (forall j, (j < k)%nat ->
     fn j = Retry.Rejected (errs j) /\ transient_failure (Retry.status (errs j))) ->
  fn k = Retry.Fulfilled v ->
  Phase2.withRetry fn Math_random (Some opts) fuel
  = Some (Retry.Fulfilled v,
          {| Retry.invocations := S k;
             Retry.draws := k;
             Retry.onRetry_calls :=
               if Retry.onRetry opts then (fun j => (errs j, S j)) <$> seq 0 k else [];
             Retry.sleeps :=
               backoff_delay Math_random (Phase2.baseMs (Some opts)) <$> seq 0 k |}).
Proof.
  intros Hr Hk Hfuel Hfail Hok.
  unfold Phase2.withRetry.
  replace Retry.start
    with (after_retries (Retry.onRetry opts) errs Math_random (Phase2.baseMs (Some opts)) 0)
    by (unfold after_retries, Retry.start; simpl; by destruct (Retry.onRetry opts)).
  rewrite (withRetry_loop_recovers fn Math_random opts r k errs v Hr Hk Hfail Hok fuel 0%nat)
    by lia.
  reflexivity.
Qed.

(** Two 500s, then success: three invocations, delays 450 and 900 under
    draws of one half and [baseMs = 900]. *)
Lemma withRetry_recovers_witness :
  let err := {| Retry.status := JS.Number (JS.of_Z 500); Retry.message := "boom" |} in
  let fn : nat -> Retry.settled nat :=
    fun k => if (k <? 2)%nat then Retry.Rejected err else Retry.Fulfilled k in
  let opts := {| Retry.retries := Some (JS.of_nat 6); Retry.baseMs := Some (JS.of_Z 900);
                 Retry.onRetry := true |} in
  Phase2.withRetry (arith := JS.exact) fn (fun _ => JS.Fin (1 # 2)) (Some opts) 10
  = Some (Retry.Fulfilled 2%nat,
          {| Retry.invocations := 3;
             Retry.draws := 2;
             Retry.onRetry_calls := [(err, 1%nat); (err, 2%nat)];
             Retry.sleeps :=
               backoff_delay (arith := JS.exact) (fun _ => JS.Fin (1 # 2)) (JS.of_Z 900)
                 <$> [0; 1]%nat |}).
Proof.
  intros err fn opts.
  apply (withRetry_recovers (A := JS.exact) fn (fun _ => JS.Fin (1 # 2)) opts 6 2 10
           (fun _ => err) 2%nat eq_refl); [lia|lia| |reflexivity].
  intros j Hj. split.
  - unfold fn. destruct (Nat.ltb_spec j 2); [reflexivity|lia].
  - right; right. eexists. split; [reflexivity|]. simpl. unfold Qle. simpl. lia.
Defined.

Section RetryTermination.
Import Retry.
Context {A : JS.Arith} {T : Type}.
Variable fn : nat -> settled T.
Variable Math_random : nat -> JS.number.

Lemma withRetry_loop_never_settles (opts : option options) :
  Phase2.retries opts = JS.NaN \/ Phase2.retries opts = JS.PosInf ->
  (forall k, exists err, fn k = Rejected err /\ transient_failure (status err)) ->
  forall (fuel attempt : nat) (t : trace),
    Phase2.withRetry_loop fn Math_random opts fuel attempt t = None.
Proof.
  intros Hr Hfn. induction fuel as [|fuel IH]; intros attempt t; [reflexivity|].
  destruct (Hfn (invocations t)) as (err & E & Htr%transient_spec).
  rewrite (withRetry_loop_rejected fn Math_random opts fuel attempt t err E), Htr.
  replace (JS.ge (JS.of_nat attempt) (Phase2.retries opts)) with false
    by (destruct Hr as [-> | ->]; reflexivity).
  apply IH.
Qed.

End RetryTermination.

(** X2.  Under a finite [retries] (an integer or not, given or defaulted)
    and an operation whose every invocation settles, [withRetry] settles
    too, whichever way the invocations go: the loop is left within
    [ceiling(retries) + 1] iterations (one, when [retries] is not
    positive), having invoked the operation at least once and at most that
    many times.  (An invocation that never settles is not among the
    operations [fn] ranges over: [withRetry] has no timeout of its own and
    waits at its [await] with it.) *)
Theorem withRetry_settles_within_budget {A : JS.Arith} {T : Type}
    (fn : nat -> Retry.settled T) (Math_random : nat -> JS.number)
    (opts : option Retry.options) (q : Q) (fuel : nat) :
  Phase2.retries opts = JS.Fin q ->
  (Z.to_nat (Qceiling q) < fuel)%nat ->
  exists out t,
    Phase2.withRetry fn Math_random opts fuel = Some (out, t)
    /\ (1 <= Retry.invocations t <= S (Z.to_nat (Qceiling q)))%nat.
Proof.
  intros Hq Hfuel.
  destruct (withRetry_loop_settles fn Math_random opts q Hq fuel 0%nat Retry.start)
    as (out & t & Hloop & Hlo & Hhi); [lia|].
  exists out, t. split; [exact Hloop|]. simpl in Hlo, Hhi. lia.
Qed.

(** With no options the budget is 6: at most seven invocations. *)
Lemma withRetry_settles_within_budget_witness :
  exists out t,
    Phase2.withRetry (arith := JS.exact) (T := unit)
      (fun _ => Retry.Rejected {| Retry.status := JS.Undefined; Retry.message := "down" |})
      (fun _ => JS.Fin (1 # 2)) None 7
    = Some (out, t)
    /\ (1 <= Retry.invocations t <= 7)%nat.
Proof.
  apply (withRetry_settles_within_budget (A := JS.exact) (T := unit)
           (fun _ => Retry.Rejected {| Retry.status := JS.Undefined; Retry.message := "down" |})
           (fun _ => JS.Fin (1 # 2)) None (inject_Z 6) 7 eq_refl).
  vm_compute. lia.
Defined.

(** X3.  Under [retries = NaN] or [retries = Infinity] the test
    [attempt >= retries] never holds: against an operation that keeps
    failing transiently [withRetry] retries for ever, and no bound on the
    iterations is enough for it to settle. *)
Theorem withRetry_unbounded_budget_never_settles {A : JS.Arith} {T : Type}
    (fn : nat -> Retry.settled T) (Math_random : nat -> JS.number)
    (opts : option Retry.options) (fuel : nat) :
  Phase2.retries opts = JS.NaN \/ Phase2.retries opts = JS.PosInf ->
  (forall k, exists err, fn k = Retry.Rejected err /\ transient_failure (Retry.status err)) ->
  Phase2.withRetry fn Math_random opts fuel = None.
Proof.
  intros Hr Hfn. by apply withRetry_loop_never_settles.
Qed.

Lemma withRetry_unbounded_budget_never_settles_witness :
  Phase2.withRetry (arith := JS.exact) (T := unit)
    (fun _ => Retry.Rejected {| Retry.status := JS.Number (JS.of_Z 503); Retry.message := "busy" |})
    (fun _ => JS.Fin (1 # 2))
    (Some {| Retry.retries := Some JS.NaN; Retry.baseMs := None; Retry.onRetry := false |})
    1000
  = None.
Proof.
  apply (withRetry_unbounded_budget_never_settles (A := JS.exact) (T := unit)
           (fun _ => Retry.Rejected
                       {| Retry.status := JS.Number (JS.of_Z 503); Retry.message := "busy" |})
           (fun _ => JS.Fin (1 # 2))
           (Some {| Retry.retries := Some JS.NaN; Retry.baseMs := None; Retry.onRetry := false |})
           1000 (or_introl eq_refl)).
  intros k. eexists. split; [reflexivity|].
  right; right. eexists. split; [reflexivity|]. simpl. unfold Qle. simpl. lia.
Defined.

(** ** Concurrency limiter: no stranded waiter, the start of a batch *)

Section LimiterProgress.
Import Limiter.

(** A call queues only behind at least one running task. *)
Lemma full_means_somebody_runs (maxv : JS.number) (a : Z) :
  JS.lt maxv (JS.of_Z 1) = false ->
  JS.ge (JS.of_Z a) maxv = true ->
  1 <= a.
Proof.
  destruct maxv as [| | |q]; simpl; try discriminate.
  intros Hlt%negb_false_iff%Qle_bool_iff Hge%Qle_bool_iff.
  rewrite Zle_Qle. by apply (Qle_trans _ q).
Qed.

Lemma step_served (w : world) (e : event) (w' : world) :
  served w -> step w e = Some w' -> served w'.
Proof.
  intros (Hmax & Hcount & Hq) Hstep. split_and!.
  - by rewrite (step_max _ _ _ Hstep).
  - by apply (step_counts_running w e w').
  - revert Hstep. destruct e as [t| |t]; simpl.
    + intros [= <-]. unfold run_call, run_enter.
      destruct (JS.ge _ _) eqn:Hge; simpl.
      * intros _. left. apply (full_means_somebody_runs _ _ Hmax) in Hge.
        unfold counts_running in Hcount. destruct (running w); [simpl in Hcount; lia|done].
      * intros _. left. by destruct (running w).
    + destruct (woken w) as [|t rest]; [discriminate|]. intros [= <-]. simpl.
      intros _. left. by destruct (running w).
    + destruct (decide _); [|discriminate]. intros [= <-].
      unfold run_finally. destruct (queue (limiter w)) as [|next rest]; simpl; [done|].
      intros _. right. by destruct (woken w).
Qed.

Lemma served_drains (n : nat) :
  forall w : world,
    (backlog w <= n)%nat -> served w ->
    exists evs w',
      no_calls evs /\ exec w evs = Some w'
      /\ queue (limiter w') = [] /\ woken w' = [] /\ running w' = [].
Proof.
  unfold backlog. induction n as [|n IH]; intros w Hn Hw.
  - exists [], w. split_and!; [constructor|reflexivity| | |].
    + destruct (queue (limiter w)); [done|simpl in Hn; lia].
    + destruct (woken w); [done|simpl in Hn; lia].
    + destruct (running w); [done|simpl in Hn; lia].
  - destruct (woken w) as [|t rest] eqn:Ewoken.
    + destruct (running w) as [|t rest] eqn:Erun.
      * exists [], w. destruct Hw as (_ & _ & Hq). split_and!; try done; [constructor|].
        destruct (queue (limiter w)); [done|]. destruct Hq as [H|H]; [done|..]; congruence.
      * assert (step w (Settle t) = Some (run_finally t w)) as Hstep.
        { simpl. rewrite Erun. rewrite decide_True by apply list_elem_of_here. reflexivity. }
        destruct (IH (run_finally t w)) as (evs & w' & Hevs & Hexec & Hdone).
        { unfold run_finally. rewrite Erun, Ewoken. simpl remove_one.
          rewrite decide_True by reflexivity. simpl in Hn.
          destruct (queue (limiter w)); simpl in *; lia. }
        { by apply (step_served w (Settle t)). }
        exists (Settle t :: evs), w'. split_and!; try apply Hdone.
        -- by constructor.
        -- cbn [exec]. rewrite Hstep. exact Hexec.
    + pose (w1 := run_enter (Reentered t) t
                    {| limiter := limiter w; woken := rest;
                       running := running w; history := history w |}).
      assert (step w Resume = Some w1) as Hstep by (simpl; by rewrite Ewoken).
      destruct (IH w1) as (evs & w' & Hevs & Hexec & Hdone).
      { unfold w1, run_enter. simpl. rewrite length_app. simpl in *. lia. }
      { by apply (step_served w Resume). }
      exists (Resume :: evs), w'. split_and!; try apply Hdone.
      * by constructor.
      * cbn [exec]. rewrite Hstep. exact Hexec.
Qed.

End LimiterProgress.

(** X4.  The limiter never strands a waiter.  At every moment of every run,
    for every accepted [max], a call waits in the queue only while some
    task is running or some waiter has been woken; and from there the run
    can always be finished: letting the woken resume and the running tasks
    settle, with no further call, empties queue, wake-ups and running set. *)
Theorem Limiter_never_strands (maxv : JS.number) (l : Limiter.Limiter)
    (evs : list Limiter.event) (w : Limiter.world) :
  Limiter.new maxv = Ok l ->
  Limiter.exec (Limiter.boot l) evs = Some w ->
  (Limiter.queue (Limiter.limiter w) <> [] ->
     Limiter.running w <> [] \/ Limiter.woken w <> [])
  /\ exists (rest : list Limiter.event) (w' : Limiter.world),
      no_calls rest
      /\ Limiter.exec w rest = Some w'
      /\ Limiter.queue (Limiter.limiter w') = []
      /\ Limiter.woken w' = []
      /\ Limiter.running w' = [].
Proof.
  intros [-> Hmax]%new_Ok Hexec.
  assert (served w) as Hw.
  { apply (exec_invariant served step_served evs _ w) in Hexec; [assumption|].
    split_and!; [exact Hmax|reflexivity|done]. }
  split; [apply Hw|]. by apply (served_drains (backlog w)).
Qed.

Lemma Limiter_never_strands_witness :
  exists w,
    Limiter.exec (Limiter.boot {| Limiter.max := JS.of_Z 2; Limiter.active := 0;
                                  Limiter.queue := [] |})
      [Limiter.Call 0; Limiter.Call 1; Limiter.Call 2; Limiter.Call 3; Limiter.Settle 1]
    = Some w
    /\ Limiter.queue (Limiter.limiter w) = [3%nat]
    /\ exists (rest : list Limiter.event) (w' : Limiter.world),
        no_calls rest
        /\ Limiter.exec w rest = Some w'
        /\ Limiter.queue (Limiter.limiter w') = []
        /\ Limiter.woken w' = []
        /\ Limiter.running w' = [].
Proof.
  eexists. split; [reflexivity|]. split; [reflexivity|].
  apply (Limiter_never_strands (JS.of_Z 2)
           {| Limiter.max := JS.of_Z 2; Limiter.active := 0; Limiter.queue := [] |}
           [Limiter.Call 0; Limiter.Call 1; Limiter.Call 2; Limiter.Call 3; Limiter.Settle 1]);
    reflexivity.
Defined.

Section LimiterBatchStart.
Import Limiter.

Lemma batch_fills_slots (m : nat) (ts : list invocation) :
  forall w : world,
    max (limiter w) = JS.of_nat m ->
    counts_running w ->
    woken w = [] ->
    length (running w) = (m `min` (length (running w) + length (queue (limiter w))))%nat ->
    exists w',
      exec w (Call <$> ts) = Some w'
      /\ woken w' = []
      /\ running w' ++ queue (limiter w') = running w ++ queue (limiter w) ++ ts
      /\ length (running w')
         = (m `min` (length (running w) + length (queue (limiter w)) + length ts))%nat
      /\ counts_running w'.
Proof.
  induction ts as [|t ts IH]; intros w Hmax Hcount Hwoken Hfull.
  - exists w. simpl. rewrite app_nil_r, Nat.add_0_r. by split_and!.
  - cbn [fmap list_fmap exec step mbind option_bind].
    destruct (IH (run_call t w)) as (w' & Hexec & Hw' & Hline & Hlen & Hcount').
    + rewrite <- Hmax. unfold run_call, run_enter. by destruct (JS.ge _ _).
    + by apply (step_counts_running w (Call t)).
    + by rewrite run_call_woken.
    + unfold run_call, run_enter. rewrite Hmax, Hcount. unfold JS.of_nat. rewrite ge_of_Z.
      destruct (Z.leb_spec (Z.of_nat m) (Z.of_nat (length (running w)))); simpl.
      * rewrite length_app. simpl. lia.
      * rewrite length_app. simpl.
        destruct (queue (limiter w)); simpl in *; lia.
    + exists w'. split_and!; try assumption.
      * rewrite Hline. unfold run_call, run_enter. rewrite Hmax, Hcount.
        unfold JS.of_nat. rewrite ge_of_Z.
        destruct (Z.leb_spec (Z.of_nat m) (Z.of_nat (length (running w)))); simpl.
        -- by rewrite <- !app_assoc.
        -- destruct (queue (limiter w)) as [|q0 qs]; [|simpl in *; lia].
           simpl. by rewrite <- !app_assoc.
      * rewrite Hlen. unfold run_call, run_enter. rewrite Hmax, Hcount.
        unfold JS.of_nat. rewrite ge_of_Z.
        destruct (Z.leb_spec (Z.of_nat m) (Z.of_nat (length (running w)))); simpl.
        -- rewrite length_app. simpl. lia.
        -- rewrite length_app. simpl. lia.
Qed.

End LimiterBatchStart.

(** X5.  A batch of calls on a fresh limiter with integer [max = m]: the
    first [m] calls start their task at once, in call order, the others
    queue behind in call order, and [active] is the smaller of [m] and the
    number of calls. *)
Theorem Limiter_batch_starts_first_max (m : nat) (l : Limiter.Limiter)
    (ts : list Limiter.invocation) :
  Limiter.new (JS.of_nat m) = Ok l ->
  exists w,
    Limiter.exec (Limiter.boot l) (Limiter.Call <$> ts) = Some w
    /\ Limiter.running w = take m ts
    /\ Limiter.queue (Limiter.limiter w) = drop m ts
    /\ Limiter.woken w = []
    /\ Limiter.active (Limiter.limiter w) = Z.of_nat (m `min` length ts).
Proof.
  intros [-> _]%new_Ok.
  destruct (batch_fills_slots m ts
              (Limiter.boot {| Limiter.max := JS.of_nat m; Limiter.active := 0;
                               Limiter.queue := [] |}))
    as (w & Hexec & Hwoken & Hline & Hlen & Hcount); try reflexivity.
  { simpl. lia. }
  simpl in Hline, Hlen. exists w.
  assert (Limiter.running w = take m ts) as Hrun.
  { rewrite <- (take_app_length (Limiter.running w) (Limiter.queue (Limiter.limiter w))).
    rewrite Hline, Hlen.
    destruct (Nat.min_spec m (length ts)) as [[? ->]|[? ->]]; [done|].
    by rewrite !take_ge by lia. }
  split_and!; try assumption.
  - apply (app_inv_head (Limiter.running w)). rewrite Hline, Hrun. by rewrite take_drop.
  - rewrite Hcount, Hlen. reflexivity.
Qed.

Lemma Limiter_batch_starts_first_max_witness :
  exists w,
    Limiter.exec (Limiter.boot {| Limiter.max := JS.of_nat 2; Limiter.active := 0;
                                  Limiter.queue := [] |})
      (Limiter.Call <$> [4; 5; 6; 7]%nat) = Some w
    /\ Limiter.running w = take 2 [4; 5; 6; 7]%nat
    /\ Limiter.queue (Limiter.limiter w) = drop 2 [4; 5; 6; 7]%nat
    /\ Limiter.woken w = []
    /\ Limiter.active (Limiter.limiter w) = Z.of_nat (2 `min` length [4; 5; 6; 7]%nat).
Proof.
  apply (Limiter_batch_starts_first_max 2
           {| Limiter.max := JS.of_nat 2; Limiter.active := 0; Limiter.queue := [] |}
           [4; 5; 6; 7]%nat).
  reflexivity.
Defined.

(** ** Plan builder: columns never read, unknown tokens, short rows *)

Section PlannerErrors.
Import Phase2.

Lemma for_each_ext (l : list nat) (body body' : nat -> Plan unit) (s : plan_state) :
  (forall i s0, i ∈ l -> body i s0 = body' i s0) ->
  for_each l body s = for_each l body' s.
Proof.
  revert s. induction l as [|i l IH]; intros s Hext; simpl; [reflexivity|].
  unfold bind. rewrite (Hext i s) by apply list_elem_of_here.
  destruct (body' i s) as [s1 [[]|e]]; [|reflexivity].
  apply IH. intros j s0 Hj. apply Hext. by apply list_elem_of_further.
Qed.

Lemma for_each_app (l1 l2 : list nat) (body : nat -> Plan unit) (s : plan_state) :
  for_each (l1 ++ l2) body s
  = bind (for_each l1 body) (fun _ => for_each l2 body) s.
Proof.
  revert s. induction l1 as [|i l1 IH]; intros s; simpl.
  - reflexivity.
  - unfold bind. destruct (body i s) as [s1 [[]|e]]; [|reflexivity]. by rewrite IH.
Qed.

Lemma run_tokens_app (cells1 cells2 : list (nat * nat * string)) (s : plan_state) :
  run_tokens (cells1 ++ cells2) s
  = bind (run_tokens cells1) (fun _ => run_tokens cells2) s.
Proof.
  revert s. induction cells1 as [|x cells1 IH]; intros s; simpl.
  - reflexivity.
  - unfold bind. destruct (token_step x s) as [s1 [[]|e]]; [|reflexivity]. by rewrite IH.
Qed.

Lemma run_tokens_in_grammar (cells : list (nat * nat * string)) (s : plan_state) :
  Forall (fun x => x.2 ∈ tokens) cells ->
  run_tokens cells s = (emit (omap expected_action cells) s, Ok tt).
Proof.
  intros H. revert s. induction H as [|x cells Hx _ IH]; intros s.
  - simpl. unfold ret. by rewrite emit_nil.
  - cbn [run_tokens]. unfold bind, token_step. rewrite decide_True by assumption.
    rewrite IH, emit_emit, omap_cons_option_list. reflexivity.
Qed.

Lemma plan_cell_token (h w r c : nat) (goal : list (list string)) (tok : string)
    (s : plan_state) :
  (r < h)%nat -> (c < w)%nat ->
  index2 goal r c = Some tok ->
  plan_cell {| height := JS.of_nat h; width := JS.of_nat w |} goal r c s
  = token_step (r, c, tok) s.
Proof.
  intros Hr Hc Hidx. unfold token_step. simpl snd. destruct (decide (tok ∈ tokens)) as [Hin|Hout].
  - by apply plan_cell_in_grammar.
  - unfold plan_cell, bind, lift. rewrite Hidx.
    by rewrite (parseToken_outside_grammar tok Hout).
Qed.

(** A stretch of one row. *)
Lemma plan_row_stretch (h w r : nat) (goal : list (list string)) (row post : list string) :
  (r < h)%nat ->
  goal !! r = Some row ->
  forall (mid pre : list string) (s : plan_state),
    row = pre ++ mid ++ post ->
    (length pre + length mid <= w)%nat ->
    for_each (seq (length pre) (length mid))
             (plan_cell {| height := JS.of_nat h; width := JS.of_nat w |} goal r) s
    = run_tokens (row_from r (length pre) mid) s.
Proof.
  intros Hr Hrow. induction mid as [|tok mid IH]; intros pre s Hsplit Hlen.
  - reflexivity.
  - cbn [length seq for_each row_from run_tokens]. unfold bind.
    rewrite (plan_cell_token h w r (length pre) goal tok s); [|assumption|simpl in Hlen; lia|].
    + destruct (token_step _ s) as [s1 [[]|e]]; [|reflexivity].
      specialize (IH (pre ++ [tok]) s1). rewrite length_app, Nat.add_1_r in IH.
      apply IH; [by rewrite <- app_assoc|simpl in Hlen; lia].
    + unfold index2. rewrite Hrow. simpl. subst row. by apply list_lookup_middle.
Qed.

(** A stretch of rows of full length. *)
Lemma plan_rows_stretch (h w : nat) (goal post : list (list string)) :
  forall (mid pre : list (list string)) (s : plan_state),
    goal = pre ++ mid ++ post ->
    (length pre + length mid <= h)%nat ->
    Forall (fun row => length row = w) mid ->
    for_each (seq (length pre) (length mid))
             (fun r => for_upto w
                (plan_cell {| height := JS.of_nat h; width := JS.of_nat w |} goal r)) s
    = run_tokens (rows_from (length pre) mid) s.
Proof.
  induction mid as [|row mid IH]; intros pre s Hsplit Hlen Hrows.
  - reflexivity.
  - apply Forall_cons in Hrows as [Hw Hrows].
    cbn [length seq for_each rows_from]. rewrite run_tokens_app. unfold bind.
    unfold for_upto at 1. rewrite <- Hw at 1.
    pose proof (plan_row_stretch h w (length pre) goal row [] ltac:(simpl in Hlen; lia)
                  ltac:(subst goal; by apply list_lookup_middle) row [] s
                  ltac:(by rewrite app_nil_r) ltac:(simpl; lia)) as Hrow.
    cbn [length] in Hrow. rewrite Hrow.
    destruct (run_tokens (row_from (length pre) 0 row) s) as [s1 [[]|e]]; [|reflexivity].
    specialize (IH (pre ++ [row]) s1). rewrite length_app, Nat.add_1_r in IH.
    apply IH; [by rewrite <- app_assoc|simpl in Hlen; lia|assumption].
Qed.

Lemma index2_take (w : nat) (goal : list (list string)) (r c : nat) :
  (c < w)%nat -> index2 (take w <$> goal) r c = index2 goal r c.
Proof.
  intros Hc. unfold index2. rewrite list_lookup_fmap.
  destruct (goal !! r) as [row|]; simpl; [|reflexivity]. by apply lookup_take_lt.
Qed.

End PlannerErrors.

(** X6.  The planner never looks past the length of the first row: a goal
    and the same goal with every row cut to that length give the same
    plan, the same grid and the same error. *)
Theorem planActions_ignores_cells_beyond_first_row_length (goal : list (list string)) :
  Phase2.plan goal = Phase2.plan (take (Phase2.first_row_length goal) <$> goal).
Proof.
  set (w := Phase2.first_row_length goal).
  assert (Phase2.first_row_length (take w <$> goal) = w) as Hw.
  { unfold w, Phase2.first_row_length. destruct goal as [|row0 goal]; simpl; [reflexivity|].
    rewrite length_take. lia. }
  unfold Phase2.plan, Phase2.planActions. rewrite Hw, length_fmap. fold w.
  unfold Phase2.bind at 1 3. unfold Phase2.lift.
  destruct (Phase2.new_Grid _ _) as [grid|e]; [|reflexivity].
  unfold Phase2.bind.
  match goal with
  | |- ?lhs = ?rhs =>
      match lhs with
      | context [Phase2.for_upto ?n ?b1 Phase2.plan_init] =>
          match rhs with
          | context [Phase2.for_upto n ?b2 Phase2.plan_init] =>
              replace (Phase2.for_upto n b1 Phase2.plan_init)
                with (Phase2.for_upto n b2 Phase2.plan_init); [reflexivity|]
          end
      end
  end.
  unfold Phase2.for_upto. apply for_each_ext. intros r s _.
  apply for_each_ext. intros c s0 Hc%elem_of_seq.
  unfold Phase2.plan_cell. rewrite index2_take by lia. reflexivity.
Qed.

(** X7.  On a rectangular goal the planner stops at the first token, in
    row-major order, that is not in the grammar: it throws the unknown-token
    error for that token, having built the actions of the cells before it
    and none after. *)
Theorem planActions_stops_at_first_unknown_token (goal : list (list string))
    (before after : list (nat * nat * string)) (r c : nat) (tok : string) :
  rectangular goal ->
  row_major goal = before ++ (r, c, tok) :: after ->
  Forall (fun x => x.2 ∈ tokens) before ->
  tok ∉ tokens ->
  Phase2.plan goal
  = ({| Phase2.actions := omap expected_action before; Phase2.skipped := [] |},
     Err (Error ("Unknown token: " ++ tok)%string)).
Proof.
  intros (Hh & Hw & Hrows) Hsplit Hbefore Htok.
  unfold Phase2.plan, Phase2.planActions, Phase2.bind at 1, Phase2.lift.
  rewrite new_Grid_positive by by apply positive_integer_of_nat.
  unfold Phase2.bind.
  pose proof (plan_rows_stretch (length goal) (Phase2.first_row_length goal) goal []
                goal [] Phase2.plan_init ltac:(by rewrite app_nil_r)
                ltac:(simpl; lia) Hrows) as Hloops.
  cbn [length] in Hloops. fold (row_major goal) in Hloops.
  match type of Hloops with
  | ?lhs = _ =>
      match goal with
      | |- context [Phase2.for_upto ?n ?b Phase2.plan_init] =>
          change (Phase2.for_upto n b Phase2.plan_init) with lhs
      end
  end.
  rewrite Hloops, Hsplit, run_tokens_app. unfold Phase2.bind.
  rewrite run_tokens_in_grammar by assumption.
  cbn [run_tokens]. unfold Phase2.bind, token_step. simpl snd.
  rewrite decide_False by assumption. reflexivity.
Qed.

Lemma planActions_stops_at_first_unknown_token_witness :
  Phase2.plan [["POLYANET"; "SPACE"]; ["GREEN_SOLOON"; "RIGHT_COMETH"]]
  = ({| Phase2.actions := omap expected_action [(0, 0, "POLYANET"); (0, 1, "SPACE")]%nat;
        Phase2.skipped := [] |},
     Err (Error "Unknown token: GREEN_SOLOON")).
Proof.
  apply (planActions_stops_at_first_unknown_token
           [["POLYANET"; "SPACE"]; ["GREEN_SOLOON"; "RIGHT_COMETH"]]
           [(0, 0, "POLYANET"); (0, 1, "SPACE")]%nat [(1, 1, "RIGHT_COMETH")]%nat
           1 0 "GREEN_SOLOON").
  - split_and!; [cbv; lia|cbv; lia|]. repeat constructor.
  - reflexivity.
  - repeat constructor.
  - intros H. unfold tokens in H. simpl in H.
    repeat (apply elem_of_cons in H as [H|H]; [discriminate H|]).
    by apply elem_of_nil in H.
Defined.

Section PlannerShortRow.
Import Phase2.

Lemma row_from_tokens (r c : nat) (row : list string) :
  Forall (.∈ tokens) row -> Forall (fun x => x.2 ∈ tokens) (row_from r c row).
Proof.
  intros H. revert c. induction H as [|tok row Htok _ IH]; intros c; simpl; by constructor.
Qed.

Lemma rows_from_tokens (w r : nat) (rows : list (list string)) :
  Forall (fun row => length row = w /\ Forall (.∈ tokens) row) rows ->
  Forall (fun x => x.2 ∈ tokens) (rows_from r rows).
Proof.
  intros H. revert r. induction H as [|row rows [_ Hrow] _ IH]; intros r; simpl.
  - constructor.
  - apply Forall_app. split; [by apply row_from_tokens|apply IH].
Qed.

Lemma plan_cell_undefined (grid : Grid) (goal : list (list string)) (r c : nat)
    (s : plan_state) :
  index2 goal r c = None ->
  plan_cell grid goal r c s
  = (s, Err (TypeError "Cannot read properties of undefined (reading 'match')")).
Proof. intros Hidx. unfold plan_cell, bind, lift. by rewrite Hidx. Qed.

End PlannerShortRow.

(** X8.  A row shorter than the first one makes the planner throw.  When
    the rows above it have the first row's length, and all tokens up to
    the end of the short row are in the grammar, the planner builds the
    actions of those rows and of the short row, then reads [undefined]
    just past the end of the short row and fails with a [TypeError]; the
    out-of-bounds guard does not come into it. *)
Theorem planActions_short_row_throws (above below : list (list string))
    (short : list string) :
  let goal := above ++ short :: below in
  Forall (fun row => length row = Phase2.first_row_length goal
                     /\ Forall (.∈ tokens) row) above ->
  (length short < Phase2.first_row_length goal)%nat ->
  Forall (.∈ tokens) short ->
  Phase2.plan goal
  = ({| Phase2.actions :=
          omap expected_action (rows_from 0 above ++ row_from (length above) 0 short);
        Phase2.skipped := [] |},
     Err (TypeError "Cannot read properties of undefined (reading 'match')")).
Proof.
  intros goal. set (w := Phase2.first_row_length goal). intros Habove Hshort Htoks.
  set (h := length goal).
  assert (h = (length above + S (length below))%nat) as Hh
    by (unfold h, goal; rewrite length_app; reflexivity).
  unfold Phase2.plan, Phase2.planActions, Phase2.bind at 1, Phase2.lift.
  fold h w.
  rewrite new_Grid_positive by (apply positive_integer_of_nat; lia).
  set (grid := {| Phase2.height := JS.of_nat h; Phase2.width := JS.of_nat w |}).
  assert (Phase2.for_upto h
            (fun r => Phase2.for_upto w (fun c => Phase2.plan_cell grid goal r c))
            Phase2.plan_init
          = (emit (omap expected_action
                     (rows_from 0 above ++ row_from (length above) 0 short))
                  Phase2.plan_init,
             Err (TypeError "Cannot read properties of undefined (reading 'match')")))
    as Hloops.
  { unfold Phase2.for_upto at 1. rewrite Hh, seq_app. cbn [seq]. rewrite Nat.add_0_l.
    rewrite for_each_app. unfold Phase2.bind at 1.
    pose proof (plan_rows_stretch h w goal (short :: below) above [] Phase2.plan_init
                  eq_refl ltac:(simpl; lia)
                  ltac:(eapply Forall_impl; [exact Habove|by intros ? [? _]])) as Hrows.
    cbn [length] in Hrows.
    match type of Hrows with
    | ?lhs = _ =>
        match goal with
        | |- context [Phase2.for_each (seq 0 (length above)) ?b Phase2.plan_init] =>
            change (Phase2.for_each (seq 0 (length above)) b Phase2.plan_init) with lhs
        end
    end.
    rewrite Hrows, (run_tokens_in_grammar _ _ (rows_from_tokens w 0 above Habove)).
    cbn [Phase2.for_each]. unfold Phase2.bind at 1.
    unfold Phase2.for_upto at 1.
    replace w with (length short + S (w - S (length short)))%nat at 1 by lia.
    rewrite seq_app. cbn [seq]. rewrite Nat.add_0_l, for_each_app. unfold Phase2.bind at 1.
    pose proof (plan_row_stretch h w (length above) goal short [] ltac:(lia)
                  ltac:(by apply list_lookup_middle) short [] 
                  (emit (omap expected_action (rows_from 0 above)) Phase2.plan_init)
                  ltac:(by rewrite app_nil_r) ltac:(simpl; lia)) as Hrow.
    cbn [length] in Hrow.
    match type of Hrow with
    | ?lhs = _ =>
        match goal with
        | |- context [Phase2.for_each (seq 0 (length short)) ?b ?s0] =>
            change (Phase2.for_each (seq 0 (length short)) b s0) with lhs
        end
    end.
    rewrite Hrow, (run_tokens_in_grammar _ _ (row_from_tokens (length above) 0 short Htoks)).
    cbn [Phase2.for_each]. unfold Phase2.bind at 1.
    rewrite plan_cell_undefined.
    - by rewrite emit_emit, omap_app.
    - unfold Phase2.index2, goal. rewrite list_lookup_middle by reflexivity. simpl.
      by apply lookup_ge_None. }
  unfold Phase2.bind. rewrite Hloops. reflexivity.
Qed.

Lemma planActions_short_row_throws_witness :
  Phase2.plan ([["POLYANET"; "SPACE"]] ++ ["RED_SOLOON"] :: [["SPACE"; "UP_COMETH"]])
  = ({| Phase2.actions :=
          omap expected_action
            (rows_from 0 [["POLYANET"; "SPACE"]] ++ row_from 1 0 ["RED_SOLOON"]);
        Phase2.skipped := [] |},
     Err (TypeError "Cannot read properties of undefined (reading 'match')")).
Proof.
  apply (planActions_short_row_throws [["POLYANET"; "SPACE"]] [["SPACE"; "UP_COMETH"]]
           ["RED_SOLOON"]).
  - repeat constructor.
  - cbv. lia.
  - repeat constructor.
Defined.

(** ** Phase 1: doubles *)

Section Doubles.
Import Polyanets.

Lemma pow2_pos (e : Z) : (0 < pow2 e)%Q.
Proof. apply Qpower_0_lt. reflexivity. Qed.

Lemma pow2_add (a b : Z) : (pow2 (a + b) == pow2 a * pow2 b)%Q.
Proof. apply Qpower_plus. discriminate. Qed.

Lemma pow2_Z (e : Z) : 0 <= e -> (pow2 e == inject_Z (2 ^ e))%Q.
Proof. intros He. unfold pow2. by rewrite Zpower_Qpower. Qed.

Lemma pow2_le (a b : Z) : a <= b -> (pow2 a <= pow2 b)%Q.
Proof. intros H. apply Qpower_le_compat_l; [assumption|]. unfold Qle. simpl. lia. Qed.

Lemma pow2_lt (a b : Z) : a < b -> (pow2 a < pow2 b)%Q.
Proof. intros H. apply Qpower_lt_compat_l; [assumption|]. reflexivity. Qed.

Lemma ilog2_spec (q : Q) :
  (0 < q)%Q -> (pow2 (ilog2 q) <= q /\ q < pow2 (ilog2 q + 1))%Q.
Proof.
  intros Hq. destruct q as [n d]. unfold ilog2. cbn [Qnum Qden].
  assert (0 < n) as Hn by (unfold Qlt in Hq; simpl in Hq; lia).
  set (a := Z.log2 n). set (b := Z.log2 (Z.pos d)).
  destruct (Z.log2_spec n Hn) as [Ha1 Ha2]. fold a in Ha1, Ha2.
  destruct (Z.log2_spec (Z.pos d) eq_refl) as [Hb1 Hb2]. fold b in Hb1, Hb2.
  assert (0 <= a) as Ha0 by apply Z.log2_nonneg.
  assert (0 <= b) as Hb0 by apply Z.log2_nonneg.
  assert (n # d == inject_Z n / inject_Z (Z.pos d))%Q as Hnd by apply Qmake_Qdiv.
  assert ((n # d) * inject_Z (Z.pos d) == inject_Z n)%Q as Hmul.
  { rewrite Hnd. field. unfold Qeq. simpl. lia. }
  assert (pow2 a <= inject_Z n)%Q as HA1 by (rewrite pow2_Z by lia; by rewrite <- Zle_Qle).
  assert (inject_Z n < pow2 (a + 1))%Q as HA2
    by (rewrite pow2_Z by lia; rewrite <- Zlt_Qlt; unfold Z.succ in Ha2; lia).
  assert (pow2 b <= inject_Z (Z.pos d))%Q as HB1
    by (rewrite pow2_Z by lia; by rewrite <- Zle_Qle).
  assert (inject_Z (Z.pos d) < pow2 (b + 1))%Q as HB2
    by (rewrite pow2_Z by lia; rewrite <- Zlt_Qlt; unfold Z.succ in Hb2; lia).
  pose proof (pow2_pos b) as Hpb. pose proof (pow2_pos (b + 1)) as Hpb1.
  destruct (Qle_bool (pow2 (a - b)) (n # d)) eqn:E.
  - apply Qle_bool_iff in E. split; [exact E|].
    assert (pow2 (a - b + 1) * pow2 b == pow2 (a + 1))%Q as Hp
      by (rewrite <- pow2_add; f_equiv; lia).
    pose proof (pow2_pos (a - b + 1)) as Hp0.
    apply Qnot_le_lt. intros Hle.
    revert Hmul HA2 HB1 Hpb Hp Hp0 Hle Hq.
    generalize (pow2 (a - b + 1)) (pow2 b) (pow2 (a + 1)) (inject_Z n) (inject_Z (Z.pos d)) (n # d)%Q.
    intros P1 PB PA1 N D q. intros. nra.
  - assert (~ (pow2 (a - b) <= n # d)%Q) as Hlt by (rewrite <- Qle_bool_iff; congruence).
    apply Qnot_le_lt in Hlt. split.
    + assert (pow2 (a - b - 1) * pow2 (b + 1) == pow2 a)%Q as Hp
        by (rewrite <- pow2_add; f_equiv; lia).
      pose proof (pow2_pos (a - b - 1)) as Hp0.
      apply Qnot_lt_le. intros Hgt.
      revert Hmul HA1 HB2 Hpb1 Hp Hp0 Hgt Hq.
      generalize (pow2 (a - b - 1)) (pow2 (b + 1)) (pow2 a) (inject_Z n) (inject_Z (Z.pos d)) (n # d)%Q.
      intros P0 PB1 PA N D q. intros. nra.
    + replace (a - b - 1 + 1) with (a - b) by lia. exact Hlt.
Qed.

Lemma ilog2_unique (q : Q) (e : Z) :
  (pow2 e <= q)%Q -> (q < pow2 (e + 1))%Q -> ilog2 q = e.
Proof.
  intros Hlo Hhi.
  assert (0 < q)%Q as Hq by (eapply Qlt_le_trans; [apply (pow2_pos e)|exact Hlo]).
  destruct (ilog2_spec q Hq) as [Hlo' Hhi'].
  destruct (Z.lt_trichotomy (ilog2 q) e) as [Hlt|[Heq|Hgt]]; [|exact Heq|].
  - exfalso. assert (pow2 (ilog2 q + 1) <= pow2 e)%Q as H by (apply pow2_le; lia).
    apply (Qlt_irrefl q). eapply Qlt_le_trans; [exact Hhi'|].
    eapply Qle_trans; [exact H|exact Hlo].
  - exfalso. assert (pow2 (e + 1) <= pow2 (ilog2 q))%Q as H by (apply pow2_le; lia).
    apply (Qlt_irrefl q). eapply Qlt_le_trans; [exact Hhi|].
    eapply Qle_trans; [exact H|exact Hlo'].
Qed.

Lemma round_half_even_Z (x : Q) (m : Z) : (x == inject_Z m)%Q -> round_half_even x = m.
Proof.
  intros Hx. unfold round_half_even.
  assert (Qfloor x = m) as -> by (rewrite (Qfloor_comp _ _ Hx); apply Qfloor_Z).
  assert ((x - inject_Z m ?= 1 # 2)%Q = Lt) as ->; [|reflexivity].
  apply (proj1 (Qlt_alt _ _)). rewrite Hx. generalize (inject_Z m). intros y. lra.
Qed.

(** A positive number of at most 53 significant bits, not too small, is a
    double. *)
Lemma round_positive_exact (q : Q) (M k : Z) :
  0 < M <= 2 ^ 53 -> 0 <= k <= 1022 ->
  (q == inject_Z M * pow2 (- k))%Q ->
  exists r, round_positive q = JS.Fin r /\ (r == q)%Q.
Proof.
  intros HM Hk Hq.
  set (L := Z.log2 M).
  destruct (Z.log2_spec M (proj1 HM)) as [HL1 HL2]. fold L in HL1, HL2.
  assert (0 <= L) as HL0 by apply Z.log2_nonneg.
  assert (L <= 53) as HL53.
  { destruct (Z.le_gt_cases L 53) as [|Hgt]; [assumption|exfalso].
    assert (2 ^ 54 <= 2 ^ L) by (apply Z.pow_le_mono_r; lia).
    assert (2 ^ 53 < 2 ^ 54) by (apply Z.pow_lt_mono_r; lia). lia. }
  pose proof (pow2_pos (- k)) as Hpk.
  assert (ilog2 q = L - k) as Hlog.
  { apply ilog2_unique; rewrite Hq.
    - replace (L - k) with (L + - k) by lia. rewrite pow2_add, (pow2_Z L) by lia.
      apply Qmult_le_compat_r; [by rewrite <- Zle_Qle|by apply Qlt_le_weak].
    - replace (L - k + 1) with (L + 1 + - k) by lia. rewrite pow2_add, (pow2_Z (L + 1)) by lia.
      apply Qmult_lt_compat_r; [assumption|]. rewrite <- Zlt_Qlt. unfold Z.succ in HL2. lia. }
  assert (exists m, (inject_Z m == inject_Z M * pow2 (52 - L))%Q) as [m Hm].
  { destruct (Z.le_gt_cases L 52) as [Hle|Hgt].
    - exists (M * 2 ^ (52 - L)). rewrite inject_Z_mult, (pow2_Z (52 - L)) by lia. reflexivity.
    - assert (L = 53) as HL by lia. rewrite HL in *.
      assert (M = 2 ^ 53) as -> by lia. exists (2 ^ 52). reflexivity. }
  unfold round_positive. rewrite Hlog.
  replace (Z.max (L - k) (-1022)) with (L - k) by lia.
  set (ulp := pow2 (L - k - 52)).
  assert (0 < ulp)%Q as Hulp by apply pow2_pos.
  assert (pow2 (52 - L) * ulp == pow2 (- k))%Q as Hpow
    by (unfold ulp; rewrite <- pow2_add; f_equiv; lia).
  assert (q / ulp == inject_Z m)%Q as Hdiv.
  { rewrite Hm, Hq, <- Hpow. field. intros H0. rewrite H0 in Hulp. by apply Qlt_irrefl in Hulp. }
  rewrite (round_half_even_Z _ m Hdiv).
  assert (inject_Z m * ulp == q)%Q as Hr
    by (rewrite Hm, Hq, <- Hpow; ring).
  assert (Qle_bool (pow2 1024) (inject_Z m * ulp) = false) as ->.
  { apply not_true_is_false. rewrite Qle_bool_iff, Hr, Hq. apply Qlt_not_le.
    apply Qlt_le_trans with (inject_Z (2 ^ 54) * pow2 (- k))%Q.
    - apply Qmult_lt_compat_r; [assumption|]. rewrite <- Zlt_Qlt.
      assert (2 ^ 53 < 2 ^ 54) by (apply Z.pow_lt_mono_r; lia). lia.
    - rewrite <- (pow2_Z 54), <- pow2_add by lia. apply pow2_le. lia. }
  eexists. split; [reflexivity|exact Hr].
Qed.

Lemma sign_of_scaled (q : Q) (M : Z) (P : Q) :
  (0 < P)%Q -> (q == inject_Z M * P)%Q ->
  ((0 < q)%Q -> 0 < M) /\ ((q < 0)%Q -> M < 0).
Proof.
  intros HP Hq.
  destruct (Z.lt_trichotomy M 0) as [Hneg|[->|Hpos]].
  - assert (inject_Z M < 0)%Q as H by (by rewrite (Zlt_Qlt M 0) in Hneg).
    split; [intros Hq0; exfalso|done]. revert HP Hq H Hq0. generalize (inject_Z M).
    intros m. intros. nra.
  - split; intros Hq0; exfalso; rewrite Hq in Hq0; revert Hq0; unfold Qlt; simpl; lia.
  - assert (0 < inject_Z M)%Q as H by (by rewrite (Zlt_Qlt 0 M) in Hpos).
    split; [done|intros Hq0; exfalso]. revert HP Hq H Hq0. generalize (inject_Z M).
    intros m. intros. nra.
Qed.

(** A number of at most 53 significant bits, not too small, is a double. *)
Lemma to_double_exact (q : Q) (M k : Z) :
  - 2 ^ 53 <= M <= 2 ^ 53 -> 0 <= k <= 1022 ->
  (q == inject_Z M * pow2 (- k))%Q ->
  exists r, to_double q = JS.Fin r /\ (r == q)%Q.
Proof.
  intros HM Hk Hq. pose proof (pow2_pos (- k)) as Hpk.
  destruct (sign_of_scaled q M _ Hpk Hq) as [Hpos Hneg]. unfold to_double.
  destruct (q ?= 0)%Q eqn:E.
  - apply (proj2 (Qeq_alt _ _)) in E. exists 0%Q. split; [reflexivity|by symmetry].
  - apply (proj2 (Qlt_alt _ _)) in E. specialize (Hneg E).
    destruct (round_positive_exact (- q) (- M) k) as (r & Hr & Hrq); [lia|assumption| |].
    + rewrite Hq, inject_Z_opp. ring.
    + rewrite Hr. exists (- r)%Q. split; [reflexivity|]. rewrite Hrq. ring.
  - apply (proj2 (Qgt_alt _ _)) in E. specialize (Hpos E).
    apply (round_positive_exact q M k); [lia|assumption|assumption].
Qed.

End Doubles.

(** ** Phase 1: the X shape *)

Section NumberValues.
Import Polyanets.

Lemma has_value_of_Z (z : Z) : has_value (JS.of_Z z) z.
Proof. exists (inject_Z z). split; reflexivity. Qed.

Lemma has_value_isInteger (a : JS.number) (z : Z) : has_value a z -> JS.isInteger a = true.
Proof. intros (x & -> & Hx). apply isInteger_spec. eauto. Qed.

Lemma has_value_floor (x : Q) (z : Z) : x == inject_Z z -> Qfloor x = z.
Proof. intros ->. apply Qfloor_Z. Qed.

Lemma has_value_unique (a : JS.number) (z z' : Z) : has_value a z -> has_value a z' -> z = z'.
Proof.
  intros (x & -> & Hx) (x' & [= <-] & Hx').
  apply has_value_floor in Hx, Hx'. congruence.
Qed.

Lemma to_double_integer (q : Q) (z : Z) :
  safe_integer z -> q == inject_Z z -> has_value (to_double q) z.
Proof.
  intros Hz Hq.
  destruct (to_double_exact q z 0) as (r & -> & Hr); [exact Hz|lia| |].
  - rewrite Hq. change (pow2 (- 0)) with 1%Q. ring.
  - exists r. split; [reflexivity|]. by rewrite Hr.
Qed.

Lemma has_value_add (a b : JS.number) (x y : Z) :
  has_value a x -> has_value b y -> safe_integer (x + y) ->
  has_value (add a b) (x + y).
Proof.
  intros (qa & -> & Ha) (qb & -> & Hb) Hsafe. cbn [add].
  apply to_double_integer; [exact Hsafe|]. by rewrite Ha, Hb, inject_Z_plus.
Qed.

Lemma has_value_neg (a : JS.number) (x : Z) : has_value a x -> has_value (neg a) (- x).
Proof.
  intros (qa & -> & Ha). exists (- qa)%Q. split; [reflexivity|].
  by rewrite Ha, inject_Z_opp.
Qed.

Lemma has_value_sub (a b : JS.number) (x y : Z) :
  has_value a x -> has_value b y -> safe_integer (x - y) ->
  has_value (sub a b) (x - y).
Proof. intros Ha Hb Hsafe. apply has_value_add; [assumption|by apply has_value_neg|exact Hsafe]. Qed.

Lemma has_value_half (a : JS.number) (n : Z) :
  has_value a n -> safe_integer n -> has_value (Math_floor (halve a)) (n / 2).
Proof.
  intros (x & -> & Hx) Hsafe. cbn [halve].
  destruct (to_double_exact (x / 2) n 1) as (r & -> & Hr); [exact Hsafe|lia| |].
  - rewrite Hx. change (pow2 (- 1)) with (/ 2)%Q. reflexivity.
  - change (Math_floor (JS.Fin r)) with (JS.of_Z (Qfloor r)).
    replace (Qfloor r) with (n / 2)%Z; [apply has_value_of_Z|].
    rewrite Zdiv_Qdiv. apply Qfloor_comp. by rewrite Hr, Hx.
Qed.

Lemma has_value_le (a b : JS.number) (x y : Z) :
  has_value a x -> has_value b y -> JS.le a b = (x <=? y)%Z.
Proof.
  intros (qa & -> & Ha) (qb & -> & Hb). simpl.
  rewrite <- Qle_bool_inject_Z. by rewrite Ha, Hb.
Qed.

Lemma has_value_lt (a b : JS.number) (x y : Z) :
  has_value a x -> has_value b y -> JS.lt a b = (x <? y)%Z.
Proof.
  intros (qa & -> & Ha) (qb & -> & Hb). simpl.
  rewrite Ha, Hb, Qle_bool_inject_Z.
  destruct (Z.leb_spec y x), (Z.ltb_spec x y); simpl; lia || reflexivity.
Qed.

Lemma inBounds_in_grid (grid : Grid) (p : Point) (sz : Z) (cell : Z * Z) :
  has_value (size grid) sz -> at_cell p cell ->
  inBounds grid p = in_grid sz cell.
Proof.
  intros Hsz [Hr Hc]. unfold inBounds, in_grid, JS.ge.
  rewrite (has_value_isInteger _ _ Hr), (has_value_isInteger _ _ Hc).
  rewrite (has_value_le _ _ _ _ (has_value_of_Z 0) Hr),
          (has_value_le _ _ _ _ (has_value_of_Z 0) Hc),
          (has_value_lt _ _ _ _ Hr Hsz), (has_value_lt _ _ _ _ Hc Hsz).
  reflexivity.
Qed.

End NumberValues.

Section CrossLoop.
Import Polyanets.

Variables (grid : Grid) (center : Point) (sz cr cc h : Z).
Hypothesis Hsize : has_value (size grid) sz.
Hypothesis Hcenter : at_cell center (cr, cc).
Hypothesis Hrows : Z.abs cr + h <= 2 ^ 53.
Hypothesis Hcolumns : Z.abs cc + h <= 2 ^ 53.

Lemma push_pair_cells (d : JS.number) (dz : Z) (pts : list Point) (cells : list (Z * Z)) :
  has_value d dz ->
  - h <= dz <= h ->
  Forall2 at_cell pts cells ->
  Forall2 at_cell (push_pair grid center d pts)
    (cells ++ List.filter (in_grid sz) (pair_cells cr cc dz)).
Proof.
  intros Hd Hdz Hpts. destruct Hcenter as [Hr Hc]. simpl in Hr, Hc. unfold push_pair.
  set (a := {| row := add (row center) d; column := add (column center) d |}).
  set (b := {| row := add (row center) d; column := sub (column center) d |}).
  assert (at_cell a (cr + dz, cc + dz)) as Ha
    by (split; simpl; apply has_value_add; try assumption; unfold safe_integer; lia).
  assert (at_cell b (cr + dz, cc - dz)) as Hb
    by (split; simpl; [apply has_value_add|apply has_value_sub]; try assumption;
        unfold safe_integer; lia).
  rewrite (inBounds_in_grid grid a sz _ Hsize Ha), (inBounds_in_grid grid b sz _ Hsize Hb).
  unfold pair_cells. cbn [List.filter].
  destruct (in_grid sz (cr + dz, cc + dz)), (in_grid sz (cr + dz, cc - dz)).
  - rewrite <- app_assoc. apply Forall2_app; [assumption|].
    constructor; [assumption|]. constructor; [assumption|]. constructor.
  - apply Forall2_app; [assumption|]. constructor; [assumption|]. constructor.
  - apply Forall2_app; [assumption|]. constructor; [assumption|]. constructor.
  - by rewrite app_nil_r.
Qed.

Lemma points_loop_cells (half : JS.number) :
  has_value half h ->
  h < 2 ^ 53 ->
  forall (k fuel : nat) (d : JS.number) (dz : Z) (pts : list Point) (cells : list (Z * Z)),
    has_value d dz ->
    - h <= dz ->
    dz + Z.of_nat k = h + 1 ->
    (k < fuel)%nat ->
    Forall2 at_cell pts cells ->
    exists pts',
      points_loop fuel grid center half d pts = Some pts'
      /\ Forall2 at_cell pts'
           (cells ++ List.filter (in_grid sz)
                       (List.flat_map (pair_cells cr cc) (zrange dz k))).
Proof.
  intros Hhalf Hh. induction k as [|k IH]; intros fuel d dz pts cells Hd Hlo Hk Hfuel Hpts;
    (destruct fuel as [|fuel]; [lia|]); cbn [points_loop];
    rewrite (has_value_le d half dz h Hd Hhalf).
  - destruct (Z.leb_spec dz h); [lia|]. exists pts. split; [reflexivity|].
    simpl. by rewrite app_nil_r.
  - destruct (Z.leb_spec dz h); [|lia].
    destruct (IH fuel (add d (JS.of_Z 1)) (dz + 1) (push_pair grid center d pts)
                (cells ++ List.filter (in_grid sz) (pair_cells cr cc dz)))
      as (pts' & Hloop & Hcells).
    + apply has_value_add; [assumption|apply has_value_of_Z|unfold safe_integer; lia].
    + lia.
    + lia.
    + lia.
    + apply push_pair_cells; [assumption|lia|assumption].
    + exists pts'. split; [assumption|].
      cbn [zrange List.flat_map]. rewrite List.filter_app, app_assoc. exact Hcells.
Qed.

End CrossLoop.

Section CrossKeys.
Import Polyanets.

Lemma string_of_uint_comma_free (d : Decimal.uint) :
  comma_free (NilEmpty.string_of_uint d).
Proof. induction d; simpl; try split; try assumption; discriminate. Qed.

Lemma string_of_uint_inj (d d' : Decimal.uint) :
  NilEmpty.string_of_uint d = NilEmpty.string_of_uint d' -> d = d'.
Proof.
  intros H. apply (f_equal NilEmpty.uint_of_string) in H.
  rewrite !NilEmpty.usu in H. congruence.
Qed.

Lemma show_inj (n m : nat) : JS.show n = JS.show m -> n = m.
Proof.
  unfold JS.show. intros H%string_of_uint_inj.
  apply (f_equal Nat.of_uint) in H. by rewrite !Unsigned.of_to in H.
Qed.

Lemma split_at_comma (s s' t t' : string) :
  comma_free s -> comma_free s' ->
  (s ++ String "," t = s' ++ String "," t')%string ->
  s = s' /\ t = t'.
Proof.
  revert s'. induction s as [|c s IH]; intros [|c' s']; cbn [comma_free String.append].
  - intros _ _ [= ->]. done.
  - intros _ [Hc _] [= Heq _]. by destruct Hc.
  - intros [Hc _] _ [= Heq _]. by destruct Hc.
  - intros [_ Hs] [_ Hs'] [= -> H]. destruct (IH s' Hs Hs' H) as [-> ->]. done.
Qed.

Lemma key_of_inj (cell cell' : Z * Z) :
  non_negative cell -> non_negative cell' ->
  key_of cell = key_of cell' -> cell = cell'.
Proof.
  destruct cell as [r c], cell' as [r' c']. unfold non_negative, key_of. simpl.
  intros [Hr Hc] [Hr' Hc'] H.
  change (JS.show (Z.to_nat r) ++ String "," (JS.show (Z.to_nat c))
          = JS.show (Z.to_nat r') ++ String "," (JS.show (Z.to_nat c')))%string in H.
  apply split_at_comma in H as [Hrow%show_inj Hcol%show_inj];
    try apply string_of_uint_comma_free.
  f_equal; lia.
Qed.

Lemma to_string_value (a : JS.number) (z : Z) :
  has_value a z -> (0 <= z)%Z -> to_string a = JS.show (Z.to_nat z).
Proof.
  intros Ha Hz. pose proof (has_value_isInteger a z Ha) as Hint.
  destruct Ha as (x & -> & Hx). unfold to_string. rewrite Hint.
  rewrite (has_value_floor x z Hx). by destruct (Z.leb_spec 0 z); [|lia].
Qed.

Lemma key_at_cell (p : Point) (cell : Z * Z) :
  at_cell p cell -> non_negative cell -> key p = key_of cell.
Proof.
  intros [Hr Hc] [Hr0 Hc0]. unfold key, key_of.
  by rewrite (to_string_value _ _ Hr Hr0), (to_string_value _ _ Hc Hc0).
Qed.

(** Filtering points by the keys seen is filtering their cells by the
    cells seen. *)
Lemma filter_unseen_cells (pts : list Point) (cells : list (Z * Z)) :
  Forall2 at_cell pts cells ->
  Forall non_negative cells ->
  forall (seen : gset string) (seenZ : list (Z * Z)),
    Forall non_negative seenZ ->
    (forall s, s ∈ seen <-> exists cell, cell ∈ seenZ /\ s = key_of cell) ->
    Forall2 at_cell (filter_unseen seen pts) (first_seen seenZ cells).
Proof.
  induction 1 as [|p cell pts cells Hp _ IH]; intros Hnn seen seenZ HseenZ Hseen.
  - constructor.
  - apply Forall_cons in Hnn as [Hcell Hnn]. cbn [filter_unseen first_seen].
    rewrite (key_at_cell p cell Hp Hcell).
    destruct (decide (key_of cell ∈ seen)) as [Hin|Hout].
    + apply Hseen in Hin as (cell' & Hin' & Heq).
      apply key_of_inj in Heq; [|assumption|by eapply Forall_forall in HseenZ].
      subst cell'. rewrite decide_True by assumption. by apply IH.
    + rewrite decide_False.
      * constructor; [assumption|]. apply IH; [assumption|by constructor|].
        intros s. rewrite elem_of_union, elem_of_singleton, Hseen. split.
        -- intros [->|(cell' & ? & ->)].
           ++ exists cell. split; [apply list_elem_of_here|reflexivity].
           ++ exists cell'. split; [by apply list_elem_of_further|reflexivity].
        -- intros (cell' & [->|Hin]%elem_of_cons & ->); [by left|right; eauto].
      * intros Hin. apply Hout, Hseen. eauto.
Qed.

End CrossKeys.

Section CrossCells.
Import Polyanets.

Lemma first_seen_new (seen : list (Z * Z)) (cell : Z * Z) (cells : list (Z * Z)) :
  cell ∉ seen -> first_seen seen (cell :: cells) = cell :: first_seen (cell :: seen) cells.
Proof. intros H. cbn [first_seen]. by rewrite decide_False. Qed.

Lemma first_seen_old (seen : list (Z * Z)) (cell : Z * Z) (cells : list (Z * Z)) :
  cell ∈ seen -> first_seen seen (cell :: cells) = first_seen seen cells.
Proof. intros H. cbn [first_seen]. by rewrite decide_True. Qed.

(** Rows only grow along the loop, so a cell can only repeat within its own
    pair, which it does at the centre. *)
Lemma first_seen_cross (sz cr cc : Z) :
  forall (k : nat) (dz : Z) (seen : list (Z * Z)),
    (forall cell, cell ∈ seen -> cell.1 < cr + dz) ->
    first_seen seen
      (List.filter (in_grid sz) (List.flat_map (pair_cells cr cc) (zrange dz k)))
    = List.filter (in_grid sz) (List.flat_map (diagonal_cells cr cc) (zrange dz k)).
Proof.
  induction k as [|k IH]; intros dz seen Hseen; [reflexivity|].
  cbn [zrange List.flat_map]. rewrite !List.filter_app.
  assert (forall y, (cr + dz, y) ∉ seen) as Hfresh
    by (intros y Hin; apply Hseen in Hin; simpl in Hin; lia).
  assert (forall seen' : list (Z * Z),
            (forall cell, cell ∈ seen' -> cell ∈ seen \/ cell.1 = cr + dz) ->
            forall cell, cell ∈ seen' -> cell.1 < cr + (dz + 1)) as Hnext.
  { intros seen' Hsub cell [Hin| ->]%Hsub; [apply Hseen in Hin|]; lia. }
  unfold pair_cells, diagonal_cells. destruct (decide (dz = 0)) as [->|Hdz].
  - rewrite !Z.add_0_r, Z.sub_0_r. cbn [List.filter].
    destruct (in_grid sz (cr, cc)); cbn [app].
    + rewrite first_seen_new by (specialize (Hfresh cc); by rewrite Z.add_0_r in Hfresh).
      rewrite first_seen_old by apply list_elem_of_here.
      f_equal. apply IH. apply Hnext.
      intros cell [->|Hin]%elem_of_cons; [right; simpl; lia|by left].
    + apply IH. apply Hnext. by left.
  - cbn [List.filter].
    destruct (in_grid sz (cr + dz, cc + dz)), (in_grid sz (cr + dz, cc - dz)); cbn [app].
    + rewrite first_seen_new by apply Hfresh.
      rewrite first_seen_new
        by (intros [[=]|Hin]%elem_of_cons; [lia|by apply Hfresh in Hin]).
      do 2 f_equal. apply IH. apply Hnext.
      intros cell [->|[->|Hin]%elem_of_cons]%elem_of_cons; [by right|by right|by left].
    + rewrite first_seen_new by apply Hfresh. f_equal. apply IH. apply Hnext.
      intros cell [->|Hin]%elem_of_cons; [by right|by left].
    + rewrite first_seen_new by apply Hfresh. f_equal. apply IH. apply Hnext.
      intros cell [->|Hin]%elem_of_cons; [by right|by left].
    + apply IH. apply Hnext. by left.
Qed.

Lemma in_grid_non_negative (sz : Z) (cells : list (Z * Z)) :
  Forall non_negative (List.filter (in_grid sz) cells).
Proof.
  apply Forall_forall. intros cell [_ Hin]%list_elem_of_In%filter_In.
  unfold in_grid in Hin. unfold non_negative. lia.
Qed.

Lemma new_XShape_Ok (boxSize : JS.number) (center : Point) (shape : XShape) (n : Z) :
  new_XShape boxSize center = Ok shape ->
  has_value boxSize n ->
  shape = {| boxSize := boxSize; center := center |} /\ 0 < n /\ Z.odd n = true.
Proof.
  unfold new_XShape. intros H Hn.
  rewrite (has_value_isInteger _ _ Hn), (has_value_le _ _ _ _ Hn (has_value_of_Z 0)) in H.
  destruct Hn as (x & -> & Hx). unfold remainder_by_2_is_0 in H.
  rewrite (proj2 (isInteger_spec (JS.Fin x))) in H by eauto.
  rewrite (has_value_floor x n Hx) in H.
  destruct (Z.leb_spec n 0); simpl in H; [discriminate|].
  destruct (Z.even n) eqn:Heven; simpl in H; [discriminate|].
  injection H as <-. split_and!; [reflexivity|assumption|].
  by rewrite <- Z.negb_even, Heven.
Qed.

Lemma odd_half (n : Z) : Z.odd n = true -> n = 2 * (n / 2) + 1.
Proof.
  intros Hodd. rewrite (Z.div_mod n 2) at 1 by lia.
  rewrite Zmod_odd, Hodd. reflexivity.
Qed.

End CrossCells.

Lemma points_cross_cells (size boxSize : JS.number) (center : Polyanets.Point)
    (grid : Polyanets.Grid) (shape : Polyanets.XShape) (sz n cr cc : Z) (fuel : nat) :
  Polyanets.new_Grid size = Ok grid ->
  Polyanets.new_XShape boxSize center = Ok shape ->
  has_value size sz ->
  has_value boxSize n ->
  at_cell center (cr, cc) ->
  n <= 2 ^ 53 ->
  Z.abs cr + n / 2 <= 2 ^ 53 ->
  Z.abs cc + n / 2 <= 2 ^ 53 ->
  (Z.to_nat n < fuel)%nat ->
  exists pts,
    Polyanets.points fuel shape grid = Some pts
    /\ Forall2 at_cell pts (cross_cells sz n cr cc).
Proof.
  intros Hgrid Hshape Hsz Hn Hcenter Hbox Hrows Hcolumns Hfuel.
  assert (grid = {| Polyanets.size := size |}) as ->.
  { unfold Polyanets.new_Grid in Hgrid.
    destruct (negb (JS.isInteger size) || JS.le size (JS.of_Z 0)); [discriminate|].
    by injection Hgrid as <-. }
  destruct (new_XShape_Ok _ _ _ n Hshape Hn) as (-> & Hpos & Hodd).
  pose proof (odd_half n Hodd) as Hhalf.
  assert (safe_integer n) as Hsafe by (unfold safe_integer; lia).
  unfold Polyanets.points. cbn [Polyanets.boxSize Polyanets.center].
  pose proof (has_value_half boxSize n Hn Hsafe) as Hh.
  destruct (points_loop_cells {| Polyanets.size := size |} center sz cr cc (n / 2)
              Hsz Hcenter Hrows Hcolumns
              (Polyanets.Math_floor (Polyanets.halve boxSize)) Hh ltac:(lia)
              (Z.to_nat n) fuel
              (Polyanets.neg (Polyanets.Math_floor (Polyanets.halve boxSize)))
              (- (n / 2)) [] [])
    as (pts0 & Hloop & Hcells); [by apply has_value_neg|lia|lia|lia|constructor|].
  rewrite Hloop. cbn [mbind option_bind]. eexists. split; [reflexivity|].
  unfold cross_cells. rewrite <- (first_seen_cross sz cr cc (Z.to_nat n) (- (n / 2)) [])
    by (intros cell Hin; by apply elem_of_nil in Hin).
  apply filter_unseen_cells.
  - exact Hcells.
  - apply in_grid_non_negative.
  - constructor.
  - intros s. split.
    + intros Hin. by apply elem_of_empty in Hin.
    + intros (cell & Hin & _). by apply elem_of_nil in Hin.
Qed.

Section CrossMembership.
Import Polyanets.

Lemma elem_of_zrange (k : nat) : forall (a z : Z), z ∈ zrange a k <-> a <= z < a + Z.of_nat k.
Proof.
  induction k as [|k IH]; intros a z; cbn [zrange].
  - rewrite elem_of_nil. lia.
  - rewrite elem_of_cons, IH. lia.
Qed.

Lemma first_seen_spec (cells : list (Z * Z)) :
  forall seen : list (Z * Z),
    NoDup (first_seen seen cells)
    /\ forall cell, cell ∈ first_seen seen cells <-> cell ∈ cells /\ cell ∉ seen.
Proof.
  induction cells as [|x cells IH]; intros seen; cbn [first_seen].
  - split; [constructor|]. intros cell. rewrite elem_of_nil. tauto.
  - destruct (decide (x ∈ seen)) as [Hin|Hout].
    + destruct (IH seen) as [Hnd Hmem]. split; [assumption|].
      intros cell. rewrite Hmem, elem_of_cons. split; [tauto|].
      intros [[->|?] ?]; tauto.
    + destruct (IH (x :: seen)) as [Hnd Hmem]. split.
      * constructor; [|assumption]. rewrite Hmem, elem_of_cons. tauto.
      * intros cell. rewrite !elem_of_cons, Hmem, elem_of_cons.
        destruct (decide (cell = x)) as [->|]; tauto.
Qed.

Lemma cross_cells_spec (sz n cr cc : Z) :
  NoDup (cross_cells sz n cr cc)
  /\ forall cell : Z * Z,
      cell ∈ cross_cells sz n cr cc
      <-> in_grid sz cell = true
          /\ exists d, - (n / 2) <= d < - (n / 2) + Z.of_nat (Z.to_nat n)
                       /\ cell.1 = cr + d /\ (cell.2 = cc + d \/ cell.2 = cc - d).
Proof.
  unfold cross_cells.
  rewrite <- (first_seen_cross sz cr cc (Z.to_nat n) (- (n / 2)) [])
    by (intros cell Hin; by apply elem_of_nil in Hin).
  destruct (first_seen_spec
              (List.filter (in_grid sz)
                 (List.flat_map (pair_cells cr cc) (zrange (- (n / 2)) (Z.to_nat n)))) [])
    as [Hnd Hmem].
  split; [assumption|]. intros cell. rewrite Hmem.
  rewrite list_elem_of_In, filter_In, in_flat_map. split.
  - intros [[(d & Hd & Hin) Hgrid] _]. split; [assumption|]. exists d.
    apply list_elem_of_In, elem_of_zrange in Hd. split; [assumption|].
    unfold pair_cells in Hin. simpl in Hin. destruct Hin as [<-|[<-|[]]]; simpl; auto.
  - intros [Hgrid (d & Hd & Hrow & Hcol)]. split; [|by intros ?%elem_of_nil].
    split; [|assumption]. exists d. split; [by apply list_elem_of_In, elem_of_zrange|].
    destruct cell as [r c]. simpl in *. subst r. destruct Hcol as [->| ->]; auto.
Qed.

End CrossMembership.

(** X9.  For a grid of size [sz], an X of odd box size [n] and a centre
    with integer coordinates [(cr, cc)], all small enough for the sums
    [center.row + d] and [center.column +/- d] to be exact ([n], and every
    coordinate of the box, within 2^53 in magnitude), [points] returns,
    after [n] passes of its loop, exactly the cells of the two diagonals of
    the box that lie in the grid: row by row from the top, the falling
    diagonal's cell before the rising one's, the centre once.  So no cell
    is returned twice, and a cell is returned exactly when it is in the
    grid and on a diagonal through the centre, at most half the box size
    away.  (Beyond 2^53 the sums round, and points of the box merge.) *)
Theorem XShape_points_are_the_cross (size boxSize : JS.number) (center : Polyanets.Point)
    (grid : Polyanets.Grid) (shape : Polyanets.XShape) (sz n cr cc : Z) (fuel : nat) :
  Polyanets.new_Grid size = Ok grid ->
  Polyanets.new_XShape boxSize center = Ok shape ->
  has_value size sz ->
  has_value boxSize n ->
  at_cell center (cr, cc) ->
  n <= 2 ^ 53 ->
  Z.abs cr + n / 2 <= 2 ^ 53 ->
  Z.abs cc + n / 2 <= 2 ^ 53 ->
  (Z.to_nat n < fuel)%nat ->
  exists pts,
    Polyanets.points fuel shape grid = Some pts
    /\ Forall2 at_cell pts (cross_cells sz n cr cc)
    /\ NoDup (cross_cells sz n cr cc)
    /\ forall r c : Z,
        (r, c) ∈ cross_cells sz n cr cc
        <-> (0 <= r < sz /\ 0 <= c < sz)
            /\ exists d, - (n / 2) <= d <= n / 2
                         /\ r = cr + d /\ (c = cc + d \/ c = cc - d).
Proof.
  intros Hgrid Hshape Hsz Hn Hcenter Hbox Hrows Hcolumns Hfuel.
  destruct (new_XShape_Ok _ _ _ n Hshape Hn) as (_ & Hpos & Hodd).
  pose proof (odd_half n Hodd) as Hhalf.
  destruct (points_cross_cells size boxSize center grid shape sz n cr cc fuel
              Hgrid Hshape Hsz Hn Hcenter Hbox Hrows Hcolumns Hfuel)
    as (pts & Hpts & Hcells).
  destruct (cross_cells_spec sz n cr cc) as [Hnd Hmem].
  exists pts. split_and!; try assumption.
  intros r c. rewrite Hmem. unfold in_grid. simpl. split.
  - intros [Hg (d & Hd & Hr & Hc)]. split; [lia|]. exists d. split_and!; try assumption; lia.
  - intros [Hg (d & Hd & Hr & Hc)]. split; [lia|]. exists d. split_and!; try assumption; lia.
Qed.

(** The script's own configuration: size 11, box 7, centre (5, 5). *)
Lemma XShape_points_are_the_cross_witness :
  exists pts,
    Polyanets.points 8 {| Polyanets.boxSize := Polyanets.X_SIZE;
                          Polyanets.center := Polyanets.CENTER |}
      {| Polyanets.size := Polyanets.GRID_SIZE |} = Some pts
    /\ Forall2 at_cell pts (cross_cells 11 7 5 5)
    /\ NoDup (cross_cells 11 7 5 5)
    /\ forall r c : Z,
        (r, c) ∈ cross_cells 11 7 5 5
        <-> (0 <= r < 11 /\ 0 <= c < 11)
            /\ exists d, - (7 / 2) <= d <= 7 / 2
                         /\ r = 5 + d /\ (c = 5 + d \/ c = 5 - d).
Proof.
  apply (XShape_points_are_the_cross Polyanets.GRID_SIZE Polyanets.X_SIZE Polyanets.CENTER
           {| Polyanets.size := Polyanets.GRID_SIZE |}
           {| Polyanets.boxSize := Polyanets.X_SIZE; Polyanets.center := Polyanets.CENTER |}
           11 7 5 5 8 eq_refl eq_refl).
  - apply has_value_of_Z.
  - apply has_value_of_Z.
  - split; apply has_value_of_Z.
  - by vm_compute.
  - by vm_compute.
  - by vm_compute.
  - cbv. lia.
Defined.

Section CrossEdges.
Import Polyanets.

Lemma pow2_cancel (k : Z) : pow2 (- k) * pow2 k == 1.
Proof. rewrite <- pow2_add. by replace (- k + k) with 0 by lia. Qed.

Lemma odd_multiple_not_integer (r : Q) (M k : Z) :
  1 <= k -> Z.odd M = true -> r == inject_Z M * pow2 (- k) ->
  JS.isInteger (JS.Fin r) = false.
Proof.
  intros Hk Hodd Hr. apply not_true_is_false.
  intros (q & z & [= <-] & Hq)%isInteger_spec.
  assert (inject_Z (z * 2 ^ k) == inject_Z M) as Heq.
  { rewrite inject_Z_mult, <- (pow2_Z k) by lia. rewrite <- Hq, Hr.
    rewrite <- Qmult_assoc, pow2_cancel. ring. }
  assert (z * 2 ^ k = M) as HM by (revert Heq; unfold Qeq; simpl; lia).
  replace k with (Z.succ (k - 1)) in HM by lia. rewrite Z.pow_succ_r in HM by lia.
  assert (Z.odd M = Z.odd (0 + 2 * (z * 2 ^ (k - 1)))) as H by (f_equal; lia).
  rewrite Z.odd_add_mul_2 in H. simpl in H. congruence.
Qed.

Lemma isInteger_add_off (h : Z) (a d : JS.number) (dz : Z) :
  off_lattice h a -> has_value d dz -> - h <= dz <= h ->
  JS.isInteger (add a d) = false.
Proof.
  intros [->|[->|[->|(x & M & k & -> & Hk & Hodd & Hx & Hroom)]]] (qd & -> & Hd) Hdz;
    try reflexivity.
  cbn [add].
  assert (0 < 2 ^ k) as Hpow by (apply Z.pow_pos_nonneg; lia).
  assert (x + qd == inject_Z (M + dz * 2 ^ k) * pow2 (- k)) as Hsum.
  { rewrite inject_Z_plus, inject_Z_mult, <- (pow2_Z k), Hx, Hd by lia.
    rewrite Qmult_plus_distr_l, <- (Qmult_assoc (inject_Z dz)), (Qmult_comm (pow2 k)),
      pow2_cancel. ring. }
  destruct (to_double_exact (x + qd) (M + dz * 2 ^ k) k) as (r & -> & Hr).
  - nia.
  - lia.
  - exact Hsum.
  - apply (odd_multiple_not_integer r (M + dz * 2 ^ k) k); [lia| |by rewrite Hr].
    replace k with (Z.succ (k - 1)) by lia. rewrite Z.pow_succ_r by lia.
    replace (M + dz * (2 * 2 ^ (k - 1))) with (M + 2 * (dz * 2 ^ (k - 1))) by lia.
    by rewrite Z.odd_add_mul_2.
Qed.

Lemma push_pair_off_lattice (grid : Grid) (center : Point) (h : Z) (d : JS.number) (dz : Z)
    (pts : list Point) :
  off_lattice h (row center) \/ off_lattice h (column center) ->
  has_value d dz ->
  - h <= dz <= h ->
  push_pair grid center d pts = pts.
Proof.
  intros Hoff Hd Hdz. unfold push_pair, inBounds, sub. cbn [row column].
  destruct Hoff as [Hrow|Hcol].
  - rewrite (isInteger_add_off _ _ _ _ Hrow Hd Hdz). reflexivity.
  - rewrite (isInteger_add_off _ _ _ _ Hcol Hd Hdz),
            (isInteger_add_off _ _ _ _ Hcol (has_value_neg _ _ Hd) ltac:(lia)).
    by rewrite !andb_false_r.
Qed.

Lemma points_loop_off_lattice (grid : Grid) (center : Point) (half : JS.number) (h : Z) :
  off_lattice h (row center) \/ off_lattice h (column center) ->
  has_value half h ->
  h < 2 ^ 53 ->
  forall (k fuel : nat) (d : JS.number) (dz : Z) (pts : list Point),
    has_value d dz ->
    - h <= dz ->
    dz + Z.of_nat k = h + 1 ->
    (k < fuel)%nat ->
    points_loop fuel grid center half d pts = Some pts.
Proof.
  intros Hoff Hhalf Hh. induction k as [|k IH]; intros fuel d dz pts Hd Hlo Hk Hfuel;
    (destruct fuel as [|fuel]; [lia|]); cbn [points_loop];
    rewrite (has_value_le d half dz h Hd Hhalf).
  - by destruct (Z.leb_spec dz h); [lia|].
  - destruct (Z.leb_spec dz h); [|lia].
    rewrite (push_pair_off_lattice grid center h d dz pts Hoff Hd) by lia.
    apply (IH fuel _ (dz + 1)); [|lia|lia|lia].
    apply has_value_add; [assumption|apply has_value_of_Z|unfold safe_integer; lia].
Qed.

Lemma new_Grid_Ok_size (size : JS.number) (grid : Grid) :
  new_Grid size = Ok grid ->
  grid = {| size := size |} /\ positive_integer size.
Proof.
  unfold new_Grid. rewrite positive_integer_test.
  destruct (JS.isInteger size), (JS.le size (JS.of_Z 0)); simpl; intros [= <-]; auto.
Qed.

Lemma positive_integer_has_value (a : JS.number) :
  positive_integer a <-> exists z, has_value a z /\ 0 < z.
Proof.
  unfold positive_integer, has_value. split.
  - intros (q & z & -> & Hq & Hz). eauto.
  - intros (z & (q & -> & Hq) & Hz). eauto.
Qed.

End CrossEdges.

(** X10.  Phase 1's constructors and bounds test.  [Grid] throws exactly
    when the size is not a positive integer, [XShape] exactly when the box
    size is not a positive odd integer; and a point is in bounds of a
    constructed grid exactly when both its coordinates are integers from 0
    to the size less one. *)
Theorem phase1_shapes_validate :
  (forall size : JS.number,
      Polyanets.new_Grid size = Err (Error "Grid size must be a positive integer")
      <-> ~ positive_integer size)
  /\ (forall (boxSize : JS.number) (center : Polyanets.Point),
      Polyanets.new_XShape boxSize center
      = Err (Error "XShape.boxSize must be a positive odd integer")
      <-> ~ exists n, has_value boxSize n /\ 0 < n /\ Z.odd n = true)
  /\ (forall (size : JS.number) (grid : Polyanets.Grid) (p : Polyanets.Point),
      Polyanets.new_Grid size = Ok grid ->
      Polyanets.inBounds grid p = true
      <-> exists sz r c,
            has_value size sz /\ at_cell p (r, c) /\ 0 <= r < sz /\ 0 <= c < sz).
Proof.
  split_and!.
  - intros size. unfold Polyanets.new_Grid. rewrite positive_integer_test.
    destruct (JS.isInteger size), (JS.le size (JS.of_Z 0)); simpl;
      (split; [intros Heq; try discriminate Heq; intros [? ?]; discriminate
              |intros H; try reflexivity; exfalso; apply H; auto]).
  - intros boxSize center. split.
    + intros Herr (n & Hn & Hpos & Hodd). unfold Polyanets.new_XShape in Herr.
      rewrite (has_value_isInteger _ _ Hn), (has_value_le _ _ _ _ Hn (has_value_of_Z 0))
        in Herr.
      destruct Hn as (x & -> & Hx). unfold Polyanets.remainder_by_2_is_0 in Herr.
      rewrite (proj2 (isInteger_spec (JS.Fin x))) in Herr by eauto.
      rewrite (has_value_floor x n Hx) in Herr.
      destruct (Z.leb_spec n 0); [lia|]. rewrite <- Z.negb_odd, Hodd in Herr.
      discriminate.
    + intros Hnot. destruct (Polyanets.new_XShape boxSize center) as [shape|e] eqn:E.
      * exfalso. apply Hnot. unfold Polyanets.new_XShape in E.
        destruct (JS.isInteger boxSize) eqn:Hint; [|discriminate].
        apply isInteger_spec in Hint as (x & n & -> & Hx).
        assert (has_value (JS.Fin x) n) as Hn by (exists x; auto).
        destruct (new_XShape_Ok (JS.Fin x) center shape n) as (_ & ? & ?); [|assumption|eauto].
        unfold Polyanets.new_XShape. rewrite (has_value_isInteger _ _ Hn). exact E.
      * unfold Polyanets.new_XShape in E.
        destruct (_ || _); [by injection E as <-|discriminate].
  - intros size grid p [-> (sz & Hsz & Hpos)%positive_integer_has_value]%new_Grid_Ok_size.
    split.
    + intros Hin. unfold Polyanets.inBounds in Hin.
      apply andb_prop in Hin as [Hin Hc2]. apply andb_prop in Hin as [Hin Hc1].
      apply andb_prop in Hin as [Hin Hr2]. apply andb_prop in Hin as [Hin Hr1].
      apply andb_prop in Hin as [Hri Hci].
      apply isInteger_spec in Hri as (qr & r & Er & Hr).
      apply isInteger_spec in Hci as (qc & c & Ec & Hc).
      assert (has_value (Polyanets.row p) r) as Hrow by (exists qr; auto).
      assert (has_value (Polyanets.column p) c) as Hcol by (exists qc; auto).
      unfold JS.ge in Hr1, Hc1. cbn [Polyanets.size] in Hr2, Hc2.
      rewrite (has_value_le _ _ _ _ (has_value_of_Z 0) Hrow) in Hr1.
      rewrite (has_value_le _ _ _ _ (has_value_of_Z 0) Hcol) in Hc1.
      rewrite (has_value_lt _ _ _ _ Hrow Hsz) in Hr2.
      rewrite (has_value_lt _ _ _ _ Hcol Hsz) in Hc2.
      exists sz, r, c. split_and!; try assumption; try (by split); lia.
    + intros (sz' & r & c & Hsz' & Hp & Hr & Hc).
      rewrite (inBounds_in_grid {| Polyanets.size := size |} p sz' (r, c) Hsz' Hp).
      unfold in_grid. simpl. lia.
Qed.

(** X11.  A centre off the integer lattice plans nothing, and says
    nothing, as long as no sum rounds to an integer: when a coordinate of
    the centre is NaN, an infinity, or a fraction that keeps its fractional
    bits under every offset of the box (as 5.5 does), no point of either
    diagonal passes [inBounds] and [points] returns the empty list. *)
Theorem XShape_points_off_lattice_centre (boxSize : JS.number)
    (center : Polyanets.Point) (grid : Polyanets.Grid) (shape : Polyanets.XShape)
    (n : Z) (fuel : nat) :
  Polyanets.new_XShape boxSize center = Ok shape ->
  has_value boxSize n ->
  n <= 2 ^ 53 ->
  off_lattice (n / 2) (Polyanets.row center)
  \/ off_lattice (n / 2) (Polyanets.column center) ->
  (Z.to_nat n < fuel)%nat ->
  Polyanets.points fuel shape grid = Some [].
Proof.
  intros Hshape Hn Hbox Hoff Hfuel.
  destruct (new_XShape_Ok _ _ _ n Hshape Hn) as (-> & Hpos & Hodd).
  pose proof (odd_half n Hodd) as Hhalf.
  assert (safe_integer n) as Hsafe by (unfold safe_integer; lia).
  unfold Polyanets.points. cbn [Polyanets.boxSize Polyanets.center].
  rewrite (points_loop_off_lattice grid center _ (n / 2) Hoff
             (has_value_half boxSize n Hn Hsafe) ltac:(lia)
             (Z.to_nat n) fuel _ (- (n / 2)) []);
    [reflexivity|by apply has_value_neg, has_value_half|lia|lia|lia].
Qed.

(** Box 7 around (5.5, 5) on the 11 by 11 grid. *)
Lemma XShape_points_off_lattice_centre_witness :
  Polyanets.points 8
    {| Polyanets.boxSize := Polyanets.X_SIZE;
       Polyanets.center := {| Polyanets.row := JS.Fin (11 # 2);
                              Polyanets.column := JS.of_Z 5 |} |}
    {| Polyanets.size := Polyanets.GRID_SIZE |}
  = Some [].
Proof.
  apply (XShape_points_off_lattice_centre Polyanets.X_SIZE
           {| Polyanets.row := JS.Fin (11 # 2); Polyanets.column := JS.of_Z 5 |}
           {| Polyanets.size := Polyanets.GRID_SIZE |}
           {| Polyanets.boxSize := Polyanets.X_SIZE;
              Polyanets.center := {| Polyanets.row := JS.Fin (11 # 2);
                                     Polyanets.column := JS.of_Z 5 |} |}
           7 8 eq_refl).
  - apply has_value_of_Z.
  - by vm_compute.
  - left. right; right; right. exists (11 # 2)%Q, 11, 1.
    split_and!; [reflexivity|lia|lia|reflexivity|reflexivity|by vm_compute].
  - cbv. lia.
Defined.

(** Where the sums round, the script departs from both: a centre row of
    [2^-70] is no integer, but [2^-70 + d] is the double [d] for [d] from
    1 on, and the three lower rows of the box are planned. *)
Example XShape_points_rounded_centre :
  exists pts,
    Polyanets.points 8
      {| Polyanets.boxSize := Polyanets.X_SIZE;
         Polyanets.center := {| Polyanets.row := JS.Fin (Polyanets.pow2 (- 70));
                                Polyanets.column := JS.of_Z 5 |} |}
      {| Polyanets.size := Polyanets.GRID_SIZE |}
    = Some pts
    /\ Forall2 at_cell pts [(1, 6); (1, 4); (2, 7); (2, 3); (3, 8); (3, 2)].
Proof.
  eexists. split; [vm_compute; reflexivity|].
  repeat constructor; eexists; (split; [reflexivity|vm_compute; reflexivity]).
Qed.

(** And [2^53 + 1] is the double [2^53]. *)
Example add_rounds_beyond_safe_integers :
  has_value (Polyanets.add (JS.of_Z (2 ^ 53)) (JS.of_Z 1)) (2 ^ 53).
Proof. eexists. split; [vm_compute; reflexivity|vm_compute; reflexivity]. Qed.

(** ** Phase 2: the API client under retry *)

Section ClientFacts.
Import Client.

Lemma strip_trailing_slash_appended (b : string) : strip_trailing_slash (b ++ "/") = b.
Proof.
  induction b as [|c b IH]; [reflexivity|].
  change (String c b ++ "/")%string with (String c (b ++ "/")).
  cbn [strip_trailing_slash]. rewrite IH. by destruct b.
Qed.

Lemma strip_trailing_slash_none (s : string) :
  ~ ends_with_slash s -> strip_trailing_slash s = s.
Proof.
  induction s as [|c s IH]; intros Hno; [reflexivity|].
  destruct s as [|c' s].
  - cbn [strip_trailing_slash]. destruct (Ascii.eqb_spec c "/") as [->|]; [|reflexivity].
    exfalso. apply Hno. by exists "".
  - change (strip_trailing_slash (String c (String c' s)))
      with (String c (strip_trailing_slash (String c' s))).
    rewrite IH; [reflexivity|]. intros [b Hb]. apply Hno. exists (String c b).
    simpl. by rewrite Hb.
Qed.

(** A failure of [getGoal] never carries a status. *)
Lemma getGoal_rejected (f : fetched) (err : Retry.failure) :
  getGoal f = Retry.Rejected err -> Retry.status err = JS.Undefined.
Proof.
  unfold getGoal. destruct f as [m|res]; [by intros [= <-]|].
  destruct (negb (ok res)); [by intros [= <-]|].
  destruct (json res); intros [= <-] || discriminate; reflexivity.
Qed.

End ClientFacts.

(** X12.  The client drops one slash from the end of the base URL and no
    more: a base given with a final slash and the same base without it make
    the same client, hence the same request URLs, while a base that ends in
    two slashes keeps one.  An empty candidate id is refused whatever the
    base. *)
Theorem client_base_url_drops_one_slash :
  (forall b : string, Client.strip_trailing_slash (b ++ "/") = b)
  /\ (forall s : string, ~ ends_with_slash s -> Client.strip_trailing_slash s = s)
  /\ (forall (id b : string) (env : option string),
        Client.new id (Some (b ++ "/")%string) env
        = match Client.new id (Some b) env with
          | Ok client =>
              Ok {| Client.candidateId := Client.candidateId client; Client.baseUrl := b |}
          | Err e => Err e
          end)
  /\ (forall (id b : string) (env : option string),
        ~ ends_with_slash b ->
        Client.new id (Some (b ++ "/")%string) env = Client.new id (Some b) env)
  /\ (forall (base env : option string),
        Client.new "" base env = Err (Error "CANDIDATE_ID env var is required")).
Proof.
  split_and!.
  - apply strip_trailing_slash_appended.
  - apply strip_trailing_slash_none.
  - intros id b env. unfold Client.new. rewrite strip_trailing_slash_appended.
    by destruct (String.eqb id "").
  - intros id b env Hb. unfold Client.new.
    by rewrite strip_trailing_slash_appended, strip_trailing_slash_none.
  - reflexivity.
Qed.

Lemma client_base_url_drops_one_slash_witness :
  Client.new "me" (Some ("https://host/api" ++ "/")%string) None
  = Client.new "me" (Some "https://host/api") None.
Proof.
  apply (proj1 (proj2 (proj2 (proj2 client_base_url_drops_one_slash)))
           "me" "https://host/api" None).
  intros [b Hb]. revert Hb.
  repeat (destruct b as [|? b]; [discriminate|]; intros [= ? Hb]; subst; revert Hb).
Defined.

(** X13.  Every failure of [getGoal] is retried.  Its errors carry no
    status, whether the fetch failed, the server answered 404 or 500, or
    the body was not a goal map; so [withRetry] takes them all for
    transient, and under [main]'s options a goal endpoint that does not
    deliver in five requests is asked exactly five times before [main]
    gives up with the fifth failure. *)
Theorem getGoal_failures_are_always_retried {A : JS.Arith}
    (responses : nat -> Client.fetched) (Math_random : nat -> JS.number) (fuel : nat) :
  (forall k goal, (k <= 4)%nat -> Client.getGoal (responses k) <> Retry.Fulfilled goal) ->
  (4 < fuel)%nat ->
  exists err t,
    Client.getGoal (responses 4%nat) = Retry.Rejected err
    /\ Retry.status err = JS.Undefined
    /\ Phase2.withRetry (fun k => Client.getGoal (responses k)) Math_random
         (Some Client.goal_retry) fuel
       = Some (Retry.Rejected err, t)
    /\ Retry.invocations t = 5%nat
    /\ length (Retry.onRetry_calls t) = 4%nat.
Proof.
  intros Hfail Hfuel.
  destruct (withRetry_loop_exhausts (fun k => Client.getGoal (responses k)) Math_random
              Client.goal_retry 4 eq_refl) with (fuel := fuel) (attempt := 0%nat)
              (t := Retry.start)
    as (err & t & Hlast & Hrun & Hi & _ & Hh); [|reflexivity|lia|lia|].
  { intros k Hk. destruct (Client.getGoal (responses k)) as [goal|err] eqn:E.
    - by destruct (Hfail k goal Hk).
    - exists err. split; [reflexivity|]. apply getGoal_rejected in E.
      apply transient_spec. left. exact E. }
  exists err, t. split_and!; try assumption.
  by apply (getGoal_rejected (responses 4%nat)).
Qed.

Lemma getGoal_failures_are_always_retried_witness :
  exists err t,
    Client.getGoal (Client.Responded {| Client.status := 404; Client.statusText := "Not Found";
                                        Client.text := None; Client.json := Client.NoGoalArray |})
    = Retry.Rejected err
    /\ Retry.status err = JS.Undefined
    /\ Phase2.withRetry (arith := JS.exact)
         (fun _ => Client.getGoal
                     (Client.Responded {| Client.status := 404;
                                          Client.statusText := "Not Found";
                                          Client.text := None;
                                          Client.json := Client.NoGoalArray |}))
         (fun _ => JS.Fin (1 # 2)) (Some Client.goal_retry) 9
       = Some (Retry.Rejected err, t)
    /\ Retry.invocations t = 5%nat
    /\ length (Retry.onRetry_calls t) = 4%nat.
Proof.
  apply (getGoal_failures_are_always_retried (A := JS.exact)
           (fun _ => Client.Responded {| Client.status := 404;
                                         Client.statusText := "Not Found";
                                         Client.text := None;
                                         Client.json := Client.NoGoalArray |})
           (fun _ => JS.Fin (1 # 2)) 9).
  - intros k goal _. discriminate.
  - lia.
Defined.

Section ClientStatus.
Import Client.

Lemma transient_of_status (st : nat) :
  Phase2.transient (JS.Number (JS.of_nat st)) = ((st =? 429)%nat || (500 <=? st)%nat).
Proof.
  apply eq_true_iff_eq. rewrite transient_spec, orb_true_iff, Nat.eqb_eq, Nat.leb_le.
  unfold transient_failure, JS.of_nat, JS.of_Z. split.
  - intros [[=]|[(q & [= <-] & Hq)|(n & [= <-] & Hn)]].
    + left. unfold Qeq in Hq. simpl in Hq. lia.
    + right. simpl in Hn. rewrite <- Zle_Qle in Hn. lia.
  - intros [->|Hge].
    + right; left. eexists. split; reflexivity.
    + right; right. eexists. split; [reflexivity|]. simpl. rewrite <- Zle_Qle. lia.
Qed.

Lemma send_responded (method path : string) (res : Response) :
  send method path (Responded res)
  = if ok res then Retry.Fulfilled tt
    else Retry.Rejected
           {| Retry.status := JS.Number (JS.of_nat (status res));
              Retry.message :=
                method ++ " " ++ path ++ " failed: " ++ JS.show (status res) ++ " "
                ++ statusText res ++ " → " ++ safeText res |}.
Proof. unfold send. by destruct (ok res). Qed.

End ClientStatus.

(** X14.  A creation call under [main]'s retry options, against a server
    that answers every request with the same status: a status from 200 to
    299 ends it with one request and success; 429 or a status of 500 and
    above costs seven requests, the budget of six retries, and ends in
    failure; any other status ends in failure after the one request.  The
    failure thrown carries the status of the last response. *)
Theorem create_call_requests_by_status {A : JS.Arith} (c : Phase2.call)
    (res : nat -> Client.Response) (st : nat) (Math_random : nat -> JS.number)
    (fuel : nat) :
  (forall k, Client.status (res k) = st) ->
  (6 < fuel)%nat ->
  exists out t,
    Phase2.withRetry (fun k => Client.perform c (Client.Responded (res k))) Math_random
      (Some Client.action_retry) fuel
    = Some (out, t)
    /\ Retry.invocations t
       = (if (200 <=? st)%nat && (st <=? 299)%nat then 1
          else if (st =? 429)%nat || (500 <=? st)%nat then 7 else 1)%nat
    /\ (out = Retry.Fulfilled tt <-> (200 <= st <= 299)%nat)
    /\ (forall err, out = Retry.Rejected err ->
          Retry.status err = JS.Number (JS.of_nat st)).
Proof.
  intros Hst Hfuel.
  assert (forall k, Client.ok (res k) = ((200 <=? st)%nat && (st <=? 299)%nat)) as Hok
    by (intros k; unfold Client.ok; by rewrite Hst).
  set (fn := fun k => Client.perform c (Client.Responded (res k))).
  assert (forall k, fn k
                    = if (200 <=? st)%nat && (st <=? 299)%nat then Retry.Fulfilled tt
                      else Retry.Rejected
                             {| Retry.status := JS.Number (JS.of_nat st);
                                Retry.message :=
                                  "POST" ++ " " ++ Client.path_of c ++ " failed: "
                                  ++ JS.show st ++ " " ++ Client.statusText (res k)
                                  ++ " → " ++ Client.safeText (res k) |}) as Hfn.
  { intros k. unfold fn, Client.perform, Client.post.
    by rewrite send_responded, Hok, Hst. }
  destruct ((200 <=? st)%nat && (st <=? 299)%nat) eqn:Hrange.
  - exists (Retry.Fulfilled tt), (Retry.invoked Retry.start).
    destruct fuel as [|fuel]; [lia|]. unfold Phase2.withRetry. cbn [Phase2.withRetry_loop].
    cbn [Retry.invocations Retry.start]. rewrite Hfn.
    apply andb_true_iff in Hrange as [?%Nat.leb_le ?%Nat.leb_le].
    split_and!; [reflexivity|reflexivity|split; [lia|reflexivity]|discriminate].
  - assert (~ (200 <= st <= 299)%nat) as Hout.
    { intros [?%Nat.leb_le ?%Nat.leb_le]. rewrite andb_false_iff in Hrange.
      destruct Hrange; congruence. }
    destruct ((st =? 429)%nat || (500 <=? st)%nat) eqn:Htr.
    + destruct (withRetry_loop_exhausts fn Math_random Client.action_retry 6 eq_refl)
        with (fuel := fuel) (attempt := 0%nat) (t := Retry.start)
        as (err & t & Hlast & Hrun & Hi & _ & _); [|reflexivity|lia|lia|].
      { intros k _. eexists. split; [apply Hfn|]. cbn [Retry.status].
        by rewrite transient_of_status. }
      exists (Retry.Rejected err), t. split_and!; try assumption.
      * split; [discriminate|intros; lia].
      * intros err' [= <-]. rewrite Hfn in Hlast. by injection Hlast as <-.
    + destruct fuel as [|fuel]; [lia|].
      eexists _, _. unfold Phase2.withRetry.
      rewrite (withRetry_loop_rejected fn Math_random (Some Client.action_retry) fuel 0
                 Retry.start _ (Hfn 0%nat)).
      cbn [Retry.status]. rewrite transient_of_status, Htr. rewrite orb_true_r.
      split_and!; [reflexivity|reflexivity|split; [discriminate|intros; lia]|].
      by intros err [= <-].
Qed.

Lemma create_call_requests_by_status_witness :
  exists out t,
    Phase2.withRetry (arith := JS.exact)
      (fun _ => Client.perform
                  (Phase2.createPolyanet {| Phase2.row := JS.of_Z 2; Phase2.column := JS.of_Z 3 |})
                  (Client.Responded {| Client.status := 429;
                                       Client.statusText := "Too Many Requests";
                                       Client.text := Some "slow down";
                                       Client.json := Client.NoGoalArray |}))
      (fun _ => JS.Fin (1 # 2)) (Some Client.action_retry) 8
    = Some (out, t)
    /\ Retry.invocations t = 7%nat
    /\ (out = Retry.Fulfilled tt <-> (200 <= 429 <= 299)%nat)
    /\ (forall err, out = Retry.Rejected err ->
          Retry.status err = JS.Number (JS.of_nat 429)).
Proof.
  apply (create_call_requests_by_status (A := JS.exact)
           (Phase2.createPolyanet {| Phase2.row := JS.of_Z 2; Phase2.column := JS.of_Z 3 |})
           (fun _ => {| Client.status := 429; Client.statusText := "Too Many Requests";
                        Client.text := Some "slow down";
                        Client.json := Client.NoGoalArray |})
           429 (fun _ => JS.Fin (1 # 2)) 8).
  - reflexivity.
  - lia.
Defined.

(** ** The batch runner *)

Section RunnerFacts.
Import Limiter.
Variable outcome : invocation -> Retry.settled unit.

Lemma remove_one_elem_of (t x : invocation) (l : list invocation) :
  x ∈ remove_one t l -> x ∈ l.
Proof.
  induction l as [|y l IH]; simpl; [done|].
  destruct (decide (y = t)); [by apply list_elem_of_further|].
  intros [->|Hin]%elem_of_cons; [apply list_elem_of_here|].
  apply list_elem_of_further. by apply IH.
Qed.

Lemma remove_one_other (t x : invocation) (l : list invocation) :
  x <> t -> x ∈ l -> x ∈ remove_one t l.
Proof.
  intros Hne. induction l as [|y l IH]; simpl; [done|].
  intros [->|Hin]%elem_of_cons.
  - rewrite decide_False by done. apply list_elem_of_here.
  - destruct (decide (y = t)); [assumption|]. apply list_elem_of_further. by apply IH.
Qed.

Lemma remove_one_perm (t : invocation) (l : list invocation) :
  t ∈ l -> l ≡ₚ t :: remove_one t l.
Proof.
  induction l as [|y l IH]; simpl; [by intros ?%elem_of_nil|].
  destruct (decide (y = t)) as [->|Hne]; [done|].
  intros [->|Hin]%elem_of_cons; [done|].
  rewrite (IH Hin) at 1. apply Permutation_swap.
Qed.

Lemma remove_one_NoDup (t : invocation) (l : list invocation) :
  NoDup l -> NoDup (remove_one t l) /\ t ∉ remove_one t l.
Proof.
  induction 1 as [|y l Hy Hl IH]; simpl.
  - split; [constructor|by intros ?%elem_of_nil].
  - destruct (decide (y = t)) as [->|Hne]; [done|]. destruct IH as [IH1 IH2]. split.
    + constructor; [|assumption]. intros Hin. by apply remove_one_elem_of in Hin.
    + intros [->|Hin]%elem_of_cons; done.
Qed.

(** What a step of the limiter does to the admissions and the running set. *)
Lemma step_enters (w : world) (e : event) (w' : world) :
  (forall t, e <> Settle t) -> step w e = Some w' ->
  exists new, admission_order w' = admission_order w ++ new
              /\ running w' = running w ++ new.
Proof.
  unfold admission_order. intros He. destruct e as [t| |t]; simpl; [| |by destruct (He t)].
  - intros [= <-]. unfold run_call, run_enter. destruct (JS.ge _ _); simpl.
    + exists []. by rewrite omap_app, !app_nil_r.
    + exists [t]. by rewrite omap_app.
  - destruct (woken w) as [|t rest]; [discriminate|]. intros [= <-]. simpl.
    exists [t]. by rewrite omap_app.
Qed.

Lemma step_leaves (w : world) (t : invocation) (w' : world) :
  step w (Settle t) = Some w' ->
  admission_order w' = admission_order w
  /\ running w' = remove_one t (running w).
Proof.
  unfold admission_order. simpl.
  destruct (decide _) as [Hin|]; [|discriminate]. intros [= <-].
  unfold run_finally. by destruct (queue _).
Qed.

Lemma successes_cons (i : invocation) (l : list invocation) :
  successes outcome (i :: l)
  = successes outcome l + (if is_fulfilled (outcome i) then 1 else 0).
Proof. unfold successes. simpl. destruct (is_fulfilled _); simpl; lia. Qed.

Lemma failures_cons (i : invocation) (l : list invocation) :
  failures outcome (i :: l)
  = failures outcome l + (if is_fulfilled (outcome i) then 0 else 1).
Proof. unfold failures. simpl. destruct (is_fulfilled _); simpl; lia. Qed.

Lemma successes_perm (l l' : list invocation) :
  l ≡ₚ l' -> successes outcome l = successes outcome l' /\ failures outcome l = failures outcome l'.
Proof.
  induction 1 as [|x l l' _ [IH1 IH2]|x y l|l l' l'' _ [IH1 IH2] _ [IH3 IH4]].
  - done.
  - rewrite !successes_cons, !failures_cons. lia.
  - rewrite !successes_cons, !failures_cons. lia.
  - split; congruence.
Qed.

Lemma successes_failures (l : list invocation) :
  successes outcome l + failures outcome l = Z.of_nat (length l).
Proof.
  induction l as [|i l IH]; [reflexivity|].
  rewrite successes_cons, failures_cons. simpl length.
  destruct (is_fulfilled _); lia.
Qed.

Lemma accounted_enters (s : Runner.state) (w' : world) (new : list invocation) :
  accounted outcome s ->
  admission_order w' = admission_order (Runner.world s) ++ new ->
  running w' = running (Runner.world s) ++ new ->
  accounted outcome (Runner.with_world s w').
Proof.
  intros (gone & Htal & Hadm & Hnd & Hsub & Hok & Hfail) Ha Hr.
  exists gone. unfold Runner.with_world; simpl. rewrite Ha, Hr. split_and!; try done.
  - by rewrite Hadm, app_assoc.
  - intros x Hx. apply elem_of_app. left. by apply Hsub.
Qed.

Lemma step_accounted (s : Runner.state) (e : Runner.event) (s' : Runner.state) :
  accounted outcome s -> Runner.step outcome s e = Some s' -> accounted outcome s'.
Proof.
  intros Hs. destruct e as [i| |i|i]; cbn [Runner.step].
  - destruct (step (Runner.world s) (Call i)) as [w'|] eqn:E; simpl; [|discriminate].
    intros [= <-]. destruct (step_enters (Runner.world s) (Call i) w' ltac:(done) E) as (new & Ha & Hr).
    by apply (accounted_enters s w' new).
  - destruct (step (Runner.world s) Resume) as [w'|] eqn:E; simpl; [|discriminate].
    intros [= <-]. destruct (step_enters (Runner.world s) Resume w' ltac:(done) E) as (new & Ha & Hr).
    by apply (accounted_enters s w' new).
  - destruct Hs as (gone & Htal & Hadm & Hnd & Hsub & Hok & Hfail).
    destruct (decide _) as [[Hrun Hnew]|]; [|discriminate]. intros [= <-].
    exists gone. unfold Runner.tally.
    assert (i :: Runner.tallied s ≡ₚ gone ++ i :: Runner.counted s) as Htal'.
    { rewrite Htal. apply Permutation_middle. }
    assert (NoDup (i :: Runner.counted s)) as Hnd' by by constructor.
    assert (forall x, x ∈ i :: Runner.counted s -> x ∈ running (Runner.world s)) as Hsub'.
    { intros x [->|Hx]%elem_of_cons; auto. }
    pose proof (successes_cons i (Runner.tallied s)) as Hs1.
    pose proof (failures_cons i (Runner.tallied s)) as Hf1.
    destruct (outcome i) eqn:Eo; simpl in *; split_and!; try done; lia.
  - destruct Hs as (gone & Htal & Hadm & Hnd & Hsub & Hok & Hfail).
    destruct (decide _) as [Hin|]; [|discriminate].
    destruct (step (Runner.world s) (Settle i)) as [w'|] eqn:E; simpl; [|discriminate].
    intros [= <-]. destruct (step_leaves _ _ _ E) as [Ha Hr].
    destruct (remove_one_NoDup i _ Hnd) as [Hnd' Hgone].
    exists (i :: gone). simpl. rewrite Ha, Hr. split_and!; try done.
    + rewrite Htal. rewrite (remove_one_perm i (Runner.counted s) Hin) at 1.
      by rewrite Permutation_middle.
    + rewrite Hadm. rewrite (remove_one_perm i (running (Runner.world s))) at 1
        by by apply Hsub.
      by rewrite Permutation_middle.
    + intros x Hx. apply remove_one_other.
      * intros ->. done.
      * apply Hsub. by apply remove_one_elem_of in Hx.
Qed.

Lemma exec_accounted (evs : list Runner.event) :
  forall s s', accounted outcome s -> Runner.exec outcome s evs = Some s' ->
               accounted outcome s'.
Proof.
  induction evs as [|e evs IH]; intros s s' Hs; simpl.
  - by intros [= <-].
  - destruct (Runner.step outcome s e) as [s1|] eqn:E; simpl; [|discriminate].
    apply IH. by apply (step_accounted s e).
Qed.

(** The limiter's own run inside a run of the runner. *)
Lemma step_limiter (s : Runner.state) (e : Runner.event) (s' : Runner.state) :
  Runner.step outcome s e = Some s' ->
  match limiter_event e with
  | Some le => step (Runner.world s) le = Some (Runner.world s')
  | None => Runner.world s' = Runner.world s
  end.
Proof.
  destruct e as [i| |i|i]; cbn [Runner.step limiter_event].
  - destruct (step (Runner.world s) (Call i)) as [w1|]; simpl; [|discriminate].
    by intros [= <-].
  - destruct (step (Runner.world s) Resume) as [w1|]; simpl; [|discriminate].
    by intros [= <-].
  - destruct (decide _); [|discriminate]. intros [= <-].
    unfold Runner.tally. by destruct (outcome i).
  - destruct (decide _); [|discriminate].
    destruct (step (Runner.world s) (Settle i)) as [w1|]; simpl; [|discriminate].
    by intros [= <-].
Qed.

Lemma exec_limiter (evs : list Runner.event) :
  forall s s', Runner.exec outcome s evs = Some s' ->
               exec (Runner.world s) (omap limiter_event evs) = Some (Runner.world s').
Proof.
  induction evs as [|e evs IH]; intros s s'; cbn [Runner.exec omap list_omap].
  - by intros [= <-].
  - destruct (Runner.step outcome s e) as [s1|] eqn:E; simpl; [|discriminate].
    intros Hexec%IH. apply step_limiter in E.
    destruct (limiter_event e) as [le|]; [|by rewrite <- E].
    cbn [exec]. by rewrite E.
Qed.

Lemma limiter_events_batch (ts : list invocation) (rest : list Runner.event) :
  no_submits rest ->
  omap limiter_event ((Runner.Submit <$> ts) ++ rest)
  = batch ts (omap limiter_event rest)
  /\ no_calls (omap limiter_event rest).
Proof.
  intros Hrest. split.
  - rewrite omap_app. unfold batch. f_equal.
    induction ts as [|t ts IH]; [reflexivity|].
    cbn [fmap list_fmap omap list_omap limiter_event]. f_equal. exact IH.
  - induction Hrest as [|e rest He _ IH]; simpl; [constructor|].
    destruct e; simpl in *; try discriminate; try assumption; by constructor.
Qed.

End RunnerFacts.

(** X15. The batch runner of [main]: once every call handed to
    [limiter.run] has left the limiter, [ok] is the number of actions whose
    [withRetry] fulfilled and [fail] the number of those whose [withRetry]
    rejected; each action is counted once, so [ok + fail] is the number of
    actions, whatever the concurrency limit and the interleaving. *)
Theorem batch_runner_counts_each_action_once
    (outcome : Limiter.invocation -> Retry.settled unit)
    (maxv : JS.number) (l : Limiter.Limiter)
    (n : nat) (rest : list Runner.event) (s : Runner.state) :
  Limiter.new maxv = Ok l ->
  no_submits rest ->
  Runner.exec outcome (Runner.start l) ((Runner.Submit <$> seq 0 n) ++ rest) = Some s ->
  Runner.all_settled s ->
  Runner.ok s = successes outcome (seq 0 n)
  /\ Runner.fail s = failures outcome (seq 0 n)
  /\ Runner.ok s + Runner.fail s = Z.of_nat n.
Proof.
  intros [-> _]%new_Ok Hrest Hexec (Hrun & Hwoken & Hqueue).
  set (l0 := {| Limiter.max := maxv; Limiter.active := 0; Limiter.queue := [] |}) in *.
  assert (Limiter.admission_order (Runner.world s) = seq 0 n) as Hadmitted.
  { apply exec_limiter in Hexec.
    destruct (limiter_events_batch (seq 0 n) rest Hrest) as [Hevs Hno].
    rewrite Hevs in Hexec. unfold batch in Hexec.
    rewrite exec_app in Hexec.
    destruct (batch_submitted (seq 0 n) (Limiter.boot l0))
      as (w1 & Hcalls & Hw1 & Horder); [reflexivity|done|].
    change (Runner.world (Runner.start l0)) with (Limiter.boot l0) in Hexec.
    rewrite Hcalls in Hexec. simpl in Hexec.
    pose proof (exec_keeps_line _ w1 _ Hno Hexec) as Hline.
    rewrite Hwoken, Hqueue, Hw1, !app_nil_r in Hline. simpl in Hline.
    rewrite Hline. exact Horder. }
  assert (accounted outcome (Runner.start l0)) as Hstart.
  { exists []. simpl. split_and!; try done. constructor. }
  destruct (exec_accounted outcome _ _ _ Hstart Hexec)
    as (gone & Htal & Hadm & _ & Hsub & Hok & Hfail).
  assert (Runner.counted s = []) as Hcounted.
  { destruct (Runner.counted s) as [|x xs]; [reflexivity|].
    specialize (Hsub x (list_elem_of_here _ _)). rewrite Hrun in Hsub.
    by apply elem_of_nil in Hsub. }
  rewrite Hcounted, app_nil_r in Htal. rewrite Hrun, app_nil_r, Hadmitted in Hadm.
  destruct (successes_perm outcome _ _ Htal) as [H1 H2].
  destruct (successes_perm outcome _ _ Hadm) as [H3 H4].
  pose proof (successes_failures outcome (seq 0 n)) as Hsum.
  rewrite length_seq in Hsum. split_and!; congruence.
Qed.

(** Five actions, the third of which fails for good, run two at a time. *)
Lemma batch_runner_counts_each_action_once_witness :
  exists s,
    Runner.exec (fun i => if decide (i = 2%nat) then Retry.Rejected {| Retry.status := JS.Number (JS.Fin 400); Retry.message := "HTTP 400" |}
                          else Retry.Fulfilled tt)
      (Runner.start {| Limiter.max := JS.Fin 2; Limiter.active := 0; Limiter.queue := [] |})
      ((Runner.Submit <$> seq 0 5)
         ++ [Runner.Tally 1; Runner.Leave 1; Runner.Resume; Runner.Tally 0;
             Runner.Tally 2; Runner.Leave 2; Runner.Leave 0; Runner.Resume;
             Runner.Resume; Runner.Tally 4; Runner.Tally 3; Runner.Leave 3;
             Runner.Leave 4]) = Some s
    /\ Runner.ok s = 4 /\ Runner.fail s = 1.
Proof.
  eexists. split; [vm_compute; reflexivity|].
  match goal with
  | |- Runner.ok ?s = _ /\ _ =>
      destruct (batch_runner_counts_each_action_once
                  (fun i => if decide (i = 2%nat) then Retry.Rejected {| Retry.status := JS.Number (JS.Fin 400); Retry.message := "HTTP 400" |}
                            else Retry.Fulfilled tt)
                  (JS.Fin 2)
                  {| Limiter.max := JS.Fin 2; Limiter.active := 0; Limiter.queue := [] |}
                  5
                  [Runner.Tally 1; Runner.Leave 1; Runner.Resume; Runner.Tally 0;
                   Runner.Tally 2; Runner.Leave 2; Runner.Leave 0; Runner.Resume;
                   Runner.Resume; Runner.Tally 4; Runner.Tally 3; Runner.Leave 3;
                   Runner.Leave 4]
                  s) as (Hok & Hfail & _)
  end.
  - vm_compute. reflexivity.
  - repeat constructor.
  - vm_compute. reflexivity.
  - vm_compute. done.
  - split; [exact Hok | exact Hfail].
Defined.

(** ** The start of [main] *)

(** X16. A dry run with a candidate id set: the phase-2 script returns the
    planned actions whatever [CONCURRENCY] holds, since it builds its
    limiter after the dry-run check; the phase-1 script builds it before,
    and so rejects with "Concurrency must be >= 1" when [CONCURRENCY]
    parses to a number below 1, although a dry run sends nothing. *)
Theorem dry_run_checks_concurrency_in_phase1_only (e : Main.env)
    (goal : list (list string)) (s : Phase2.plan_state) (grid : Phase2.Grid) :
  Client.env_or (Main.CANDIDATE_ID e) "" <> ""%string ->
  Main.dryRun e = true ->
  Phase2.plan goal = (s, Ok grid) ->
  Main.phase2 e (Retry.Fulfilled goal) = Main.DryRun (Phase2.actions s)
  /\ (JS.lt (Config.concurrency (Main.CONCURRENCY e) "6") (JS.of_Z 1) = true ->
      forall fuel, (7 < fuel)%nat ->
        Main.phase1 fuel e = Some (Main.Threw (Error "Concurrency must be >= 1"))).
Proof.
  intros Hid Hdry Hplan.
  assert (exists client,
            Client.new (Client.env_or (Main.CANDIDATE_ID e) "") None (Main.BASE_URL e)
            = Ok client) as [client Hclient].
  { unfold Client.new. destruct (String.eqb_spec (Client.env_or (Main.CANDIDATE_ID e) "") "");
      [done|eauto]. }
  split.
  - unfold Main.phase2. by rewrite Hclient, Hplan, Hdry.
  - intros Hlow fuel Hfuel. unfold Main.phase1. rewrite Hclient.
    destruct (points_cross_cells Polyanets.GRID_SIZE Polyanets.X_SIZE Polyanets.CENTER
                {| Polyanets.size := Polyanets.GRID_SIZE |}
                {| Polyanets.boxSize := Polyanets.X_SIZE;
                   Polyanets.center := Polyanets.CENTER |}
                11 7 5 5 fuel) as (pts & Hpts & _).
    + reflexivity.
    + reflexivity.
    + apply has_value_of_Z.
    + apply has_value_of_Z.
    + split; apply has_value_of_Z.
    + by vm_compute.
    + by vm_compute.
    + by vm_compute.
    + simpl. lia.
    + change (Polyanets.new_Grid Polyanets.GRID_SIZE)
        with (Ok {| Polyanets.size := Polyanets.GRID_SIZE |} : JS.result _).
      change (Polyanets.new_XShape Polyanets.X_SIZE Polyanets.CENTER)
        with (Ok {| Polyanets.boxSize := Polyanets.X_SIZE;
                    Polyanets.center := Polyanets.CENTER |} : JS.result _).
      cbv beta iota. rewrite Hpts. unfold Limiter.new. by rewrite Hlow.
Qed.

(** [DRY_RUN=TRUE CONCURRENCY=0] and a goal of one polyanet. *)
Lemma dry_run_checks_concurrency_in_phase1_only_witness :
  length (match Main.phase2
                  {| Main.CANDIDATE_ID := Some "abc"; Main.BASE_URL := None;
                     Main.CONCURRENCY := Some "0"; Main.DRY_RUN := Some "TRUE" |}
                  (Retry.Fulfilled [["POLYANET"]]) with
          | Main.DryRun acts => acts
          | _ => []
          end) = 1%nat
  /\ Main.phase1 8
       {| Main.CANDIDATE_ID := Some "abc"; Main.BASE_URL := None;
          Main.CONCURRENCY := Some "0"; Main.DRY_RUN := Some "TRUE" |}
     = Some (Main.Threw (Error "Concurrency must be >= 1")).
Proof.
  destruct (dry_run_checks_concurrency_in_phase1_only
              {| Main.CANDIDATE_ID := Some "abc"; Main.BASE_URL := None;
                 Main.CONCURRENCY := Some "0"; Main.DRY_RUN := Some "TRUE" |}
              [["POLYANET"]]
              (fst (Phase2.plan [["POLYANET"]]))
              {| Phase2.height := JS.of_Z 1; Phase2.width := JS.of_Z 1 |})
    as [H2 H1].
  - vm_compute. discriminate.
  - vm_compute. reflexivity.
  - vm_compute. reflexivity.
  - split.
    + rewrite H2. vm_compute. reflexivity.
    + apply H1; [vm_compute; reflexivity | lia].
Defined.

(** ** The concurrency setting *)

Section ConfigFacts.
Import Config.

Lemma digits_ends (tail : string) (acc : option Z) :
  ends_digits tail -> digits tail acc = acc.
Proof. destruct tail as [|c rest]; simpl; [done|]. by intros ->. Qed.

Lemma digits_decimal (d : Decimal.uint) (tail : string) :
  forall a : nat,
    digits (NilEmpty.string_of_uint d ++ tail) (Some (Z.of_nat a))
    = digits tail (Some (Z.of_nat (Nat.of_uint_acc d a))).
Proof.
  induction d as [|d IH|d IH|d IH|d IH|d IH|d IH|d IH|d IH|d IH|d IH]; intros a;
    [reflexivity|..];
    cbn [NilEmpty.string_of_uint Nat.of_uint_acc]; rewrite <- IH;
    change (String ?c ?s ++ ?t)%string with (String c (s ++ t))%string;
    cbn [digits];
    match goal with
    | |- context [digit ?c] =>
        let v := eval vm_compute in (digit c) in change (digit c) with v
    end;
    cbn [default from_option id]; f_equal; f_equal;
    rewrite Nat.tail_mul_spec; lia.
Qed.

Lemma parseInt_digit_first (c : ascii) (rest : string) (k : Z) :
  digit c = Some k ->
  parseInt (String c rest)
  = match digits (String c rest) (Some 0) with
    | Some n => JS.of_Z n
    | None => JS.NaN
    end.
Proof.
  intros Hc. destruct c as [b0 b1 b2 b3 b4 b5 b6 b7].
  destruct b0, b1, b2, b3, b4, b5, b6, b7;
    try (exfalso; vm_compute in Hc; discriminate);
    clear Hc;
    match goal with
    | |- parseInt (String ?c rest) = _ =>
        change (parseInt (String c rest))
          with (match digits (String c rest) None with
                | Some n => JS.of_Z (1 * n)
                | None => JS.NaN
                end);
        cbn [digits];
        let v := eval vm_compute in (digit c) in change (digit c) with v
    end;
    cbn [default from_option id];
    (destruct (digits _ _) as [n|]; [f_equal; lia|reflexivity]).
Qed.

Lemma to_uint_digit_first (n : nat) :
  exists c rest k,
    NilEmpty.string_of_uint (Nat.to_uint n) = String c rest /\ digit c = Some k.
Proof.
  destruct (Nat.to_uint n) as [|d|d|d|d|d|d|d|d|d|d] eqn:E;
    [|simpl; eauto..].
  exfalso. pose proof (DecimalNat.Unsigned.of_to n) as H. rewrite E in H.
  simpl in H. subst n. discriminate E.
Qed.

Lemma parseInt_show (n : nat) (tail : string) :
  ends_digits tail -> parseInt (JS.show n ++ tail) = JS.of_nat n.
Proof.
  intros Htail. unfold JS.show.
  destruct (to_uint_digit_first n) as (c & rest & k & Hshow & Hc).
  pose proof (digits_decimal (Nat.to_uint n) tail 0) as Hdigits.
  rewrite Hshow in Hdigits |- *.
  change (String c rest ++ tail)%string with (String c (rest ++ tail)%string) in *.
  rewrite (parseInt_digit_first c _ k Hc).
  change (Some 0) with (Some (Z.of_nat 0)). rewrite Hdigits, digits_ends by done.
  change (Nat.of_uint_acc (Nat.to_uint n) 0) with (Nat.of_uint (Nat.to_uint n)).
  by rewrite DecimalNat.Unsigned.of_to.
Qed.

End ConfigFacts.

(** X17.  [CONCURRENCY] is read up to the end of its leading decimal
    digits.  When the variable, or the fallback when the variable is unset
    or empty, is the decimal form of [n] (exactly representable: up to
    2^53) followed by nothing or by anything that starts with a non-digit,
    the concurrency is [n]; and the limiter refuses it exactly when
    [n = 0]. *)
Theorem concurrency_reads_leading_decimal (n : nat) (tail fallback : string) :
  (Z.of_nat n <= 2 ^ 53)%Z ->
  ends_digits tail ->
  Config.concurrency (Some (JS.show n ++ tail)%string) fallback = JS.of_nat n
  /\ Config.concurrency None (JS.show n ++ tail)%string = JS.of_nat n
  /\ Config.concurrency (Some ""%string) (JS.show n ++ tail)%string = JS.of_nat n
  /\ (Limiter.new (Config.concurrency (Some (JS.show n ++ tail)%string) fallback)
      = Err (Error "Concurrency must be >= 1")
      <-> n = 0%nat).
Proof.
  intros _ Htail.
  assert (Config.concurrency (Some (JS.show n ++ tail)%string) fallback = JS.of_nat n)
    as Hset.
  { unfold Config.concurrency, JS.show.
    destruct (to_uint_digit_first n) as (c & rest & k & Hshow & _).
    rewrite Hshow.
    change (String c rest ++ tail)%string with (String c (rest ++ tail)%string).
    cbn [String.eqb].
    change (String c (rest ++ tail)%string) with (String c rest ++ tail)%string.
    rewrite <- Hshow.
    by apply parseInt_show. }
  split_and!.
  - exact Hset.
  - by apply parseInt_show.
  - by apply parseInt_show.
  - rewrite Hset. unfold Limiter.new, JS.of_nat. rewrite lt_of_Z.
    destruct (Z.ltb_spec (Z.of_nat n) 1); split; (discriminate || lia || done).
Qed.

(** [CONCURRENCY=4x] reads as 4, and [CONCURRENCY=0.5] as 0. *)
Lemma concurrency_reads_leading_decimal_witness :
  Config.concurrency (Some "4x") "8" = JS.of_nat 4
  /\ Limiter.new (Config.concurrency (Some "0.5") "8")
     = Err (Error "Concurrency must be >= 1").
Proof.
  split.
  - apply (concurrency_reads_leading_decimal 4 "x" "8"); [by vm_compute|reflexivity].
  - apply (concurrency_reads_leading_decimal 0 ".5" "8"); [by vm_compute|reflexivity..].
Defined.
